(** * mermaidgen: a shallow embedding of the [flowchart] and [gantt] packages

    The two packages build a diagram in memory (Go structs reached through
    pointers, maps from identifiers to entities, slices for the rendering
    order), render it to mermaid text ([String]) and wrap that text into a
    link for the live viewer ([LiveURL]).

    Layout of the development:
    - [Go]: the part of the Go runtime the packages rely on: a heap of
      objects and backing arrays, slices ([make], [copy], [append]),
      the iteration order of maps;
    - [encoding]: [encoding/json] for the exported record, [encoding/base64]
      with the URL alphabet, the interface of [compress/zlib];
    - [flowchart] and [gantt]: the two packages, function by function;
    - the properties of the packages. *)

From Stdlib Require Import ZArith NArith Ascii Lia.
From stdpp Require Import gmap strings list fin_maps sorting pretty.

(** ** Part I: the Go runtime *)

Module Go.

(** A pointer is an index into the heap; [None] in an [option ptr] is Go's
    [nil]. *)
Abbreviation ptr := nat.

(** A heap cell is either a struct (of the package's object type [Obj]) or
    the backing array of a slice of pointers. *)
Inductive cell (Obj : Type) : Type :=
  | Object (o : Obj)
  | Array (a : list (option ptr)).
Arguments Object {Obj} o.
Arguments Array {Obj} a.

Abbreviation heap Obj := (list (cell Obj)).

(** A slice header: the backing array (none for the nil slice), the length
    and the capacity. The packages never reslice, so a slice always starts
    at the first slot of its array. *)
Record slice := Slice { s_arr : option ptr; s_len : nat; s_cap : nat }.

Definition nil_slice : slice := Slice None 0 0.

(** [append] grows a full slice into a new array; how much room the new
    array has is the runtime's business. All the language promises is that
    the new element fits. *)
Class Growth := {
  growcap : nat → nat → nat;
  growcap_ge : ∀ old need, need ≤ growcap old need
}.

(** Go errors are values; [None] is the nil error. *)
Definition error := option string.
Definition Errorf (msg : string) : error := Some msg.

Definition LF : string := String "010"%char EmptyString.

(** [fmt.Sprintln] of two string operands: the operands separated by a
    blank, and a newline. *)
Definition Sprintln2 (a b : string) : string := a +:+ " " +:+ b +:+ LF.

(** [for _, x := range xs { text += render(x) }] over a slice's elements;
    a renderer without result stands for a panic. *)
Fixpoint render_each {A} (render : A → option string) (xs : list A) (text : string)
    : option string :=
  match xs with
  | [] => Some text
  | x :: xs' => r ← render x; render_each render xs' (text +:+ r)
  end.

(** The outcomes of a call whose result the code at hand does not fix (a
    method defined in another file, a map visited in some order): the
    results it can return, [None] standing for a panic. *)
Definition outcomes (A : Type) : Type := option A → Prop.

(** A call with the one outcome [o]. *)
Definition one {A} (o : option A) : outcomes A := λ r, r = o.

(** [a := m; k a]: a panic of [m] ends the run. *)
Definition and_then {A B} (m : outcomes A) (k : A → outcomes B) : outcomes B :=
  λ r, (m None ∧ r = None) ∨ ∃ a, m (Some a) ∧ k a r.

(** A call is deterministic when it has at most one outcome; it has the
    only outcome [o] when [o] is an outcome and there is no other. *)
Definition deterministic {A} (m : outcomes A) : Prop := ∀ r1 r2, m r1 → m r2 → r1 = r2.

Definition only {A} (m : outcomes A) (o : option A) : Prop := ∀ r, m r ↔ r = o.

(** [for _, x := range xs { text += render(x) }] over renderers that have
    outcomes. *)
Fixpoint render_each_out {A} (render : A → outcomes string) (xs : list A) (text : string)
    : outcomes string :=
  match xs with
  | [] => one (Some text)
  | x :: xs' => and_then (render x) (λ r, render_each_out render xs' (text +:+ r))
  end.

(** sort.SliceIsSorted *)
Definition SliceIsSorted {A} (less : A → A → bool) (l : list A) : Prop :=
  ∀ i x y, l !! i = Some x → l !! S i = Some y → less y x = false.

(** sort.Slice with a [less] that is a strict weak order: the elements are
    rearranged (the sort is not stable, equal elements land in any order)
    so that the slice is sorted. *)
Definition sort_Slice {A} (less : A → A → bool) (before after : list A) : Prop :=
  after ≡ₚ before ∧ SliceIsSorted less after.

(** [for k, v := range m] visits every entry of the map once, in an order
    the language leaves unspecified and the runtime randomises. *)
Definition range_order {V} (m : gmap string V) (order : list (string * V)) : Prop :=
  order ≡ₚ map_to_list m.

Section Heap.
Context {Obj : Type}.
Implicit Types (h : heap Obj) (s : slice) (p : ptr).

(** [new(T)] / [&T{...}]: the fresh cell sits at the end of the heap. *)
Definition alloc (c : cell Obj) h : ptr * heap Obj := (length h, h ++ [c]).

Definition load_obj h p : option Obj :=
  match h !! p with Some (Object o) => Some o | _ => None end.

Definition load_arr h p : option (list (option ptr)) :=
  match h !! p with Some (Array a) => Some a | _ => None end.

Definition store p (c : cell Obj) h : option (heap Obj) :=
  if decide (p < length h) then Some (<[p := c]> h) else None.

(** The array behind a slice; the nil slice has none. *)
Definition backing h s : option (list (option ptr)) :=
  match s_arr s with
  | None => Some []
  | Some a => load_arr h a
  end.

(** The elements [s[0] .. s[len(s)-1]]. *)
Definition slice_elems h s : option (list (option ptr)) :=
  a ← backing h s;
  if decide (s_len s ≤ length a) then Some (take (s_len s) a) else None.

(** [s[i]], panicking (no result) out of range. *)
Definition slice_get h s (i : nat) : option (option ptr) :=
  es ← slice_elems h s; es !! i.

(** [s[i] = v] *)
Definition slice_set s (i : nat) (v : option ptr) h : option (heap Obj) :=
  if decide (i < s_len s) then
    a ← s_arr s; arr ← load_arr h a;
    store a (Array (<[i := v]> arr)) h
  else None.

(** [make([]T, len, cap)]: a new zeroed array. *)
Definition make (len cap : nat) h : option (slice * heap Obj) :=
  if decide (len ≤ cap) then
    let '(a, h') := alloc (Array (replicate cap None)) h in
    Some (Slice (Some a) len cap, h')
  else None.

(** [copy(dst, src)] copies min(len(dst), len(src)) elements. *)
Definition copy (dst src : slice) h : option (nat * heap Obj) :=
  es ← slice_elems h src;
  let n := s_len dst `min` s_len src in
  match s_arr dst with
  | None => Some (n, h)
  | Some a =>
      arr ← load_arr h a;
      h' ← store a (Array (take n es ++ drop n arr)) h;
      Some (n, h')
  end.

(** [append(s, v)]: in place while the capacity lasts, otherwise into a
    new, larger array that receives the old elements. *)
Definition append `{Growth} s (v : option ptr) h : option (slice * heap Obj) :=
  es ← slice_elems h s;
  if decide (s_len s < s_cap s) then
    a ← s_arr s; arr ← load_arr h a;
    h' ← store a (Array (<[s_len s := v]> arr)) h;
    Some (Slice (Some a) (S (s_len s)) (s_cap s), h')
  else
    let c := growcap (s_cap s) (S (s_len s)) in
    let '(a, h') := alloc (Array (es ++ v :: replicate (c - S (s_len s)) None)) h in
    Some (Slice (Some a) (S (s_len s)) c, h').

(** [for _, v := range m { values = append(values, v) }], for the
    values in the order of the visit. *)
Fixpoint append_all `{Growth} (vs : list (option ptr)) (values : slice) h
    : option (slice * heap Obj) :=
  match vs with
  | [] => Some (values, h)
  | v :: vs' => '(values, h) ← append values v h; append_all vs' values h
  end.

(** A slice header is well formed in a heap when its array is there and
    has exactly the capacity's worth of slots. *)
Definition wf_slice h s : Prop :=
  match s_arr s with
  | None => s_len s = 0 ∧ s_cap s = 0
  | Some a => ∃ arr, load_arr h a = Some arr ∧ length arr = s_cap s ∧ s_len s ≤ s_cap s
  end.

(** What a client can do to a slice it holds: overwrite a slot, or append
    (and keep the header [append] returns). *)
Inductive slice_op := SetAt (i : nat) (v : option ptr) | Append (v : option ptr).

Definition slice_step `{Growth} (o : slice_op) s h : option (slice * heap Obj) :=
  match o with
  | SetAt i v => h' ← slice_set s i v h; Some (s, h')
  | Append v => append s v h
  end.

Fixpoint slice_steps `{Growth} (os : list slice_op) s h : option (slice * heap Obj) :=
  match os with
  | [] => Some (s, h)
  | o :: os' => '(s', h') ← slice_step o s h; slice_steps os' s' h'
  end.

(** What a client holds after a list call: a slice and the heap it lives
    in. It is a fresh copy of storage read in the heap [h] when its
    array is a new cell, its elements are [vs], the cells of [h] are as
    they were, and stay so whatever the client does to the slice. *)
Definition fresh_copy `{Growth} h (vs : list (option ptr)) (r : slice * heap Obj) : Prop :=
  s_arr r.1 = Some (length h) ∧ take (length h) r.2 = h ∧
  slice_elems r.2 r.1 = Some vs ∧
  ∀ os s' h', slice_steps os r.1 r.2 = Some (s', h') → take (length h) h' = h.
End Heap.

(** A growth policy to compute with: double, or take what is needed. *)
#[export] Instance doubling : Growth := {|
  growcap old need := need `max` (2 * old);
  growcap_ge old need := Nat.le_max_l need (2 * old)
|}.

(** os/exec: a command as exec.Command(name, arg...) builds it, the
    program and the argument list, which starts with the program's name.
    Looking the program up and running it is the work of Start. *)
Record Cmd := { Path : string; Args : list string }.

Definition Command (name : string) (arg : list string) : Cmd :=
  {| Path := name; Args := name :: arg |}.

(** The values of runtime.GOOS for which the packages know how to open a
    browser. *)
Definition platforms : list string := ["openbsd"; "linux"; "darwin"; "windows"].

End Go.

(** ** Part II: the encoders behind LiveURL *)

Module encoding.
Import Go.

(** []byte *)
Definition bytes := list ascii.

Definition byte (n : N) : ascii := ascii_of_N n.
Definition code (c : ascii) : N := N_of_ascii c.

(** *** unicode/utf8 *)

Definition RuneError : N := 0xFFFD.

Definition between (lo hi : N) (c : ascii) : bool :=
  ((lo <=? code c) && (code c <=? hi))%N.

(** utf8.DecodeRuneInString: the rune at the head of the bytes and its
    width; an ill-formed or truncated sequence yields (RuneError, 1), the
    empty input (RuneError, 0). Overlong forms, surrogates and values above
    U+10FFFF are ill-formed: the second byte is checked against the range
    the first one allows. *)
Definition DecodeRune (s : bytes) : N * nat :=
  match s with
  | [] => (RuneError, 0)
  | b0 :: t =>
      let x := code b0 in
      if (x <? 0x80)%N then (x, 1)
      else if between 0xC2 0xDF b0 then
        match t with
        | b1 :: _ =>
            if between 0x80 0xBF b1
            then (((x - 0xC0) * 64 + (code b1 - 0x80))%N, 2)
            else (RuneError, 1)
        | _ => (RuneError, 1)
        end
      else if between 0xE0 0xEF b0 then
        let lo := if (x =? 0xE0)%N then 0xA0%N else 0x80%N in
        let hi := if (x =? 0xED)%N then 0x9F%N else 0xBF%N in
        match t with
        | b1 :: b2 :: _ =>
            if between lo hi b1 && between 0x80 0xBF b2
            then (((x - 0xE0) * 4096 + (code b1 - 0x80) * 64 + (code b2 - 0x80))%N, 3)
            else (RuneError, 1)
        | _ => (RuneError, 1)
        end
      else if between 0xF0 0xF4 b0 then
        let lo := if (x =? 0xF0)%N then 0x90%N else 0x80%N in
        let hi := if (x =? 0xF4)%N then 0x8F%N else 0xBF%N in
        match t with
        | b1 :: b2 :: b3 :: _ =>
            if between lo hi b1 && between 0x80 0xBF b2 && between 0x80 0xBF b3
            then (((x - 0xF0) * 262144 + (code b1 - 0x80) * 4096
                   + (code b2 - 0x80) * 64 + (code b3 - 0x80))%N, 4)
            else (RuneError, 1)
        | _ => (RuneError, 1)
        end
      else (RuneError, 1)
  end.

Definition ill_formed (r : N * nat) : bool :=
  ((r.1 =? RuneError)%N && (r.2 =? 1)%nat).

(** utf8.ValidString *)
Fixpoint valid_loop (fuel : nat) (s : bytes) : bool :=
  match fuel, s with
  | _, [] => true
  | 0, _ => false
  | S fuel, _ =>
      let r := DecodeRune s in
      if ill_formed r then false else valid_loop fuel (drop r.2 s)
  end.

Definition ValidString (s : string) : bool :=
  let b := String.list_ascii_of_string s in valid_loop (length b) b.

(** utf8.AppendRune: surrogates and values out of range are written as
    U+FFFD. *)
Definition AppendRune (r : N) : bytes :=
  if (r <? 0x80)%N then [byte r]
  else if (r <? 0x800)%N then [byte (0xC0 + r / 64); byte (0x80 + r mod 64)]
  else if ((0xD800 <=? r) && (r <=? 0xDFFF) || (0x10FFFF <? r))%N
  then [byte 0xEF; byte 0xBF; byte 0xBD]
  else if (r <? 0x10000)%N
  then [byte (0xE0 + r / 4096); byte (0x80 + (r / 64) mod 64); byte (0x80 + r mod 64)]
  else [byte (0xF0 + r / 262144); byte (0x80 + (r / 4096) mod 64);
        byte (0x80 + (r / 64) mod 64); byte (0x80 + r mod 64)].

(** *** encoding/json *)

(** The values the packages marshal: strings, and structs (as the list of
    their tagged fields, in declaration order). *)
#[warning="-register-all"]
Inductive jvalue :=
  | JString (s : string)
  | JObject (fields : list (string * jvalue)).

Definition quote : ascii := byte 0x22.
Definition backslash : ascii := byte 0x5C.
Definition bs (s : string) : bytes := String.list_ascii_of_string s.

Definition hex (n : N) : ascii :=
  nth (N.to_nat n) (bs "0123456789abcdef") (byte 0).

(** htmlSafeSet: the ASCII bytes that go into a JSON string unescaped when
    HTML escaping is on (Marshal's setting): all from the blank up, but the
    quote, the backslash and the three characters of HTML markup. *)
Definition htmlSafe (b : ascii) : bool :=
  ((0x20 <=? code b) && (code b <? 0x80))%N
  && negb (bool_decide (b ∈ [quote; backslash; byte 0x26; byte 0x3C; byte 0x3E])).

(** The escape of one ASCII byte that is not safe. *)
Definition escape_byte (b : ascii) : bytes :=
  if bool_decide (b = backslash ∨ b = quote) then [backslash; b]
  else if bool_decide (b = byte 0x08) then bs "\b"
  else if bool_decide (b = byte 0x0C) then bs "\f"
  else if bool_decide (b = byte 0x0A) then bs "\n"
  else if bool_decide (b = byte 0x0D) then bs "\r"
  else if bool_decide (b = byte 0x09) then bs "\t"
  else bs "\u00" ++ [hex (N.shiftr (code b) 4); hex (N.land (code b) 0xF)].

(** The escape written for an ill-formed byte: that of U+FFFD. *)
Definition replacement : string := "\uff" +:+ "fd".

(** The loop of appendString (the body of a JSON string, between the
    quotes). An ill-formed byte becomes the escape of U+FFFD; U+2028 and
    U+2029 are escaped; every other rune is copied. *)
Fixpoint appendString_loop (fuel : nat) (src : bytes) : bytes :=
  match fuel, src with
  | _, [] => []
  | 0, _ => []
  | S fuel, b :: t =>
      if (code b <? 0x80)%N then
        (if htmlSafe b then [b] else escape_byte b) ++ appendString_loop fuel t
      else
        let r := DecodeRune src in
        if ill_formed r then bs replacement ++ appendString_loop fuel t
        else if ((r.1 =? 0x2028) || (r.1 =? 0x2029))%N then
          bs "\u202" ++ [hex (N.land r.1 0xF)] ++ appendString_loop fuel (drop r.2 src)
        else take r.2 src ++ appendString_loop fuel (drop r.2 src)
  end.

Definition appendString (s : string) : bytes :=
  quote :: appendString_loop (length (bs s)) (bs s) ++ [quote].

(** json.Marshal on a string or a struct of such: the compact form, fields
    in order. No such value makes it fail. *)
Fixpoint marshal (v : jvalue) : bytes :=
  match v with
  | JString s => appendString s
  | JObject fields =>
      bs "{" ++
      (fix members (first : bool) (fs : list (string * jvalue)) : bytes :=
         match fs with
         | [] => []
         | (k, x) :: fs' =>
             (if first then [] else bs ",") ++ appendString k ++ bs ":" ++ marshal x
             ++ members false fs'
         end) true fields
      ++ bs "}"
  end.

Definition Marshal (v : jvalue) : bytes * error := (marshal v, None).

(** What a string written by Marshal denotes: the string coerced to valid
    UTF-8, each byte that does not start a well-formed sequence replaced by
    U+FFFD. *)
Fixpoint coerce_loop (fuel : nat) (src : bytes) : bytes :=
  match fuel, src with
  | _, [] => []
  | 0, _ => []
  | S fuel, _ :: t =>
      let r := DecodeRune src in
      if ill_formed r then AppendRune RuneError ++ coerce_loop fuel t
      else take r.2 src ++ coerce_loop fuel (drop r.2 src)
  end.

Definition coerce (s : string) : string :=
  String.string_of_list_ascii (coerce_loop (length (bs s)) (bs s)).

(** *** Reading JSON back (the viewer's side)

    A parser of the JSON grammar restricted to strings and objects, on the
    UTF-8 bytes of the text. Blanks between tokens are skipped; an escape
    [\uXXXX] yields the UTF-8 form of the code point, a surrogate pair that
    of the character it encodes. *)

Definition is_ws (c : ascii) : bool :=
  bool_decide (c ∈ [byte 0x20; byte 0x09; byte 0x0A; byte 0x0D]).

Fixpoint skip_ws (s : bytes) : bytes :=
  match s with
  | c :: t => if is_ws c then skip_ws t else s
  | [] => []
  end.

Definition hex_digit (c : ascii) : option N :=
  if between 0x30 0x39 c then Some (code c - 0x30)%N
  else if between 0x61 0x66 c then Some (code c - 0x61 + 10)%N
  else if between 0x41 0x46 c then Some (code c - 0x41 + 10)%N
  else None.

Definition hex4 (a b c d : ascii) : option N :=
  x ← hex_digit a; y ← hex_digit b; z ← hex_digit c; w ← hex_digit d;
  Some (x * 4096 + y * 256 + z * 16 + w)%N.

Definition simple_escape (e : ascii) : option ascii :=
  if bool_decide (e ∈ [quote; backslash; byte 0x2F]) then Some e
  else if bool_decide (e = byte 0x62) then Some (byte 0x08)
  else if bool_decide (e = byte 0x66) then Some (byte 0x0C)
  else if bool_decide (e = byte 0x6E) then Some (byte 0x0A)
  else if bool_decide (e = byte 0x72) then Some (byte 0x0D)
  else if bool_decide (e = byte 0x74) then Some (byte 0x09)
  else None.

Definition prepend (p : bytes) (r : option (bytes * bytes)) : option (bytes * bytes) :=
  '(s, rest) ← r; Some (p ++ s, rest).

(** The body of a string, after the opening quote: the bytes it denotes and
    what follows the closing quote. *)
Fixpoint parse_string (s : bytes) : option (bytes * bytes) :=
  match s with
  | [] => None
  | c :: t =>
      if bool_decide (c = quote) then Some ([], t)
      else if bool_decide (c = backslash) then
        match t with
        | [] => None
        | e :: t1 =>
            if bool_decide (e = byte 0x75) then
              match t1 with
              | h1 :: h2 :: h3 :: h4 :: t2 =>
                  match hex4 h1 h2 h3 h4 with
                  | None => None
                  | Some hi =>
                      if ((0xD800 <=? hi) && (hi <=? 0xDBFF))%N then
                        match t2 with
                        | b :: u :: l1 :: l2 :: l3 :: l4 :: t3 =>
                            match hex4 l1 l2 l3 l4 with
                            | Some lo =>
                                if bool_decide (b = backslash) && bool_decide (u = byte 0x75)
                                   && ((0xDC00 <=? lo) && (lo <=? 0xDFFF))%N
                                then prepend
                                  (AppendRune (0x10000 + (hi - 0xD800) * 1024 + (lo - 0xDC00))%N)
                                  (parse_string t3)
                                else prepend (AppendRune hi) (parse_string t2)
                            | None => prepend (AppendRune hi) (parse_string t2)
                            end
                        | _ => prepend (AppendRune hi) (parse_string t2)
                        end
                      else prepend (AppendRune hi) (parse_string t2)
                  end
              | _ => None
              end
            else
              match simple_escape e with
              | Some x => prepend [x] (parse_string t1)
              | None => None
              end
        end
      else if (code c <? 0x20)%N then None
      else prepend [c] (parse_string t)
  end.

Fixpoint parse_value (fuel : nat) (s : bytes) : option (jvalue * bytes) :=
  match fuel with
  | 0 => None
  | S fuel =>
      match skip_ws s with
      | c :: t =>
          if bool_decide (c = quote) then
            '(x, rest) ← parse_string t;
            Some (JString (String.string_of_list_ascii x), rest)
          else if bool_decide (c = byte 0x7B) then
            match skip_ws t with
            | c' :: t' =>
                if bool_decide (c' = byte 0x7D) then Some (JObject [], t')
                else '(fs, rest) ← parse_members fuel (c' :: t'); Some (JObject fs, rest)
            | [] => None
            end
          else None
      | [] => None
      end
  end
with parse_members (fuel : nat) (s : bytes) : option (list (string * jvalue) * bytes) :=
  match fuel with
  | 0 => None
  | S fuel =>
      match skip_ws s with
      | q :: t =>
          if bool_decide (q = quote) then
            '(k, rest) ← parse_string t;
            match skip_ws rest with
            | colon :: rest =>
                if bool_decide (colon = byte 0x3A) then
                  '(v, rest) ← parse_value fuel rest;
                  match skip_ws rest with
                  | d :: rest =>
                      if bool_decide (d = byte 0x2C) then
                        '(fs, rest) ← parse_members fuel rest;
                        Some ((String.string_of_list_ascii k, v) :: fs, rest)
                      else if bool_decide (d = byte 0x7D) then
                        Some ([(String.string_of_list_ascii k, v)], rest)
                      else None
                  | [] => None
                  end
                else None
            | [] => None
            end
          else None
      | [] => None
      end
  end.

(** JSON.parse: one value, and nothing but blanks after it. *)
Definition Unmarshal (s : bytes) : option jvalue :=
  '(v, rest) ← parse_value (length s) s;
  match skip_ws rest with [] => Some v | _ => None end.

(** *** encoding/base64, URLEncoding (padded) *)

Definition encodeURL : string :=
  "ABCDEFGHIJKLMNOPQRSTUVWXYZabcdefghijklmnopqrstuvwxyz0123456789-_".

Definition pad : ascii := byte 0x3D.

(** enc.encode[i] *)
Definition encode (i : N) : ascii := nth (N.to_nat i) (bs encodeURL) pad.

(** enc.decodeMap[c] *)
Definition decodeMap (c : ascii) : option N :=
  N.of_nat <$> list_find (λ x, x = c) (bs encodeURL) ≫= λ r, Some r.1.

Definition sextet (val : N) (shift : N) : ascii :=
  encode (N.land (N.shiftr val shift) 0x3F).

(** Encoding.Encode: three bytes to four characters; one or two
    bytes left over are padded. *)
Fixpoint Encode (src : bytes) : bytes :=
  match src with
  | b0 :: b1 :: b2 :: t =>
      let val := N.lor (N.lor (N.shiftl (code b0) 16) (N.shiftl (code b1) 8)) (code b2) in
      sextet val 18 :: sextet val 12 :: sextet val 6 :: sextet val 0 :: Encode t
  | [b0; b1] =>
      let val := N.lor (N.shiftl (code b0) 16) (N.shiftl (code b1) 8) in
      [sextet val 18; sextet val 12; sextet val 6; pad]
  | [b0] =>
      let val := N.shiftl (code b0) 16 in
      [sextet val 18; sextet val 12; pad; pad]
  | [] => []
  end.

Definition EncodeToString (src : bytes) : string :=
  String.string_of_list_ascii (Encode src).

Definition octet (val : N) (shift : N) : ascii :=
  byte (N.land (N.shiftr val shift) 0xFF).

(** Encoding.Decode: four characters to three bytes; padding only in the
    last group. *)
Fixpoint Decode (s : bytes) : option bytes :=
  match s with
  | [] => Some []
  | c0 :: c1 :: c2 :: c3 :: t =>
      i0 ← decodeMap c0; i1 ← decodeMap c1;
      if bool_decide (c3 = pad) then
        match t with
        | [] =>
            if bool_decide (c2 = pad) then
              let val := N.lor (N.shiftl i0 18) (N.shiftl i1 12) in
              Some [octet val 16]
            else
              i2 ← decodeMap c2;
              let val := N.lor (N.lor (N.shiftl i0 18) (N.shiftl i1 12)) (N.shiftl i2 6) in
              Some [octet val 16; octet val 8]
        | _ => None
        end
      else
        i2 ← decodeMap c2; i3 ← decodeMap c3;
        let val := N.lor (N.lor (N.lor (N.shiftl i0 18) (N.shiftl i1 12)) (N.shiftl i2 6)) i3 in
        r ← Decode t;
        Some (octet val 16 :: octet val 8 :: octet val 0 :: r)
  | _ => None
  end.

Definition DecodeString (s : string) : option bytes := Decode (bs s).

(** The characters of a base64url text: letters, digits, [-], [_], and the
    padding [=]. *)
Definition url_safe (c : ascii) : bool :=
  between 0x41 0x5A c || between 0x61 0x7A c || between 0x30 0x39 c
  || bool_decide (c ∈ [byte 0x2D; byte 0x5F; pad]).

(** *** compress/zlib

    The writer's output is not modelled byte by byte. What the packages and
    the viewer rely on is the format's contract: for a level the writer
    accepts, what was written to it and closed inflates back to the input. *)

Definition HuffmanOnly : Z := -2.
Definition BestCompression : Z := 9.

Class Zlib := {
  deflate : Z → bytes → bytes;
  inflate : bytes → option bytes;
  inflate_deflate : ∀ level data,
    (HuffmanOnly ≤ level ≤ BestCompression)%Z → inflate (deflate level data) = Some data
}.

(** The record both packages marshal, read as a JSON value: two keys, the
    second an object with the one key theme. *)
Definition payload (text : string) : jvalue :=
  JObject [("code", JString text); ("mermaid", JObject [("theme", JString "default")])].

(** The two fallible steps of LiveURL, with Go's signatures: each returns
    what it produced and an error. *)
Record Encoders := {
  json_Marshal : jvalue → bytes * error;
  (* zlib.NewWriterLevel on a fresh buffer, Write, Close: the buffer's
     bytes and the first error met *)
  zlib_Write : Z → bytes → bytes * error
}.

(** The encoders of the standard library. Marshal does not fail on a struct
    of strings. NewWriterLevel refuses a level outside the range from
    HuffmanOnly to BestCompression: it returns an error and no writer, and
    nothing reaches the buffer. For a level it accepts (the packages pass
    BestCompression), Write and Close on a buffer in memory do not fail. *)
Definition std `{Zlib} : Encoders :=
  {| json_Marshal := Marshal;
     zlib_Write level data :=
       if decide (HuffmanOnly ≤ level ≤ BestCompression)%Z
       then (deflate level data, None)
       else ([], Errorf ("zlib: invalid compression level: " +:+ pretty level)) |}.

(** What the viewer does with the fragment after the fixed prefix. *)
Definition strip_prefix (p s : string) : option string :=
  let p' := bs p in let s' := bs s in
  if bool_decide (take (length p') s' = p')
  then Some (String.string_of_list_ascii (drop (length p') s')) else None.

Definition read_link `{Zlib} (prefix url : string) : option jvalue :=
  payload ← strip_prefix prefix url;
  compressed ← DecodeString payload;
  json ← inflate compressed;
  Unmarshal json.

End encoding.

(** ** Part III: package flowchart (Flowchart.go) *)

Module flowchart.
Import Go.

(** What Flowchart.go uses and other files of the package declare: the
    shape enumerations with the two defaults, and the fields of the structs
    that Flowchart.go does not mention ([rest], zero in a composite literal
    that omits them). *)
Class Declarations := {
  nodeShape : Type;
  NShapeRect : nodeShape;
  edgeShape : Type;
  EShapeArrow : edgeShape;
  rest : Type;
  zero : rest
}.

Section Model.
Context `{Declarations}.

(** type chartDirection string *)
Definition chartDirection := string.
Definition DirectionTopDown : chartDirection := "TB".
Definition DirectionBottomUp : chartDirection := "BT".
Definition DirectionRightLeft : chartDirection := "RL".
Definition DirectionLeftRight : chartDirection := "LR".

(** The structs, with the fields the composite literals of Flowchart.go
    set, and [rest] for the others. *)
Record Node := { node_id : string; node_Shape : nodeShape; node_rest : rest }.
Record NodeStyle := { nodeStyle_id : string; nodeStyle_StrokeWidth : Z; nodeStyle_rest : rest }.
Record EdgeStyle := { edgeStyle_id : string; edgeStyle_StrokeWidth : Z; edgeStyle_rest : rest }.
Record Subgraph := { subgraph_id : string; subgraph_flowchart : option ptr; subgraph_rest : rest }.
Record Edge := {
  edge_From : option ptr;
  edge_To : option ptr;
  edge_Shape : edgeShape;
  edge_id : Z;
  edge_rest : rest
}.

Record Flowchart := {
  nodeStyles : gmap string ptr;
  edgeStyles : gmap string ptr;
  subgraphs : gmap string ptr;
  nodes : gmap string ptr;
  edges : slice;
  items : slice;
  Direction : chartDirection;
  DefaultEdgeStyle : option ptr
}.

Inductive object :=
  | ONode (n : Node)
  | ONodeStyle (s : NodeStyle)
  | OEdgeStyle (s : EdgeStyle)
  | OSubgraph (s : Subgraph)
  | OEdge (e : Edge)
  | OFlowchart (f : Flowchart).

Definition set_nodeStyles (m : gmap string ptr) (f : Flowchart) : Flowchart :=
  {| nodeStyles := m; edgeStyles := edgeStyles f; subgraphs := subgraphs f;
     nodes := nodes f; edges := edges f; items := items f;
     Direction := Direction f; DefaultEdgeStyle := DefaultEdgeStyle f |}.
Definition set_edgeStyles (m : gmap string ptr) (f : Flowchart) : Flowchart :=
  {| nodeStyles := nodeStyles f; edgeStyles := m; subgraphs := subgraphs f;
     nodes := nodes f; edges := edges f; items := items f;
     Direction := Direction f; DefaultEdgeStyle := DefaultEdgeStyle f |}.
Definition set_subgraphs (m : gmap string ptr) (f : Flowchart) : Flowchart :=
  {| nodeStyles := nodeStyles f; edgeStyles := edgeStyles f; subgraphs := m;
     nodes := nodes f; edges := edges f; items := items f;
     Direction := Direction f; DefaultEdgeStyle := DefaultEdgeStyle f |}.
Definition set_nodes (m : gmap string ptr) (f : Flowchart) : Flowchart :=
  {| nodeStyles := nodeStyles f; edgeStyles := edgeStyles f; subgraphs := subgraphs f;
     nodes := m; edges := edges f; items := items f;
     Direction := Direction f; DefaultEdgeStyle := DefaultEdgeStyle f |}.
Definition set_edges (s : slice) (f : Flowchart) : Flowchart :=
  {| nodeStyles := nodeStyles f; edgeStyles := edgeStyles f; subgraphs := subgraphs f;
     nodes := nodes f; edges := s; items := items f;
     Direction := Direction f; DefaultEdgeStyle := DefaultEdgeStyle f |}.
Definition set_items (s : slice) (f : Flowchart) : Flowchart :=
  {| nodeStyles := nodeStyles f; edgeStyles := edgeStyles f; subgraphs := subgraphs f;
     nodes := nodes f; edges := edges f; items := s;
     Direction := Direction f; DefaultEdgeStyle := DefaultEdgeStyle f |}.
Definition set_edge_id (i : Z) (e : Edge) : Edge :=
  {| edge_From := edge_From e; edge_To := edge_To e; edge_Shape := edge_Shape e;
     edge_id := i; edge_rest := edge_rest e |}.

Abbreviation heap := (Go.heap object).

(** [*fc] and [*fc = f] *)
Definition deref (h : heap) (fc : ptr) : option Flowchart :=
  match load_obj h fc with Some (OFlowchart f) => Some f | _ => None end.
Definition assign (fc : ptr) (f : Flowchart) (h : heap) : option heap :=
  store fc (Object (OFlowchart f)) h.

Definition load_Edge (h : heap) (p : ptr) : option Edge :=
  match load_obj h p with Some (OEdge e) => Some e | _ => None end.
Definition load_NodeStyle (h : heap) (p : ptr) : option NodeStyle :=
  match load_obj h p with Some (ONodeStyle s) => Some s | _ => None end.
Definition load_EdgeStyle (h : heap) (p : ptr) : option EdgeStyle :=
  match load_obj h p with Some (OEdgeStyle s) => Some s | _ => None end.

(** The methods Flowchart.go calls and other files of the package define:
    the renderers of the entities and styles (they read the entity and
    whatever it points to; no result stands for a panic), and
    [fmt.Sprintf] applied to a format that is only known at run time. *)
Class Methods := {
  Node_renderGraph : heap → Node → option string;
  Subgraph_renderGraph : heap → Subgraph → option string;
  Edge_String : heap → Edge → option string;
  NodeStyle_String : heap → NodeStyle → option string;
  EdgeStyle_String : heap → EdgeStyle → option string;
  Sprintf1 : string → string → string
}.

(** func NewFlowchart() (newFlowchart *Flowchart) *)
Definition NewFlowchart (h : heap) : ptr * heap :=
  alloc (Object (OFlowchart
    {| nodeStyles := ∅; edgeStyles := ∅; subgraphs := ∅; nodes := ∅;
       edges := nil_slice; items := nil_slice;
       Direction := DirectionTopDown; DefaultEdgeStyle := None |})) h.

Section Rendering.
Context `{Methods}.

(** [item.renderGraph()] on a graphItem: the dynamic type selects the
    method. *)
Definition renderGraph (h : heap) (item : option ptr) : option string :=
  p ← item;
  match load_obj h p with
  | Some (ONode n) => Node_renderGraph h n
  | Some (OSubgraph s) => Subgraph_renderGraph h s
  | _ => None
  end.

(** [s.String()] for a registered node style, and the block of lines the
    loop over the styles adds. *)
Definition style_line (h : heap) (p : ptr) : option string :=
  s ← load_NodeStyle h p; NodeStyle_String h s.

Definition style_block (h : heap) (styles : list ptr) : option string :=
  render_each (style_line h) styles "".

(** func (fc *Flowchart) String() (renderedElement string), with the order
    in which [range fc.nodeStyles] visits the styles made explicit. *)
Definition String_in (styles : list ptr) (fc : ptr) (h : heap) : option string :=
  f ← deref h fc;
  let text := "graph " +:+ Direction f +:+ LF in
  text ← match DefaultEdgeStyle f with
         | None => Some text
         | Some p =>
             s ← load_EdgeStyle h p; format ← EdgeStyle_String h s;
             Some (text +:+ Sprintf1 format "default")
         end;
  text ← render_each (style_line h) styles text;
  let text := text +:+ LF in
  its ← slice_elems h (items f);
  text ← render_each (renderGraph h) its text;
  let text := text +:+ LF in
  es ← slice_elems h (edges f);
  render_each (λ e, p ← e; x ← load_Edge h p; Edge_String h x) es text.

(** The outcomes of [fc.String()]: one per order in which the map of node
    styles can be visited. *)
Inductive String (fc : ptr) (h : heap) : option string → Prop :=
  | String_range f order :
      deref h fc = Some f →
      range_order (nodeStyles f) order →
      String fc h (String_in (order.*2) fc h).

(** Structs for JSON encode, and their field tags *)
Record mermaidJSON := { Theme : string }.
Record dataJSON := { Code : string; Mermaid : mermaidJSON }.

Definition mermaidJSON_tagged (m : mermaidJSON) : encoding.jvalue :=
  encoding.JObject [("theme", encoding.JString (Theme m))].
Definition dataJSON_tagged (d : dataJSON) : encoding.jvalue :=
  encoding.JObject [("code", encoding.JString (Code d));
                    ("mermaid", mermaidJSON_tagged (Mermaid d))].

Definition liveURL : string := "https://mermaid.live/view/#pako:".

(** The body of LiveURL after [fc.String()] has returned [text], over the
    two encoders; the error each of them returns is dropped ([_]). *)
Definition LiveURL_with (enc : encoding.Encoders) (text : string) : string :=
  let '(data, _) := encoding.json_Marshal enc
    (dataJSON_tagged {| Code := text; Mermaid := {| Theme := "default" |} |}) in
  let '(b, _) := encoding.zlib_Write enc encoding.BestCompression data in
  liveURL +:+ encoding.EncodeToString b.

(** func (fc *Flowchart) LiveURL() (url string) *)
Inductive LiveURL `{encoding.Zlib} (fc : ptr) (h : heap) : option string → Prop :=
  | LiveURL_String r :
      String fc h r → LiveURL fc h (LiveURL_with encoding.std <$> r).

(** The switch on runtime.GOOS in ViewInBrowser: the command each case
    builds from the URL; no case for any other platform. *)
Definition opener (GOOS : string) : option (string → Cmd) :=
  if bool_decide (GOOS ∈ ["openbsd"; "linux"]) then
    Some (λ url, Command "xdg-open" [url])
  else if bool_decide (GOOS = "darwin") then
    Some (λ url, Command "open" [url])
  else if bool_decide (GOOS = "windows") then
    Some (λ url, Command "rundll32" ["url.dll,FileProtocolHandler"; url])
  else None.

(** func (fc *Flowchart) ViewInBrowser() (err error), on the platform
    [GOOS], where starting a command [c] returns [Start c]: the commands
    started and the error returned, for each outcome of LiveURL. *)
Inductive ViewInBrowser `{encoding.Zlib} (GOOS : string) (Start : Cmd → error)
    (fc : ptr) (h : heap) : option (list Cmd * error) → Prop :=
  | ViewInBrowser_Start command r :
      opener GOOS = Some command → LiveURL fc h r →
      ViewInBrowser GOOS Start fc h
        ((λ url, ([command url], Start (command url))) <$> r)
  | ViewInBrowser_unsupported :
      opener GOOS = None →
      ViewInBrowser GOOS Start fc h (Some ([], Errorf "unsupported platform")).

End Rendering.

(** String once more, for renderers of the entities and styles that are
    not taken to be functions: each has a set of outcomes, and so has the
    visit of the map of node styles. *)
Section Outcomes.
Variable Node_renderGraph_out : heap → Node → outcomes string.
Variable Subgraph_renderGraph_out : heap → Subgraph → outcomes string.
Variable Edge_String_out : heap → Edge → outcomes string.
Variable NodeStyle_String_out : heap → NodeStyle → outcomes string.
Variable EdgeStyle_String_out : heap → EdgeStyle → outcomes string.
(* fmt.Sprintf on a format and one string operand *)
Variable Sprintf : string → string → string.

Definition renderGraph_out (h : heap) (item : option ptr) : outcomes string :=
  and_then (one item) (λ p,
  match load_obj h p with
  | Some (ONode n) => Node_renderGraph_out h n
  | Some (OSubgraph s) => Subgraph_renderGraph_out h s
  | _ => one None
  end).

(** [range fc.nodeStyles]: the styles in any order of the map's entries. *)
Definition range_nodeStyles (f : Flowchart) : outcomes (list ptr) :=
  λ o, ∃ order, range_order (nodeStyles f) order ∧ o = Some (order.*2).

(** func (fc *Flowchart) String() (renderedElement string) *)
Definition String_out (fc : ptr) (h : heap) : outcomes string :=
  and_then (one (deref h fc)) (λ f,
  let text := "graph " +:+ Direction f +:+ LF in
  and_then (match DefaultEdgeStyle f with
            | None => one (Some text)
            | Some p =>
                and_then (one (load_EdgeStyle h p)) (λ s,
                and_then (EdgeStyle_String_out h s) (λ format,
                one (Some (text +:+ Sprintf format "default"))))
            end) (λ text,
  and_then (range_nodeStyles f) (λ styles,
  and_then (render_each_out
              (λ p, and_then (one (load_NodeStyle h p)) (NodeStyle_String_out h))
              styles text) (λ text,
  let text := text +:+ LF in
  and_then (one (slice_elems h (items f))) (λ its,
  and_then (render_each_out (renderGraph_out h) its text) (λ text,
  let text := text +:+ LF in
  and_then (one (slice_elems h (edges f))) (λ es,
  render_each_out (λ e, and_then (one (e ≫= load_Edge h)) (Edge_String_out h)) es text))))))).

End Outcomes.

Context `{Growth}.

(** func (fc *Flowchart) NodeStyle(id string) (style *NodeStyle) *)
Definition Flowchart_NodeStyle (fc : ptr) (id : string) (h : heap) : option (ptr * heap) :=
  f ← deref h fc;
  match nodeStyles f !! id with
  | Some s => Some (s, h)
  | None =>
      let '(s, h) := alloc (Object (ONodeStyle
        {| nodeStyle_id := id; nodeStyle_StrokeWidth := 1; nodeStyle_rest := zero |})) h in
      h ← assign fc (set_nodeStyles (<[id := s]> (nodeStyles f)) f) h;
      Some (s, h)
  end.

(** func (fc *Flowchart) EdgeStyle(id string) (style *EdgeStyle) *)
Definition Flowchart_EdgeStyle (fc : ptr) (id : string) (h : heap) : option (ptr * heap) :=
  f ← deref h fc;
  match edgeStyles f !! id with
  | Some s => Some (s, h)
  | None =>
      let '(s, h) := alloc (Object (OEdgeStyle
        {| edgeStyle_id := id; edgeStyle_StrokeWidth := 1; edgeStyle_rest := zero |})) h in
      h ← assign fc (set_edgeStyles (<[id := s]> (edgeStyles f)) f) h;
      Some (s, h)
  end.

(** func (fc *Flowchart) AddSubgraph(id string) (newSubgraph *Subgraph) *)
Definition AddSubgraph (fc : ptr) (id : string) (h : heap) : option (option ptr * heap) :=
  f ← deref h fc;
  match subgraphs f !! id with
  | Some _ => Some (None, h)
  | None =>
      let '(s, h) := alloc (Object (OSubgraph
        {| subgraph_id := id; subgraph_flowchart := Some fc; subgraph_rest := zero |})) h in
      let f := set_subgraphs (<[id := s]> (subgraphs f)) f in
      h ← assign fc f h;
      '(its, h) ← append (items f) (Some s) h;
      h ← assign fc (set_items its f) h;
      Some (Some s, h)
  end.

(** func (fc *Flowchart) AddNode(id string) (newNode *Node) *)
Definition AddNode (fc : ptr) (id : string) (h : heap) : option (option ptr * heap) :=
  f ← deref h fc;
  match nodes f !! id with
  | Some _ => Some (None, h)
  | None =>
      let '(n, h) := alloc (Object (ONode
        {| node_id := id; node_Shape := NShapeRect; node_rest := zero |})) h in
      let f := set_nodes (<[id := n]> (nodes f)) f in
      h ← assign fc f h;
      '(its, h) ← append (items f) (Some n) h;
      h ← assign fc (set_items its f) h;
      Some (Some n, h)
  end.

(** func (fc *Flowchart) AddEdge(from *Node, to *Node) (newEdge *Edge) *)
Definition AddEdge (fc : ptr) (from to : option ptr) (h : heap) : option (ptr * heap) :=
  f ← deref h fc;
  let '(e, h) := alloc (Object (OEdge
    {| edge_From := from; edge_To := to; edge_Shape := EShapeArrow;
       edge_id := 0; edge_rest := zero |})) h in
  '(es, h) ← append (edges f) (Some e) h;
  let f := set_edges es f in
  h ← assign fc f h;
  x ← load_Edge h e;
  h ← store e (Object (OEdge (set_edge_id (Z.of_nat (s_len (edges f)) - 1) x))) h;
  Some (e, h).

(** func (fc *Flowchart) GetSubgraph(id string) (existingSubgraph *Subgraph) *)
Definition GetSubgraph (fc : ptr) (id : string) (h : heap) : option (option ptr) :=
  f ← deref h fc; Some (subgraphs f !! id).

(** func (fc *Flowchart) GetNode(id string) (existingNode *Node) *)
Definition GetNode (fc : ptr) (id : string) (h : heap) : option (option ptr) :=
  f ← deref h fc; Some (nodes f !! id).

(** func (fc *Flowchart) GetEdge(index int) (existingEdge *Edge) *)
Definition GetEdge (fc : ptr) (index : Z) (h : heap) : option (option ptr) :=
  f ← deref h fc;
  if decide (index < 0 ∨ Z.of_nat (s_len (edges f)) ≤ index)%Z then Some None
  else slice_get h (edges f) (Z.to_nat index).

(** func (fc *Flowchart) ListSubgraphs() (allSubgraphs []*Subgraph), in a
    given order of visit of [fc.subgraphs]. *)
Definition ListSubgraphs_in (order : list ptr) (fc : ptr) (h : heap) : option (slice * heap) :=
  f ← deref h fc;
  '(values, h) ← make 0 (size (subgraphs f)) h;
  append_all (Some <$> order) values h.

Inductive ListSubgraphs (fc : ptr) (h : heap) : option (slice * heap) → Prop :=
  | ListSubgraphs_range f order :
      deref h fc = Some f →
      range_order (subgraphs f) order →
      ListSubgraphs fc h (ListSubgraphs_in (order.*2) fc h).

(** func (fc *Flowchart) ListNodes() (allNodes []*Node), in a given order
    of visit of [fc.nodes]. *)
Definition ListNodes_in (order : list ptr) (fc : ptr) (h : heap) : option (slice * heap) :=
  f ← deref h fc;
  '(values, h) ← make 0 (size (nodes f)) h;
  append_all (Some <$> order) values h.

Inductive ListNodes (fc : ptr) (h : heap) : option (slice * heap) → Prop :=
  | ListNodes_range f order :
      deref h fc = Some f →
      range_order (nodes f) order →
      ListNodes fc h (ListNodes_in (order.*2) fc h).

(** func (fc *Flowchart) ListEdges() (allEdges []*Edge) *)
Definition ListEdges (fc : ptr) (h : heap) : option (slice * heap) :=
  f ← deref h fc;
  '(e, h) ← make (s_len (edges f)) (s_len (edges f)) h;
  '(_, h) ← copy e (edges f) h;
  Some (e, h).

(** A client's calls on a Flowchart, and what each returned. *)
Inductive call :=
  | CallNodeStyle (id : string)
  | CallEdgeStyle (id : string)
  | CallAddSubgraph (id : string)
  | CallAddNode (id : string)
  | CallAddEdge (from to : option ptr)
  | CallListEdges.

Inductive result :=
  | RStyle (p : ptr)
  | RItem (p : option ptr)
  | REdge (p : ptr)
  | RSlice (s : slice).

Definition do_call (fc : ptr) (c : call) (h : heap) : option (result * heap) :=
  match c with
  | CallNodeStyle id => '(p, h) ← Flowchart_NodeStyle fc id h; Some (RStyle p, h)
  | CallEdgeStyle id => '(p, h) ← Flowchart_EdgeStyle fc id h; Some (RStyle p, h)
  | CallAddSubgraph id => '(p, h) ← AddSubgraph fc id h; Some (RItem p, h)
  | CallAddNode id => '(p, h) ← AddNode fc id h; Some (RItem p, h)
  | CallAddEdge from to => '(p, h) ← AddEdge fc from to h; Some (REdge p, h)
  | CallListEdges => '(s, h) ← ListEdges fc h; Some (RSlice s, h)
  end.

Fixpoint run (fc : ptr) (cs : list call) (h : heap) : option (list result * heap) :=
  match cs with
  | [] => Some ([], h)
  | c :: cs' =>
      '(r, h) ← do_call fc c h;
      '(rs, h) ← run fc cs' h;
      Some (r :: rs, h)
  end.

(** The edges a run of calls created, in the order of the AddEdge calls. *)
Definition new_edges (rs : list result) : list ptr :=
  omap (λ r, match r with REdge e => Some e | _ => None end) rs.

(** Well-formedness of a diagram in a heap: the two slices have their
    arrays, which are distinct; [fc.edges] holds the edges [es], and the
    edge at position n carries the index n. *)
Definition edges_ok (h : heap) (es : list ptr) : Prop :=
  ∀ n e, es !! n = Some e → ∃ x, load_Edge h e = Some x ∧ edge_id x = Z.of_nat n.

Definition fields_ok (h : heap) (f : Flowchart) (es : list ptr) : Prop :=
  wf_slice h (edges f) ∧ wf_slice h (items f) ∧
  (∀ a, s_arr (edges f) = Some a → s_arr (items f) ≠ Some a) ∧
  slice_elems h (edges f) = Some (Some <$> es).

Definition inv (fc : ptr) (h : heap) (es : list ptr) : Prop :=
  ∃ f, deref h fc = Some f ∧ fields_ok h f es ∧ edges_ok h es.

Definition has_node (fc : ptr) (h : heap) (id : string) : Prop :=
  ∃ f, deref h fc = Some f ∧ is_Some (nodes f !! id).
Definition has_subgraph (fc : ptr) (h : heap) (id : string) : Prop :=
  ∃ f, deref h fc = Some f ∧ is_Some (subgraphs f !! id).

(** What one call does to a well-formed diagram: it stays well formed, the
    heap only grows, identifiers in use stay in use, and the identifier of
    an add call is in use afterwards. *)
Definition step_ok (fc : ptr) (c : call) (h : heap) (r : result) (h' : heap)
    (es : list ptr) : Prop :=
  inv fc h' (es ++ new_edges [r]) ∧ length h ≤ length h' ∧
  (∀ id, has_node fc h id → has_node fc h' id) ∧
  (∀ id, has_subgraph fc h id → has_subgraph fc h' id) ∧
  (∀ id, c = CallAddNode id → has_node fc h' id) ∧
  (∀ id, c = CallAddSubgraph id → has_subgraph fc h' id).

(** *** The contents of a diagram *)

Definition load_Node (h : heap) (p : ptr) : option Node :=
  match load_obj h p with Some (ONode n) => Some n | _ => None end.
Definition load_Subgraph (h : heap) (p : ptr) : option Subgraph :=
  match load_obj h p with Some (OSubgraph s) => Some s | _ => None end.

(** The entities a run of calls created and returned, nil results left
    out, in the order of the calls. *)
Definition new_items (rs : list result) : list ptr :=
  omap (λ r, match r with RItem p => p | _ => None end) rs.

(** The contents of a diagram, without the slice headers: the four maps,
    the rendering order and the edges. *)
Record view := View {
  v_nodeStyles : gmap string ptr;
  v_edgeStyles : gmap string ptr;
  v_subgraphs : gmap string ptr;
  v_nodes : gmap string ptr;
  v_items : list ptr;
  v_edges : list ptr
}.

(** Every entry of a map points to an entity of the map's kind that
    carries the entry's key as its identifier. *)
Definition entities_ok (fc : ptr) (h : heap) (v : view) : Prop :=
  (∀ id p, v_nodes v !! id = Some p →
     ∃ n, load_Node h p = Some n ∧ node_id n = id) ∧
  (∀ id p, v_subgraphs v !! id = Some p →
     ∃ s, load_Subgraph h p = Some s ∧ subgraph_id s = id ∧ subgraph_flowchart s = Some fc) ∧
  (∀ id p, v_nodeStyles v !! id = Some p →
     ∃ s, load_NodeStyle h p = Some s ∧ nodeStyle_id s = id) ∧
  (∀ id p, v_edgeStyles v !! id = Some p →
     ∃ s, load_EdgeStyle h p = Some s ∧ edgeStyle_id s = id).

(** The diagram at [fc] in the heap [h] has the contents [v], and is well
    formed: the slices have their arrays, each edge carries its position,
    the maps point to entities of their kinds, and the rendering order
    holds the nodes and subgraphs of the maps, each once. *)
Definition models (fc : ptr) (h : heap) (v : view) : Prop :=
  ∃ f, deref h fc = Some f ∧
    nodeStyles f = v_nodeStyles v ∧ edgeStyles f = v_edgeStyles v ∧
    subgraphs f = v_subgraphs v ∧ nodes f = v_nodes v ∧
    fields_ok h f (v_edges v) ∧ edges_ok h (v_edges v) ∧
    slice_elems h (items f) = Some (Some <$> v_items v) ∧
    entities_ok fc h v ∧
    (map_to_list (v_nodes v)).*2 ++ (map_to_list (v_subgraphs v)).*2 ≡ₚ v_items v.

(** What a call returns, read off the contents; [p] is the next free
    cell of the heap. *)
Definition answer (v : view) (c : call) (p : ptr) : result :=
  match c with
  | CallNodeStyle id => RStyle (default p (v_nodeStyles v !! id))
  | CallEdgeStyle id => RStyle (default p (v_edgeStyles v !! id))
  | CallAddSubgraph id =>
      RItem (match v_subgraphs v !! id with Some _ => None | None => Some p end)
  | CallAddNode id =>
      RItem (match v_nodes v !! id with Some _ => None | None => Some p end)
  | CallAddEdge _ _ => REdge p
  | CallListEdges => RSlice (Slice (Some p) (length (v_edges v)) (length (v_edges v)))
  end.

(** The contents after a call. *)
Definition update (v : view) (c : call) (p : ptr) : view :=
  match c with
  | CallNodeStyle id =>
      match v_nodeStyles v !! id with
      | Some _ => v
      | None => View (<[id := p]> (v_nodeStyles v)) (v_edgeStyles v) (v_subgraphs v)
                     (v_nodes v) (v_items v) (v_edges v)
      end
  | CallEdgeStyle id =>
      match v_edgeStyles v !! id with
      | Some _ => v
      | None => View (v_nodeStyles v) (<[id := p]> (v_edgeStyles v)) (v_subgraphs v)
                     (v_nodes v) (v_items v) (v_edges v)
      end
  | CallAddSubgraph id =>
      match v_subgraphs v !! id with
      | Some _ => v
      | None => View (v_nodeStyles v) (v_edgeStyles v) (<[id := p]> (v_subgraphs v))
                     (v_nodes v) (v_items v ++ [p]) (v_edges v)
      end
  | CallAddNode id =>
      match v_nodes v !! id with
      | Some _ => v
      | None => View (v_nodeStyles v) (v_edgeStyles v) (v_subgraphs v)
                     (<[id := p]> (v_nodes v)) (v_items v ++ [p]) (v_edges v)
      end
  | CallAddEdge _ _ =>
      View (v_nodeStyles v) (v_edgeStyles v) (v_subgraphs v) (v_nodes v) (v_items v)
           (v_edges v ++ [p])
  | CallListEdges => v
  end.

(** The struct a call allocates, if any. *)
Definition created (fc : ptr) (v : view) (c : call) : option object :=
  match c with
  | CallNodeStyle id =>
      match v_nodeStyles v !! id with
      | Some _ => None
      | None => Some (ONodeStyle {| nodeStyle_id := id; nodeStyle_StrokeWidth := 1;
                                    nodeStyle_rest := zero |})
      end
  | CallEdgeStyle id =>
      match v_edgeStyles v !! id with
      | Some _ => None
      | None => Some (OEdgeStyle {| edgeStyle_id := id; edgeStyle_StrokeWidth := 1;
                                    edgeStyle_rest := zero |})
      end
  | CallAddSubgraph id =>
      match v_subgraphs v !! id with
      | Some _ => None
      | None => Some (OSubgraph {| subgraph_id := id; subgraph_flowchart := Some fc;
                                   subgraph_rest := zero |})
      end
  | CallAddNode id =>
      match v_nodes v !! id with
      | Some _ => None
      | None => Some (ONode {| node_id := id; node_Shape := NShapeRect; node_rest := zero |})
      end
  | CallAddEdge from to =>
      Some (OEdge {| edge_From := from; edge_To := to; edge_Shape := EShapeArrow;
                     edge_id := Z.of_nat (length (v_edges v)); edge_rest := zero |})
  | CallListEdges => None
  end.

(** What the calls leave alone: every struct other than the diagram's
    own, and the diagram's direction and default edge style. *)
Definition keeps (fc : ptr) (h h' : heap) : Prop :=
  length h ≤ length h' ∧
  (∀ p o, p ≠ fc → h !! p = Some (Object o) → h' !! p = Some (Object o)) ∧
  (∀ f, deref h fc = Some f →
     ∃ f', deref h' fc = Some f' ∧ Direction f' = Direction f ∧
           DefaultEdgeStyle f' = DefaultEdgeStyle f).

(** The cells a call may write to: the diagram's struct and the arrays
    of its two slices. *)
Definition own (fc : ptr) (f : Flowchart) (p : ptr) : Prop :=
  p = fc ∨ s_arr (items f) = Some p ∨ s_arr (edges f) = Some p.

(** A call writes to the diagram's own cells and to new cells only, and
    the cells the diagram owns afterwards are those it owned or new ones. *)
Definition writes_own (fc : ptr) (h h' : heap) : Prop :=
  ∀ f, deref h fc = Some f →
    (∀ p, p < length h → ¬ own fc f p → h' !! p = h !! p) ∧
    (∀ f' p, deref h' fc = Some f' → own fc f' p → own fc f p ∨ length h ≤ p).

(** All the cells of the diagram lie at [n] or above. *)
Definition private (n : nat) (fc : ptr) (h : heap) : Prop :=
  ∃ f, deref h fc = Some f ∧ ∀ p, own fc f p → n ≤ p.

(** The maps and lists only grow. *)
Definition extends (v v' : view) : Prop :=
  v_nodeStyles v ⊆ v_nodeStyles v' ∧ v_edgeStyles v ⊆ v_edgeStyles v' ∧
  v_subgraphs v ⊆ v_subgraphs v' ∧ v_nodes v ⊆ v_nodes v'.

(** An identifier no call of [cs] registers is as it was. *)
Definition untouched (cs : list call) (v v' : view) : Prop :=
  (∀ id, CallNodeStyle id ∉ cs → v_nodeStyles v' !! id = v_nodeStyles v !! id) ∧
  (∀ id, CallEdgeStyle id ∉ cs → v_edgeStyles v' !! id = v_edgeStyles v !! id) ∧
  (∀ id, CallAddSubgraph id ∉ cs → v_subgraphs v' !! id = v_subgraphs v !! id) ∧
  (∀ id, CallAddNode id ∉ cs → v_nodes v' !! id = v_nodes v !! id).

(** An identifier a call of [cs] registers is in its map. *)
Definition registered (cs : list call) (v' : view) : Prop :=
  (∀ id, CallNodeStyle id ∈ cs → is_Some (v_nodeStyles v' !! id)) ∧
  (∀ id, CallEdgeStyle id ∈ cs → is_Some (v_edgeStyles v' !! id)) ∧
  (∀ id, CallAddSubgraph id ∈ cs → is_Some (v_subgraphs v' !! id)) ∧
  (∀ id, CallAddNode id ∈ cs → is_Some (v_nodes v' !! id)).

Definition empty_view : view := View ∅ ∅ ∅ ∅ [] [].

(** One call on a well-formed diagram, in full. *)
Definition step_spec fc (c : call) h v h' : Prop :=
  do_call fc c h = Some (answer v c (length h), h') ∧
  models fc h' (update v c (length h)) ∧ keeps fc h h' ∧
  (∀ o, created fc v c = Some o → h' !! length h = Some (Object o)) ∧
  writes_own fc h h'.

End Model.
End flowchart.

(** ** Part IV: package gantt (Gantt.go) *)

Module gantt.
Import Go.

(** What Gantt.go uses and other files of the package declare: the structs
    Task (with its unexported id) and Section. *)
Class Declarations := {
  Task : Type;
  Task_id : Task → string;
  Section : Type
}.

(** A value passed as [interface{}], with its dynamic type. *)
Inductive any :=
  | VString (s : string)
  | VAxisFormat (s : string)
  | VBool (b : bool)
  | VInt (n : Z)
  | VNil
  | VOther (type : string).

Section Model.
Context `{Declarations}.

(** type axisFormat string *)
Definition axisFormat := string.
Definition FormatDateTime24WithSeconds : axisFormat := "%Y-%m-%d %H:%M:%S".
Definition FormatDateTime24 : axisFormat := "%Y-%m-%d %H:%M".
Definition FormatDateTime24Short : axisFormat := "%y%m%d %H:%M".
Definition FormatDate : axisFormat := "%Y-%m-%d".
Definition FormatDateShort : axisFormat := "%y%m%d".
Definition FormatWeekdayTime24 : axisFormat := "%a %H:%M".
Definition FormatWeekdayTime24WithSeconds : axisFormat := "%a %H:%M:%S".
Definition FormatTime24 : axisFormat := "%H:%M".
Definition FormatTime24WithSeconds : axisFormat := "%H:%M:%S".

(** The maps hold pointers as the constructors of the entities return them,
    nil included. *)
Record Gantt := {
  sectionsMap : gmap string (option ptr);
  sections : slice;
  tasksMap : gmap string (option ptr);
  tasks : slice;
  Title : string;
  AxisFormat : axisFormat
}.

Inductive object :=
  | OTask (t : Task)
  | OSection (s : Section)
  | OGantt (g : Gantt).

Definition set_sectionsMap (m : gmap string (option ptr)) (g : Gantt) : Gantt :=
  {| sectionsMap := m; sections := sections g; tasksMap := tasksMap g;
     tasks := tasks g; Title := Title g; AxisFormat := AxisFormat g |}.
Definition set_sections (s : slice) (g : Gantt) : Gantt :=
  {| sectionsMap := sectionsMap g; sections := s; tasksMap := tasksMap g;
     tasks := tasks g; Title := Title g; AxisFormat := AxisFormat g |}.
Definition set_tasksMap (m : gmap string (option ptr)) (g : Gantt) : Gantt :=
  {| sectionsMap := sectionsMap g; sections := sections g; tasksMap := m;
     tasks := tasks g; Title := Title g; AxisFormat := AxisFormat g |}.
Definition set_tasks (s : slice) (g : Gantt) : Gantt :=
  {| sectionsMap := sectionsMap g; sections := sections g; tasksMap := tasksMap g;
     tasks := s; Title := Title g; AxisFormat := AxisFormat g |}.
Definition set_Title (t : string) (g : Gantt) : Gantt :=
  {| sectionsMap := sectionsMap g; sections := sections g; tasksMap := tasksMap g;
     tasks := tasks g; Title := t; AxisFormat := AxisFormat g |}.
Definition set_AxisFormat (a : axisFormat) (g : Gantt) : Gantt :=
  {| sectionsMap := sectionsMap g; sections := sections g; tasksMap := tasksMap g;
     tasks := tasks g; Title := Title g; AxisFormat := a |}.

Abbreviation heap := (Go.heap object).

Definition deref (h : heap) (g : ptr) : option Gantt :=
  match load_obj h g with Some (OGantt x) => Some x | _ => None end.
Definition assign (g : ptr) (x : Gantt) (h : heap) : option heap :=
  store g (Object (OGantt x)) h.
Definition load_Task (h : heap) (p : ptr) : option Task :=
  match load_obj h p with Some (OTask t) => Some t | _ => None end.
Definition load_Section (h : heap) (p : ptr) : option Section :=
  match load_obj h p with Some (OSection s) => Some s | _ => None end.

(** The functions Gantt.go calls and other files of the package define:
    the constructors of sections and tasks (they may read the diagram and
    allocate; each returns a pointer and an error) and the renderers. *)
Class Methods := {
  sectionNew : string → ptr → heap → option ((option ptr * error) * heap);
  taskNew : string → ptr → option ptr → list any → heap
            → option ((option ptr * error) * heap);
  Task_String : heap → Task → option string;
  Section_String : heap → Section → option string
}.

(** func NewGantt(init ...interface{}) (newGantt *Gantt, err error) *)
Definition NewGantt (init : list any) (h : heap) : option ((option ptr * error) * heap) :=
  let x := {| sectionsMap := ∅; sections := nil_slice; tasksMap := ∅;
              tasks := nil_slice; Title := ""; AxisFormat := "" |} in
  let '(g, h) := alloc (Object (OGantt x)) h in
  let l := length init in
  (* case l > 0: *)
  let title (x : Gantt) (h : heap) :=
    match init !! 0 with
    | Some (VString s) =>
        h ← assign g (set_Title s x) h; Some ((Some g, None), h)
    | _ =>
        h ← assign g (set_Title "" x) h;
        Some ((None, Errorf "value for Title was no string"), h)
    end in
  if decide (1 < l) then
    (* case l > 1: ... fallthrough *)
    match init !! 1 with
    | Some (VAxisFormat v) | Some (VString v) =>
        let x := set_AxisFormat v x in
        h ← assign g x h; title x h
    | _ => Some ((None, Errorf "value for AxisFormat was no axisFormat"), h)
    end
  else if decide (0 < l) then title x h
  else Some ((Some g, None), h).

(** An initializer whose first value (Title) is there and is no string;
    whose second value (AxisFormat) is there and is neither an axisFormat
    nor a string. *)
Definition wrong_Title (init : list any) : bool :=
  match init !! 0 with
  | Some (VString _) | None => false
  | Some _ => true
  end.

Definition wrong_AxisFormat (init : list any) : bool :=
  match init !! 1 with
  | Some (VString _) | Some (VAxisFormat _) | None => false
  | Some _ => true
  end.

(** The title and the axis format an initializer gives: its first value
    when that is a string, its second when that is a string or an
    axisFormat. *)
Definition given_Title (init : list any) : string :=
  match init !! 0 with Some (VString s) => s | _ => "" end.

Definition given_AxisFormat (init : list any) : axisFormat :=
  match init !! 1 with Some (VString s) | Some (VAxisFormat s) => s | _ => "" end.

(** String for renderers of tasks and sections that are not taken to be
    functions: each has a set of outcomes. *)
Section Outcomes.
Variable Task_String_out : heap → Task → outcomes string.
Variable Section_String_out : heap → Section → outcomes string.

(** func (g *Gantt) String() (renderedElement string) *)
Definition String_out (g : ptr) (h : heap) : outcomes string :=
  and_then (one (deref h g)) (λ x,
  let renderedElement := "gantt" +:+ LF +:+ "dateFormat YYYY-MM-DDTHH:mm:ssZ" +:+ LF in
  let renderedElement :=
    if decide (AxisFormat x ≠ "")
    then renderedElement +:+ Sprintln2 "axisFormat" (AxisFormat x) else renderedElement in
  let renderedElement :=
    if decide (Title x ≠ "")
    then renderedElement +:+ Sprintln2 "title" (Title x) else renderedElement in
  and_then (one (slice_elems h (tasks x))) (λ ts,
  and_then (render_each_out (λ t, and_then (one (t ≫= load_Task h)) (Task_String_out h))
                            ts renderedElement) (λ renderedElement,
  and_then (one (slice_elems h (sections x))) (λ ss,
  render_each_out (λ s, and_then (one (s ≫= load_Section h)) (Section_String_out h))
                  ss renderedElement)))).

End Outcomes.

Section Operations.
Context `{Methods}.

(** func (g *Gantt) String() (renderedElement string) *)
Definition String (g : ptr) (h : heap) : option string :=
  x ← deref h g;
  let renderedElement := "gantt" +:+ LF +:+ "dateFormat YYYY-MM-DDTHH:mm:ssZ" +:+ LF in
  let renderedElement :=
    if decide (AxisFormat x ≠ "")
    then renderedElement +:+ Sprintln2 "axisFormat" (AxisFormat x) else renderedElement in
  let renderedElement :=
    if decide (Title x ≠ "")
    then renderedElement +:+ Sprintln2 "title" (Title x) else renderedElement in
  ts ← slice_elems h (tasks x);
  renderedElement ← render_each (λ t, p ← t; y ← load_Task h p; Task_String h y)
                                ts renderedElement;
  ss ← slice_elems h (sections x);
  render_each (λ s, p ← s; y ← load_Section h p; Section_String h y) ss renderedElement.

(** Structs for JSON encode, and their field tags *)
Record mermaidJSON := { Theme : string }.
Record dataJSON := { Code : string; Mermaid : mermaidJSON }.

Definition mermaidJSON_tagged (m : mermaidJSON) : encoding.jvalue :=
  encoding.JObject [("theme", encoding.JString (Theme m))].
Definition dataJSON_tagged (d : dataJSON) : encoding.jvalue :=
  encoding.JObject [("code", encoding.JString (Code d));
                    ("mermaid", mermaidJSON_tagged (Mermaid d))].

Definition liveURL : string := "https://mermaid.live/view/#pako:".

(** The body of LiveURL after [g.String()] has returned [text], over the
    two encoders; the error each of them returns is dropped ([_]). *)
Definition LiveURL_with (enc : encoding.Encoders) (text : string) : string :=
  let '(data, _) := encoding.json_Marshal enc
    (dataJSON_tagged {| Code := text; Mermaid := {| Theme := "default" |} |}) in
  let '(b, _) := encoding.zlib_Write enc encoding.BestCompression data in
  liveURL +:+ encoding.EncodeToString b.

(** func (g *Gantt) LiveURL() (url string) *)
Definition LiveURL `{encoding.Zlib} (g : ptr) (h : heap) : option string :=
  LiveURL_with encoding.std <$> String g h.

(** The switch on runtime.GOOS in ViewInBrowser: the command each case
    builds from the URL; no case for any other platform. *)
Definition opener (GOOS : string) : option (string → Cmd) :=
  if bool_decide (GOOS ∈ ["openbsd"; "linux"]) then
    Some (λ url, Command "xdg-open" [url])
  else if bool_decide (GOOS = "darwin") then
    Some (λ url, Command "open" [url])
  else if bool_decide (GOOS = "windows") then
    Some (λ url, Command "rundll32" ["url.dll,FileProtocolHandler"; url])
  else None.

(** func (g *Gantt) ViewInBrowser() (err error), on the platform [GOOS],
    where starting a command [c] returns [Start c]: the commands started
    and the error returned. *)
Definition ViewInBrowser `{encoding.Zlib} (GOOS : string) (Start : Cmd → error)
    (g : ptr) (h : heap) : option (list Cmd * error) :=
  match opener GOOS with
  | Some command => url ← LiveURL g h; Some ([command url], Start (command url))
  | None => Some ([], Errorf "unsupported platform")
  end.

Context `{Growth}.

(** func (g *Gantt) AddSection(id string) (newSection *Section, err error) *)
Definition AddSection (g : ptr) (id : string) (h : heap)
    : option ((option ptr * error) * heap) :=
  '((newSection, err), h) ← sectionNew id g h;
  match err with
  | Some _ => Some ((newSection, err), h)
  | None =>
      x ← deref h g;
      let x := set_sectionsMap (<[id := newSection]> (sectionsMap x)) x in
      h ← assign g x h;
      '(ss, h) ← append (sections x) newSection h;
      h ← assign g (set_sections ss x) h;
      Some ((newSection, err), h)
  end.

(** func (g *Gantt) AddTask(id string, init ...interface{}) (newTask *Task, err error) *)
Definition AddTask (g : ptr) (id : string) (init : list any) (h : heap)
    : option ((option ptr * error) * heap) :=
  '((newTask, err), h) ← taskNew id g None init h;
  match err with
  | Some _ => Some ((newTask, err), h)
  | None =>
      x ← deref h g;
      let x := set_tasksMap (<[id := newTask]> (tasksMap x)) x in
      h ← assign g x h;
      '(ts, h) ← append (tasks x) newTask h;
      h ← assign g (set_tasks ts x) h;
      Some ((newTask, err), h)
  end.

(** func (g *Gantt) GetSection(id string) (existingSection *Section) *)
Definition GetSection (g : ptr) (id : string) (h : heap) : option (option ptr) :=
  x ← deref h g; Some (default None (sectionsMap x !! id)).

(** func (g *Gantt) GetTask(id string) (existingTask *Task) *)
Definition GetTask (g : ptr) (id : string) (h : heap) : option (option ptr) :=
  x ← deref h g; Some (default None (tasksMap x !! id)).

(** func (g *Gantt) ListSections() (allSections []*Section) *)
Definition ListSections (g : ptr) (h : heap) : option (slice * heap) :=
  x ← deref h g;
  '(allSections, h) ← make (s_len (sections x)) (s_len (sections x)) h;
  '(_, h) ← copy allSections (sections x) h;
  Some (allSections, h).

(** func (g *Gantt) ListLocalTasks() (localTasks []*Task) *)
Definition ListLocalTasks (g : ptr) (h : heap) : option (slice * heap) :=
  x ← deref h g;
  '(localTasks, h) ← make (s_len (tasks x)) (s_len (tasks x)) h;
  '(_, h) ← copy localTasks (tasks x) h;
  Some (localTasks, h).

(** [allTasks[i].id] *)
Definition id_at (h : heap) (t : option ptr) : option string :=
  p ← t; x ← load_Task h p; Some (Task_id x).

(** [allTasks[i].id < allTasks[j].id], on the elements *)
Definition less (h : heap) (a b : option ptr) : bool :=
  match id_at h a, id_at h b with
  | Some x, Some y => String.ltb x y
  | _, _ => false
  end.

(** [sort.Slice(allTasks, less)]: the slice's slots are rearranged in
    place. [less] runs on the elements of a slice of two or more, and
    needs each of them to point to a task. *)
Definition sorted_in_place (allTasks : slice) (h h' : heap) : Prop :=
  ∃ a arr es after,
    s_arr allTasks = Some a ∧ load_arr h a = Some arr ∧
    slice_elems h allTasks = Some es ∧
    (2 ≤ length es → Forall (λ t, is_Some (id_at h t)) es) ∧
    sort_Slice (less h) es after ∧
    store a (Array (after ++ drop (s_len allTasks) arr)) h = Some h'.

(** func (g *Gantt) ListTasks() (allTasks []*Task): the slice returned and
    the heap left, for every order in which [range g.tasksMap] can visit
    the tasks and every way sort.Slice can arrange equal identifiers. *)
Inductive ListTasks (g : ptr) (h : heap) : slice * heap → Prop :=
  | ListTasks_range x order allTasks h1 h2 :
      deref h g = Some x →
      range_order (tasksMap x) order →
      make 0 (size (tasksMap x)) h ≫= (λ '(s, h0), append_all (order.*2) s h0)
        = Some (allTasks, h1) →
      sorted_in_place allTasks h1 h2 →
      ListTasks g h (allTasks, h2).

(** The identifier of a listed task (of a pointer to a task). *)
Definition key (h : heap) (t : option ptr) : string := default "" (id_at h t).

(** Every entry of the task table points to a task. *)
Definition tasks_ok (h : heap) (x : Gantt) : Prop :=
  map_Forall (λ _ t, is_Some (id_at h t)) (tasksMap x).

End Operations.
End Model.
End gantt.

(** ** Part V: a model of what lies outside the two files

    The claims about rendering and export are proved for every
    implementation of the renderers and of zlib. To run the packages on
    examples, this part supplies one implementation of each. *)

Module model.
Import Go.

(** Modelled from the spec: the shape enumerations of the flowchart package
    are not under src/. Section 4.3 names the node shapes "rectangle,
    rounded, circle, rhombus" and the edge shapes "plain line, arrow,
    dotted, dotted arrow, thick, thick arrow". *)
Inductive nodeShape := NShapeRect | NShapeRound | NShapeCircle | NShapeRhombus.
Inductive edgeShape :=
  | EShapeLine | EShapeArrow | EShapeDotted | EShapeDottedArrow
  | EShapeThick | EShapeThickArrow.

#[export] Instance flowchart_declarations : flowchart.Declarations := {|
  flowchart.nodeShape := nodeShape;
  flowchart.NShapeRect := NShapeRect;
  flowchart.edgeShape := edgeShape;
  flowchart.EShapeArrow := EShapeArrow;
  flowchart.rest := unit;
  flowchart.zero := tt
|}.

Definition dquote : string := String.String "034"%char EmptyString.

Definition brackets (s : nodeShape) : string * string :=
  match s with
  | NShapeRect => ("[", "]")
  | NShapeRound => ("(", ")")
  | NShapeCircle => ("((", "))")
  | NShapeRhombus => ("{", "}")
  end.

Definition connector (s : edgeShape) : string :=
  match s with
  | EShapeLine => "---"
  | EShapeArrow => "-->"
  | EShapeDotted => "-.-"
  | EShapeDottedArrow => "-.->"
  | EShapeThick => "==="
  | EShapeThickArrow => "==>"
  end.

(** fmt.Sprintf on a format with verbs [%s] and one string operand: the
    first verb is replaced by the operand. *)
Fixpoint Sprintf1 (format arg : string) : string :=
  match format with
  | String.String "%" (String.String "s" tail) => arg +:+ tail
  | String.String c tail => String.String c (Sprintf1 tail arg)
  | EmptyString => EmptyString
  end.

Definition node_of (h : Go.heap flowchart.object) (p : option ptr) : option flowchart.Node :=
  q ← p; match load_obj h q with Some (flowchart.ONode n) => Some n | _ => None end.

(** Modelled from the spec: the renderers of the flowchart entities are not
    under src/. Section 4.3: a Node renders as [id], shape-open, the label
    in quotes, shape-close (the label is the identifier here); a Subgraph as
    a block from [subgraph id] to [end]; an Edge as [from connector to];
    a node style as one style-definition line that names the style; an edge
    style as a [linkStyle] line whose index is filled in by the caller.
    Stroke width is the one attribute modelled. *)
#[export] Instance flowchart_methods : flowchart.Methods := {|
  flowchart.Node_renderGraph h n :=
    let '(l, r) := brackets (flowchart.node_Shape n) in
    Some (flowchart.node_id n +:+ l +:+ dquote +:+ flowchart.node_id n +:+ dquote
          +:+ r +:+ LF);
  flowchart.Subgraph_renderGraph h s :=
    Some ("subgraph " +:+ flowchart.subgraph_id s +:+ LF +:+ "end" +:+ LF);
  flowchart.Edge_String h e :=
    from ← node_of h (flowchart.edge_From e);
    to ← node_of h (flowchart.edge_To e);
    Some (flowchart.node_id from +:+ connector (flowchart.edge_Shape e)
          +:+ flowchart.node_id to +:+ LF);
  flowchart.NodeStyle_String h s :=
    Some ("classDef " +:+ flowchart.nodeStyle_id s +:+ " stroke-width:"
          +:+ pretty (flowchart.nodeStyle_StrokeWidth s) +:+ "px" +:+ LF);
  flowchart.EdgeStyle_String h s :=
    Some ("linkStyle %s stroke-width:"
          +:+ pretty (flowchart.edgeStyle_StrokeWidth s) +:+ "px" +:+ LF);
  flowchart.Sprintf1 := Sprintf1
|}.

(** Modelled from the spec: the structs Task and Section of the gantt
    package are not under src/. Section 3: a Task has an identifier and a
    title; a Section is a named grouping. *)
Record Task := { task_id : string; task_title : string }.
Record Section := { section_id : string }.

#[export] Instance gantt_declarations : gantt.Declarations := {|
  gantt.Task := Task;
  gantt.Task_id := task_id;
  gantt.Section := Section
|}.

(** Modelled from the spec: taskNew, sectionNew and the renderers of the
    gantt entities are not under src/. Section 4.1: adding fails when the
    identifier already exists, and otherwise creates the entity; the doc
    comment of AddTask: the first optional value is the title. No
    identifier is taken to be invalid. A task line carries the title and
    the identifier, a section line the section's name. *)
#[export] Instance gantt_methods : gantt.Methods := {|
  gantt.sectionNew id g h :=
    x ← gantt.deref h g;
    match gantt.sectionsMap x !! id with
    | Some _ => Some ((None, Errorf "id already exists"), h)
    | None =>
        let '(p, h) := alloc (Object (gantt.OSection {| section_id := id |})) h in
        Some ((Some p, None), h)
    end;
  gantt.taskNew id g section init h :=
    x ← gantt.deref h g;
    match gantt.tasksMap x !! id with
    | Some _ => Some ((None, Errorf "id already exists"), h)
    | None =>
        let title := match init !! 0 with Some (gantt.VString s) => s | _ => id end in
        let '(p, h) :=
          alloc (Object (gantt.OTask {| task_id := id; task_title := title |})) h in
        Some ((Some p, None), h)
    end;
  gantt.Task_String h t := Some (task_title t +:+ " :" +:+ task_id t +:+ LF);
  gantt.Section_String h s := Some ("section " +:+ section_id s +:+ LF)
|}.

End model.

(** A zlib to compute with: the writer that stores the data uncompressed
    (RFC 1950 header with the level's FLEVEL, stored DEFLATE blocks of up
    to 65535 bytes, Adler-32), and the reader of that form. *)
Module stored.
Import encoding.

Definition block_max : N := 65535.

Definition le16 (n : N) : bytes := [byte (n mod 256); byte (n / 256)].

Definition be32 (n : N) : bytes :=
  [byte (n / 16777216); byte (n / 65536 mod 256); byte (n / 256 mod 256); byte (n mod 256)].

Definition adler32 (data : bytes) : N :=
  let '(a, b) :=
    foldl (λ '(a, b) c, let a' := ((a + code c) mod 65521)%N in (a', ((b + a') mod 65521)%N))
          (1%N, 0%N) data in
  (b * 65536 + a)%N.

Definition header (level : Z) : bytes :=
  let flevel : N :=
    if bool_decide (level ∈ [-2; 0; 1]%Z) then 0%N
    else if bool_decide (2 ≤ level ≤ 5)%Z then 1%N
    else if bool_decide (level ∈ [6; -1]%Z) then 2%N
    else 3%N in
  let flg := (flevel * 64)%N in
  [byte 0x78; byte (flg + (31 - (0x78 * 256 + flg) mod 31))%N].

Fixpoint stored (fuel : nat) (data : bytes) : bytes :=
  match fuel with
  | 0 => []
  | S fuel =>
      let n := N.of_nat (length data) in
      if (n <=? block_max)%N then
        byte 1 :: le16 n ++ le16 (block_max - n) ++ data
      else
        byte 0 :: le16 block_max ++ le16 0 ++ take (N.to_nat block_max) data
        ++ stored fuel (drop (N.to_nat block_max) data)
  end.

Definition deflate (level : Z) (data : bytes) : bytes :=
  header level ++ stored (S (length data)) data ++ be32 (adler32 data).

Fixpoint blocks (fuel : nat) (s : bytes) : option (bytes * bytes) :=
  match fuel with
  | 0 => None
  | S fuel =>
      match s with
      | hdr :: l0 :: l1 :: n0 :: n1 :: t =>
          let len := (code l0 + 256 * code l1)%N in
          let nlen := (code n0 + 256 * code n1)%N in
          if ((len + nlen =? block_max) && (len <=? N.of_nat (length t)))%N then
            let d := take (N.to_nat len) t in
            let t' := drop (N.to_nat len) t in
            if bool_decide (hdr = byte 1) then Some (d, t')
            else if bool_decide (hdr = byte 0) then
              '(d', rest) ← blocks fuel t'; Some (d ++ d', rest)
            else None
          else None
      | _ => None
      end
  end.

Definition inflate (s : bytes) : option bytes :=
  match s with
  | cmf :: flg :: t =>
      if ((code cmf =? 0x78) && ((code cmf * 256 + code flg) mod 31 =? 0)
          && (N.land (code flg) 0x20 =? 0))%N then
        '(d, rest) ← blocks (length t) t;
        if bool_decide (rest = be32 (adler32 d)) then Some d else None
      else None
  | _ => None
  end.

End stored.

(** Concrete diagrams and encoders, for the examples. *)
Module examples.
Import Go encoding model.

(** A title that is no UTF-8: the single byte 0xFF. *)
Definition bad_title : string := String.String (byte 0xFF) EmptyString.

(** The heap after [NewGantt(bad_title)]: the diagram, at pointer 0. *)
Definition bad_title_heap : Go.heap gantt.object :=
  [Object (gantt.OGantt
     {| gantt.sectionsMap := ∅; gantt.sections := nil_slice; gantt.tasksMap := ∅;
        gantt.tasks := nil_slice; gantt.Title := bad_title; gantt.AxisFormat := "" |})].

(** The heap after [NewGantt("Plan")]. *)
Definition plan_heap : Go.heap gantt.object :=
  [Object (gantt.OGantt
     {| gantt.sectionsMap := ∅; gantt.sections := nil_slice; gantt.tasksMap := ∅;
        gantt.tasks := nil_slice; gantt.Title := "Plan"; gantt.AxisFormat := "" |})].

(** The heap after [NewFlowchart()], [NodeStyle("a")], [NodeStyle("b")]:
    the diagram at pointer 0, the styles at 1 and 2. *)
Definition two_styles_struct : flowchart.Flowchart :=
  {| flowchart.nodeStyles := <["b" := 2]> (<["a" := 1]> ∅);
     flowchart.edgeStyles := ∅; flowchart.subgraphs := ∅; flowchart.nodes := ∅;
     flowchart.edges := nil_slice; flowchart.items := nil_slice;
     flowchart.Direction := flowchart.DirectionTopDown;
     flowchart.DefaultEdgeStyle := None |}.

Definition two_styles_heap : Go.heap flowchart.object :=
  [Object (flowchart.OFlowchart two_styles_struct);
   Object (flowchart.ONodeStyle
     {| flowchart.nodeStyle_id := "a"; flowchart.nodeStyle_StrokeWidth := 1;
        flowchart.nodeStyle_rest := tt |});
   Object (flowchart.ONodeStyle
     {| flowchart.nodeStyle_id := "b"; flowchart.nodeStyle_StrokeWidth := 1;
        flowchart.nodeStyle_rest := tt |})].

(** The heap after [NewFlowchart()] and [NodeStyle("a")]. *)
Definition one_style_struct : flowchart.Flowchart :=
  {| flowchart.nodeStyles := <["a" := 1]> ∅;
     flowchart.edgeStyles := ∅; flowchart.subgraphs := ∅; flowchart.nodes := ∅;
     flowchart.edges := nil_slice; flowchart.items := nil_slice;
     flowchart.Direction := flowchart.DirectionTopDown;
     flowchart.DefaultEdgeStyle := None |}.

Definition one_style_heap : Go.heap flowchart.object :=
  [Object (flowchart.OFlowchart one_style_struct);
   Object (flowchart.ONodeStyle
     {| flowchart.nodeStyle_id := "a"; flowchart.nodeStyle_StrokeWidth := 1;
        flowchart.nodeStyle_rest := tt |})].

(** Scenario B of the spec: one node A and the edge from A to A. *)
Definition scenario_B : option (ptr * Go.heap flowchart.object) :=
  let '(fc, h) := flowchart.NewFlowchart [] in
  '(a, h) ← flowchart.AddNode fc "A" h;
  '(_, h) ← flowchart.AddEdge fc a a h;
  Some (fc, h).

Definition scenario_B_struct : flowchart.Flowchart :=
  {| flowchart.nodeStyles := ∅; flowchart.edgeStyles := ∅; flowchart.subgraphs := ∅;
     flowchart.nodes := <["A" := 1]> ∅;
     flowchart.edges := Slice (Some 4) 1 1; flowchart.items := Slice (Some 2) 1 1;
     flowchart.Direction := flowchart.DirectionTopDown;
     flowchart.DefaultEdgeStyle := None |}.

Definition scenario_B_heap : Go.heap flowchart.object :=
  [Object (flowchart.OFlowchart scenario_B_struct);
   Object (flowchart.ONode
     {| flowchart.node_id := "A"; flowchart.node_Shape := NShapeRect;
        flowchart.node_rest := tt |});
   Array [Some 1];
   Object (flowchart.OEdge
     {| flowchart.edge_From := Some 1; flowchart.edge_To := Some 1;
        flowchart.edge_Shape := EShapeArrow; flowchart.edge_id := 0;
        flowchart.edge_rest := tt |});
   Array [Some 3]].

(** A Gantt diagram with the tasks b and a, added in that order. *)
Definition two_tasks : option (ptr * Go.heap gantt.object) :=
  '((g, _), h) ← gantt.NewGantt [] [];
  g ← g;
  '(_, h) ← gantt.AddTask g "b" [] h;
  '(_, h) ← gantt.AddTask g "a" [] h;
  Some (g, h).

Definition two_tasks_struct : gantt.Gantt :=
  {| gantt.sectionsMap := ∅; gantt.sections := nil_slice;
     gantt.tasksMap := <["a" := Some 3]> (<["b" := Some 1]> ∅);
     gantt.tasks := Slice (Some 4) 2 2; gantt.Title := ""; gantt.AxisFormat := "" |}.

Definition two_tasks_heap : Go.heap gantt.object :=
  [Object (gantt.OGantt two_tasks_struct);
   Object (gantt.OTask {| task_id := "b"; task_title := "b" |});
   Array [Some 1];
   Object (gantt.OTask {| task_id := "a"; task_title := "a" |});
   Array [Some 1; Some 3]].

End examples.


(** ** Part VI: properties *)

(** *** The runtime: what a heap operation leaves alone *)

Section GoFacts.
Import Go.
Context {Obj : Type} `{Growth}.
Implicit Types (h : heap Obj) (s : slice) (p : ptr).

Lemma store_Some p (c : cell Obj) h h' :
  store p c h = Some h' → p < length h ∧ h' = <[p := c]> h.
Proof. unfold store. case_decide; naive_solver. Qed.

Lemma store_length p (c : cell Obj) h h' : store p c h = Some h' → length h' = length h.
Proof. intros [_ ->]%store_Some. by rewrite length_insert. Qed.

Lemma store_lookup_ne p q (c : cell Obj) h h' :
  store p c h = Some h' → p ≠ q → h' !! q = h !! q.
Proof. intros [_ ->]%store_Some ?. by rewrite list_lookup_insert_ne. Qed.

Lemma store_lookup_eq p (c : cell Obj) h h' : store p c h = Some h' → h' !! p = Some c.
Proof. intros [? ->]%store_Some. by rewrite list_lookup_insert_eq. Qed.

Lemma store_is_Some p (c : cell Obj) h : p < length h → store p c h = Some (<[p := c]> h).
Proof. intros. unfold store. by case_decide. Qed.

Lemma load_arr_lt h p arr : load_arr h p = Some arr → p < length h.
Proof.
  unfold load_arr. destruct (h !! p) eqn:E; [|done].
  intros _. by eapply lookup_lt_Some.
Qed.

(** A store above [n] leaves the first [n] cells as they were. *)
Lemma store_take n p (c : cell Obj) h h' :
  store p c h = Some h' → n ≤ p → take n h' = take n h.
Proof. intros [_ ->]%store_Some ?. by rewrite take_insert_ge. Qed.

Lemma alloc_take n (c : cell Obj) h : n ≤ length h → take n (h ++ [c]) = take n h.
Proof. intros. by rewrite take_app_le. Qed.

(** One client operation on a slice whose array lies above [n] leaves the
    first [n] cells of the heap as they were, and the slice above [n]. *)
Lemma slice_step_frame n (o : slice_op) s h s' h' :
  slice_step o s h = Some (s', h') →
  (∀ a, s_arr s = Some a → n ≤ a) → n ≤ length h →
  take n h' = take n h ∧ (∀ a, s_arr s' = Some a → n ≤ a) ∧ n ≤ length h'.
Proof.
  intros Hstep Hs Hn. destruct o as [i v|v]; simpl in Hstep.
  - unfold slice_set in Hstep. case_decide; [|done].
    destruct (s_arr s) as [a|] eqn:Ea; [|done]. simpl in Hstep.
    destruct (load_arr h a) as [arr|]; [|done]. simpl in Hstep.
    destruct (store a _ h) as [h1|] eqn:Est; [|done]. simplify_eq/=.
    split_and!.
    + eapply store_take; eauto.
    + by rewrite Ea.
    + by rewrite (store_length _ _ _ _ Est).
  - unfold append in Hstep.
    destruct (slice_elems h s) as [es|]; [|done]. simpl in Hstep.
    case_decide.
    + destruct (s_arr s) as [a|] eqn:Ea; [|done]. simpl in Hstep.
      destruct (load_arr h a) as [arr|]; [|done]. simpl in Hstep.
      destruct (store a _ h) as [h1|] eqn:Est; [|done]. simplify_eq/=.
      split_and!.
      * eapply store_take; eauto.
      * intros ? [= <-]. eauto.
      * by rewrite (store_length _ _ _ _ Est).
    + simplify_eq/=. split_and!.
      * by apply alloc_take.
      * intros ? [= <-]. done.
      * rewrite length_app. lia.
Qed.

Lemma slice_steps_frame n (os : list slice_op) : ∀ s h s' h',
  slice_steps os s h = Some (s', h') →
  (∀ a, s_arr s = Some a → n ≤ a) → n ≤ length h →
  take n h' = take n h.
Proof.
  induction os as [|o os IH]; intros s h s' h' Hrun Hs Hn; simpl in Hrun.
  - by simplify_eq.
  - destruct (slice_step o s h) as [[s1 h1]|] eqn:E1; [|done]. simpl in Hrun.
    destruct (slice_step_frame n _ _ _ _ _ E1 Hs Hn) as (E & Hs1 & Hn1).
    rewrite <- E. eapply IH; eauto.
Qed.

Lemma load_arr_app h (l : heap Obj) p arr :
  load_arr h p = Some arr → load_arr (h ++ l) p = Some arr.
Proof.
  unfold load_arr. destruct (h !! p) eqn:E; [|done].
  intros. by rewrite (lookup_app_l_Some _ _ _ _ E).
Qed.

Lemma slice_elems_length h s es : slice_elems h s = Some es → length es = s_len s.
Proof.
  unfold slice_elems. destruct (backing h s) as [a|]; [|done]. simpl.
  case_decide; [|done]. intros [= <-]. rewrite length_take. lia.
Qed.

Lemma slice_elems_app h (l : heap Obj) s es :
  slice_elems h s = Some es → slice_elems (h ++ l) s = Some es.
Proof.
  unfold slice_elems, backing. destruct (s_arr s) as [a|]; [|done].
  destruct (load_arr h a) as [arr|] eqn:E; [|done].
  by rewrite (load_arr_app _ l _ _ E).
Qed.

Lemma load_arr_alloc h (a : list (option ptr)) : load_arr (h ++ [Array a]) (length h) = Some a.
Proof. unfold load_arr. by rewrite list_lookup_middle. Qed.

Lemma insert_alloc h (c c' : cell Obj) : <[length h := c']> (h ++ [c]) = h ++ [c'].
Proof. rewrite insert_app_r_alt; [|lia]. by rewrite Nat.sub_diag. Qed.

(** [make] and [copy] in a row: the clone of a slice is a new array that
    holds the elements of the slice; nothing else changes. *)
Lemma clone_fresh h src es :
  slice_elems h src = Some es →
  ('(e, h1) ← make (s_len src) (s_len src) h; '(_, h2) ← copy e src h1; Some (e, h2))
  = Some (Slice (Some (length h)) (s_len src) (s_len src), h ++ [Array es]).
Proof.
  intros Hes. unfold make. case_decide; [|lia]. simpl.
  unfold copy. rewrite (slice_elems_app _ _ _ _ Hes). simpl.
  rewrite load_arr_alloc. simpl.
  rewrite store_is_Some; [|rewrite length_app; simpl; lia]. simpl.
  rewrite insert_alloc. do 3 f_equal.
  rewrite Nat.min_id, <- (slice_elems_length _ _ _ Hes).
  rewrite firstn_all, drop_replicate, Nat.sub_diag. simpl. by rewrite app_nil_r.
Qed.

(** Appending into the room a fresh array still has. *)
Lemma append_all_fresh (vs : list (option ptr)) : ∀ h (done : list (option ptr)) k,
  length vs ≤ k →
  append_all vs (Slice (Some (length h)) (length done) (length done + k))
             (h ++ [Array (done ++ replicate k None)])
  = Some (Slice (Some (length h)) (length done + length vs) (length done + k),
          h ++ [Array (done ++ vs ++ replicate (k - length vs) None)]).
Proof.
  induction vs as [|v vs IH]; intros h done k Hk; simpl.
  - by rewrite Nat.add_0_r, Nat.sub_0_r.
  - simpl in Hk. destruct k as [|k]; [lia|].
    assert (slice_elems (h ++ [Array (done ++ replicate (S k) None)])
              (Slice (Some (length h)) (length done) (length done + S k)) = Some done) as E.
    { unfold slice_elems, backing. simpl. rewrite load_arr_alloc. simpl.
      rewrite decide_True by (rewrite length_app; lia).
      by rewrite take_app_length. }
    unfold append. rewrite E. simpl.
    rewrite decide_True by lia. simpl.
    rewrite load_arr_alloc. simpl.
    rewrite store_is_Some by (rewrite length_app; simpl; lia). simpl.
    rewrite insert_alloc.
    rewrite insert_app_r_alt, Nat.sub_diag by lia. simpl.
    replace (done ++ v :: replicate k None) with ((done ++ [v]) ++ replicate k None)
      by (by rewrite <- app_assoc).
    replace (S (length done)) with (length (done ++ [v])) by (rewrite length_app; simpl; lia).
    replace (length done + S k) with (length (done ++ [v]) + k)
      by (rewrite length_app; simpl; lia).
    rewrite IH by lia. do 3 f_equal.
    + rewrite length_app. simpl. lia.
    + by rewrite <- app_assoc.
Qed.


(** A slice reads the heap at its array only. *)
Lemma slice_same h h' s :
  (∀ a, s_arr s = Some a → load_arr h' a = load_arr h a) →
  slice_elems h' s = slice_elems h s ∧ (wf_slice h s → wf_slice h' s).
Proof.
  intros Hsame. unfold slice_elems, backing, wf_slice.
  destruct (s_arr s) as [a|]; [|done]. by rewrite (Hsame a eq_refl).
Qed.

Lemma wf_slice_elems h s : wf_slice h s → ∃ es, slice_elems h s = Some es.
Proof.
  unfold wf_slice, slice_elems, backing. destruct (s_arr s) as [a|].
  - intros (arr & -> & Hl & Hle). simpl. rewrite decide_True by lia. eauto.
  - intros [-> _]. simpl. eauto.
Qed.

Lemma take_insert_snoc {A} (arr : list A) : ∀ n v,
  n < length arr → take (S n) (<[n := v]> arr) = take n arr ++ [v].
Proof.
  induction arr as [|x arr IH]; intros [|n] v Hn; simpl in *; try lia.
  - by rewrite take_0.
  - f_equal. apply IH. lia.
Qed.

(** [append] on a well-formed slice: it succeeds, the result holds the old
    elements and the new one, and the only old cell that may have changed
    is the array of the slice. *)
Lemma append_ok s v h :
  wf_slice h s →
  ∃ s' h' es,
    append s v h = Some (s', h') ∧
    slice_elems h s = Some es ∧ slice_elems h' s' = Some (es ++ [v]) ∧
    wf_slice h' s' ∧ s_len s' = S (s_len s) ∧ length h ≤ length h' ∧
    (∀ p, p < length h → Some p ≠ s_arr s → h' !! p = h !! p) ∧
    (∀ a, s_arr s' = Some a → s_arr s = Some a ∨ a = length h).
Proof.
  intros Hwf. destruct (wf_slice_elems _ _ Hwf) as [es Hes].
  pose proof (slice_elems_length _ _ _ Hes) as Hlen.
  unfold append. rewrite Hes. simpl. case_decide as Hcap.
  - unfold wf_slice in Hwf. destruct (s_arr s) as [a|] eqn:Ea; [|lia].
    destruct Hwf as (arr & Harr & Hl & Hle). simpl. rewrite Harr. simpl.
    pose proof (load_arr_lt _ _ _ Harr) as Ha.
    rewrite store_is_Some by done. simpl.
    assert (es = take (s_len s) arr) as Hes'.
    { unfold slice_elems, backing in Hes. rewrite Ea, Harr in Hes. simpl in Hes.
      case_decide; by simplify_eq. }
    eexists _, _, es. split_and!; try done.
    + unfold slice_elems, backing. simpl. unfold load_arr.
      rewrite list_lookup_insert_eq by done. simpl.
      rewrite decide_True by (rewrite length_insert; lia).
      f_equal. rewrite Hes'. apply take_insert_snoc. lia.
    + unfold wf_slice. simpl. eexists. unfold load_arr.
      rewrite list_lookup_insert_eq by done. split; [done|].
      rewrite length_insert. split; [done|lia].
    + by rewrite length_insert.
    + intros p Hp Hne. rewrite list_lookup_insert_ne; [done|]. congruence.
    + simpl. intros ? [= <-]. by left.
  - simpl. eexists _, _, es. split_and!; try done.
    + unfold slice_elems, backing. simpl. rewrite load_arr_alloc. simpl.
      rewrite decide_True by (rewrite length_app; simpl; lia).
      f_equal. rewrite <- Hlen.
      replace (es ++ v :: replicate (growcap (s_cap s) (S (length es)) - S (length es)) None)
        with ((es ++ [v]) ++ replicate (growcap (s_cap s) (S (length es)) - S (length es)) None)
        by (by rewrite <- app_assoc).
      apply take_app_length'. rewrite length_app. simpl. lia.
    + unfold wf_slice. simpl. eexists. rewrite load_arr_alloc. split; [done|].
      pose proof (growcap_ge (s_cap s) (S (s_len s))).
      rewrite length_app. simpl. rewrite length_replicate. split; lia.
    + rewrite length_app. lia.
    + intros p Hp _. by rewrite lookup_app_l.
    + simpl. intros ? [= <-]. by right.
Qed.

(** A store into a struct leaves every slice as it was. *)
Lemma slice_store_obj p (o o' : Obj) h h' s :
  store p (Object o') h = Some h' →
  h !! p = Some (Object o) →
  slice_elems h' s = slice_elems h s ∧ (wf_slice h s → wf_slice h' s).
Proof.
  intros [Hp ->]%store_Some Hobj. apply slice_same. intros a Ha. unfold load_arr.
  destruct (decide (a = p)) as [->|Hne].
  - by rewrite list_lookup_insert_eq, Hobj.
  - by rewrite list_lookup_insert_ne.
Qed.

(** So does an allocation. *)
Lemma slice_alloc (c : cell Obj) h s :
  wf_slice h s → slice_elems (h ++ [c]) s = slice_elems h s ∧ wf_slice (h ++ [c]) s.
Proof.
  intros Hwf.
  assert (∀ a, s_arr s = Some a → load_arr (h ++ [c]) a = load_arr h a) as Hsame.
  { intros a Ha. unfold wf_slice in Hwf. rewrite Ha in Hwf.
    destruct Hwf as (arr & Harr & _). unfold load_arr.
    by rewrite lookup_app_l by (by eapply load_arr_lt). }
  destruct (slice_same _ _ _ Hsame). auto.
Qed.

(** And an [append] to a slice with another array. *)
Lemma slice_append_other s v h s' h' t :
  append s v h = Some (s', h') → wf_slice h s → wf_slice h t →
  (∀ a, s_arr s = Some a → s_arr t ≠ Some a) →
  slice_elems h' t = slice_elems h t ∧ wf_slice h' t.
Proof.
  intros Happ Hs Ht Hne.
  destruct (append_ok s v h Hs) as (s1 & h1 & es & E & _ & _ & _ & _ & _ & Hframe & _).
  rewrite Happ in E. simplify_eq.
  assert (∀ a, s_arr t = Some a → load_arr h1 a = load_arr h a) as Hsame.
  { intros a Ha. unfold wf_slice in Ht. rewrite Ha in Ht.
    destruct Ht as (arr & Harr & _). unfold load_arr. rewrite Hframe; [done| |].
    - by eapply load_arr_lt.
    - intros Hs'. symmetry in Hs'. by destruct (Hne _ Hs'). }
  destruct (slice_same _ _ _ Hsame). auto.
Qed.

(** [append] leaves the structs alone. *)
Lemma append_obj s v h s' h' p (o : Obj) :
  wf_slice h s → append s v h = Some (s', h') →
  h !! p = Some (Object o) → h' !! p = Some (Object o).
Proof.
  intros Hwf Happ Hp.
  destruct (append_ok s v h Hwf) as (s1 & h1 & es & E & _ & _ & _ & _ & _ & Hframe & _).
  rewrite Happ in E. simplify_eq. rewrite Hframe; [done|by eapply lookup_lt_Some|].
  intros Hs. unfold wf_slice in Hwf. rewrite <- Hs in Hwf.
  destruct Hwf as (arr & Harr & _). unfold load_arr in Harr. by rewrite Hp in Harr.
Qed.

(** A slice in a cell of its own at the end of the heap [h]: whatever the
    client does to it, the cells of [h] keep their contents. *)
Lemma fresh_slice_frame h (arr : list (option ptr)) n c (os : list slice_op) s' h' :
  slice_steps os (Slice (Some (length h)) n c) (h ++ [Array arr]) = Some (s', h') →
  take (length h) h' = h.
Proof.
  intros Hrun. erewrite slice_steps_frame; [|exact Hrun| |].
  - by rewrite take_app_length.
  - simpl. intros ? [= <-]. done.
  - rewrite length_app. lia.
Qed.

Lemma take_lookup_old h h' p : take (length h) h' = h → p < length h → h' !! p = h !! p.
Proof. intros <- Hp. rewrite lookup_take_lt; [done|]. by rewrite length_take in Hp; lia. Qed.

Lemma append_all_make (vs : list (option ptr)) h n :
  n = length vs →
  ('(values, h1) ← make 0 n h; append_all vs values h1)
  = Some (Slice (Some (length h)) (length vs) (length vs), h ++ [Array vs]).
Proof.
  intros ->. unfold make. rewrite decide_True by lia. simpl.
  pose proof (append_all_fresh vs h [] (length vs) (le_n _)) as E. simpl in E.
  rewrite E, Nat.sub_diag. simpl. by rewrite app_nil_r.
Qed.

Lemma fresh_copy_intro h (vs : list (option ptr)) :
  fresh_copy h vs (Slice (Some (length h)) (length vs) (length vs), h ++ [Array vs]).
Proof.
  unfold fresh_copy. simpl. split_and!.
  - done.
  - by rewrite take_app_length.
  - unfold slice_elems, backing. simpl. rewrite load_arr_alloc. simpl.
    rewrite decide_True by done. by rewrite firstn_all.
  - intros os s' h'. apply fresh_slice_frame.
Qed.

End GoFacts.

(** *** Flowchart: the calls keep the diagram well formed *)

Section FlowchartFacts.
Import Go flowchart.
Context `{Declarations} `{Growth}.
Local Abbreviation heap := (Go.heap object).
Implicit Types (h : heap) (f : Flowchart) (es : list ptr).

Lemma deref_lookup h fc f : deref h fc = Some f ↔ h !! fc = Some (Object (OFlowchart f)).
Proof.
  unfold deref, load_obj. destruct (h !! fc) as [[[]|]|]; naive_solver.
Qed.

Lemma load_Edge_lookup h e x : load_Edge h e = Some x ↔ h !! e = Some (Object (OEdge x)).
Proof.
  unfold load_Edge, load_obj. destruct (h !! e) as [[[]|]|]; naive_solver.
Qed.

Lemma fields_ok_alloc (c : cell object) h f es : fields_ok h f es → fields_ok (h ++ [c]) f es.
Proof.
  intros (He & Hi & Hd & Hes). unfold fields_ok.
  destruct (slice_alloc c _ _ He) as [-> ?]. destruct (slice_alloc c _ _ Hi) as [_ ?]. done.
Qed.

Lemma edges_ok_alloc (c : cell object) h es : edges_ok h es → edges_ok (h ++ [c]) es.
Proof.
  intros Hok n e Hn. destruct (Hok n e Hn) as (x & Hx & Hid). exists x. split; [|done].
  apply load_Edge_lookup. apply load_Edge_lookup in Hx. by apply lookup_app_l_Some.
Qed.

Lemma fields_ok_store_obj p (o o' : object) h h' f es :
  store p (Object o') h = Some h' → h !! p = Some (Object o) →
  fields_ok h f es → fields_ok h' f es.
Proof.
  intros Hst Hp (He & Hi & Hd & Hes). unfold fields_ok.
  destruct (slice_store_obj _ _ _ _ _ (edges f) Hst Hp) as [-> ?].
  destruct (slice_store_obj _ _ _ _ _ (items f) Hst Hp) as [_ ?]. auto.
Qed.

Lemma edges_ok_store_flowchart fc f f' h h' es :
  store fc (Object (OFlowchart f')) h = Some h' → deref h fc = Some f →
  edges_ok h es → edges_ok h' es.
Proof.
  intros Hst Hfc Hok n e Hn. destruct (Hok n e Hn) as (x & Hx & Hid). exists x.
  split; [|done]. apply load_Edge_lookup. apply load_Edge_lookup in Hx.
  apply deref_lookup in Hfc. rewrite (store_lookup_ne _ _ _ _ _ Hst); [done|].
  intros ->. congruence.
Qed.

Lemma edges_ok_append s v h s' h' es :
  wf_slice h s → append s v h = Some (s', h') → edges_ok h es → edges_ok h' es.
Proof.
  intros Hwf Happ Hok n e Hn. destruct (Hok n e Hn) as (x & Hx & Hid). exists x.
  split; [|done]. apply load_Edge_lookup. apply load_Edge_lookup in Hx.
  by eapply append_obj.
Qed.

Lemma assign_deref fc f h h' : assign fc f h = Some h' → deref h' fc = Some f.
Proof. intros Hst. apply deref_lookup. by eapply store_lookup_eq. Qed.

Lemma deref_lt h fc f : deref h fc = Some f → fc < length h.
Proof. intros Hfc%deref_lookup. by eapply lookup_lt_Some. Qed.

(** The tail shared by AddNode and AddSubgraph: the new entity is in the
    heap, the map is updated, and the entity goes to the end of the
    rendering order. *)
Lemma add_item_inv fc f f1 (c : object) h es :
  deref h fc = Some f → fields_ok h f es → edges_ok h es →
  edges f1 = edges f → items f1 = items f →
  ∃ its h',
    (h1 ← assign fc f1 (h ++ [Object c]);
     '(its, h2) ← append (items f1) (Some (length h)) h1;
     h3 ← assign fc (set_items its f1) h2;
     Some (Some (length h), h3)) = Some (Some (length h), h') ∧
    deref h' fc = Some (set_items its f1) ∧
    fields_ok h' (set_items its f1) es ∧ edges_ok h' es ∧ length h ≤ length h'.
Proof.
  intros Hfc Hf Hes Ee Ei.
  pose proof (deref_lt _ _ _ Hfc) as Hlt.
  pose proof (proj1 (deref_lookup _ _ _) Hfc) as Hcell.
  assert (fields_ok (h ++ [Object c]) f es) as Hf0 by by apply fields_ok_alloc.
  assert (edges_ok (h ++ [Object c]) es) as Hes0 by by apply edges_ok_alloc.
  assert ((h ++ [Object c]) !! fc = Some (Object (OFlowchart f))) as Hcell0
    by by apply lookup_app_l_Some.
  set (h1 := <[fc := Object (OFlowchart f1)]> (h ++ [Object c])).
  assert (store fc (Object (OFlowchart f1)) (h ++ [Object c]) = Some h1) as Hst1
    by (apply store_is_Some; rewrite length_app; lia).
  assert (fields_ok h1 f es) as Hf1 by by eapply fields_ok_store_obj.
  assert (edges_ok h1 es) as Hes1.
  { eapply edges_ok_store_flowchart; [done| |done]. by apply deref_lookup. }
  destruct Hf1 as (He1 & Hi1 & Hd1 & Hse1).
  destruct (append_ok (items f) (Some (length h)) h1 Hi1)
    as (its & h2 & old & Happ & Hold & Hnew & Hwf2 & Hlen2 & Hle2 & Hframe2 & Harr2).
  assert (length h1 = S (length h)) as Hl1.
  { unfold h1. rewrite length_insert, length_app. simpl. lia. }
  assert (h2 !! fc = Some (Object (OFlowchart f1))) as Hcell2.
  { eapply append_obj; [exact Hi1|exact Happ|]. unfold h1. apply list_lookup_insert_eq.
    rewrite length_app. lia. }
  set (h3 := <[fc := Object (OFlowchart (set_items its f1))]> h2).
  assert (store fc (Object (OFlowchart (set_items its f1))) h2 = Some h3) as Hst3
    by (apply store_is_Some; lia).
  exists its, h3. split.
  { unfold assign. rewrite Hst1. simpl. rewrite Ei, Happ. simpl. by rewrite Hst3. }
  split.
  { eapply assign_deref. exact Hst3. }
  split; [|split].
  - eapply fields_ok_store_obj; [done..|].
    destruct (slice_append_other _ _ _ _ _ (edges f) Happ Hi1 He1) as [Hse2 Hwe2].
    { intros a Ha Hb. by eapply Hd1. }
    unfold fields_ok. simpl. rewrite Ee. split_and!; try done.
    + intros a Ha Hb. destruct (Harr2 _ Hb) as [Hc| ->].
      * by eapply Hd1.
      * unfold wf_slice in He1. rewrite Ha in He1. destruct He1 as (arr & Harr & _).
        apply load_arr_lt in Harr. lia.
    + by rewrite Hse2.
  - eapply edges_ok_store_flowchart; [done|by apply deref_lookup|].
    eapply edges_ok_append; [exact Hi1|exact Happ|done].
  - unfold h3. rewrite length_insert. lia.
Qed.


Lemma step_ok_same fc c h r es :
  inv fc h es → new_edges [r] = [] →
  (∀ id, c = CallAddNode id → has_node fc h id) →
  (∀ id, c = CallAddSubgraph id → has_subgraph fc h id) →
  step_ok fc c h r h es.
Proof. intros ? Hr ??. unfold step_ok. rewrite Hr, app_nil_r. naive_solver. Qed.

Lemma AddNode_inv fc id h es :
  inv fc h es → ∃ r h', AddNode fc id h = Some (r, h') ∧
                        step_ok fc (CallAddNode id) h (RItem r) h' es.
Proof.
  intros (f & Hfc & Hf & Hes). unfold AddNode. rewrite Hfc. simpl.
  destruct (nodes f !! id) as [n|] eqn:En.
  - eexists _, _. split; [done|]. apply step_ok_same; [by exists f|done| |done].
    intros ? [= <-]. exists f. by rewrite En.
  - simpl.
    destruct (add_item_inv fc f (set_nodes (<[id := length h]> (nodes f)) f)
                (ONode {| node_id := id; node_Shape := NShapeRect; node_rest := zero |})
                h es Hfc Hf Hes eq_refl eq_refl) as (its & h' & E & Hfc' & Hf' & Hes' & Hle).
    eexists _, _. split; [exact E|]. unfold step_ok. simpl. rewrite app_nil_r.
    split; [by eexists|]. split; [done|]. split_and!.
    + intros i (f0 & Hf0 & Hi). eexists. split; [exact Hfc'|]. simpl.
      simplify_eq. destruct (decide (id = i)) as [->|].
      * by rewrite lookup_insert_eq.
      * by rewrite lookup_insert_ne.
    + intros i (f0 & Hf0 & Hi). eexists. split; [exact Hfc'|]. simpl. by simplify_eq.
    + intros ? [= <-]. eexists. split; [exact Hfc'|]. simpl. by rewrite lookup_insert_eq.
    + done.
Qed.

Lemma AddSubgraph_inv fc id h es :
  inv fc h es → ∃ r h', AddSubgraph fc id h = Some (r, h') ∧
                        step_ok fc (CallAddSubgraph id) h (RItem r) h' es.
Proof.
  intros (f & Hfc & Hf & Hes). unfold AddSubgraph. rewrite Hfc. simpl.
  destruct (subgraphs f !! id) as [n|] eqn:En.
  - eexists _, _. split; [done|]. apply step_ok_same; [by exists f|done|done|].
    intros ? [= <-]. exists f. by rewrite En.
  - simpl.
    destruct (add_item_inv fc f (set_subgraphs (<[id := length h]> (subgraphs f)) f)
                (OSubgraph {| subgraph_id := id; subgraph_flowchart := Some fc;
                              subgraph_rest := zero |})
                h es Hfc Hf Hes eq_refl eq_refl) as (its & h' & E & Hfc' & Hf' & Hes' & Hle).
    eexists _, _. split; [exact E|]. unfold step_ok. simpl. rewrite app_nil_r.
    split; [by eexists|]. split; [done|]. split_and!.
    + intros i (f0 & Hf0 & Hi). eexists. split; [exact Hfc'|]. simpl. by simplify_eq.
    + intros i (f0 & Hf0 & Hi). eexists. split; [exact Hfc'|]. simpl.
      simplify_eq. destruct (decide (id = i)) as [->|].
      * by rewrite lookup_insert_eq.
      * by rewrite lookup_insert_ne.
    + done.
    + intros ? [= <-]. eexists. split; [exact Hfc'|]. simpl. by rewrite lookup_insert_eq.
Qed.

(** A new style: a new struct and a new entry in one of the style maps. *)
Lemma add_style_inv fc f f1 (c : object) h es (cl : call) (r : result) :
  deref h fc = Some f → fields_ok h f es → edges_ok h es →
  edges f1 = edges f → items f1 = items f →
  nodes f1 = nodes f → subgraphs f1 = subgraphs f →
  new_edges [r] = [] → (∀ id, cl ≠ CallAddNode id) → (∀ id, cl ≠ CallAddSubgraph id) →
  ∃ h', assign fc f1 (h ++ [Object c]) = Some h' ∧ step_ok fc cl h r h' es.
Proof.
  intros Hfc Hf Hes Ee Ei En Es Hr Hn Hs.
  pose proof (deref_lt _ _ _ Hfc) as Hlt.
  pose proof (proj1 (deref_lookup _ _ _) Hfc) as Hcell.
  set (h1 := <[fc := Object (OFlowchart f1)]> (h ++ [Object c])).
  assert (store fc (Object (OFlowchart f1)) (h ++ [Object c]) = Some h1) as Hst1
    by (apply store_is_Some; rewrite length_app; lia).
  assert ((h ++ [Object c]) !! fc = Some (Object (OFlowchart f))) as Hcell0
    by by apply lookup_app_l_Some.
  exists h1. split; [done|]. unfold step_ok. rewrite Hr, app_nil_r.
  assert (deref h1 fc = Some f1) as Hfc1 by by eapply assign_deref.
  split_and!.
  - exists f1. split; [done|]. split.
    + eapply fields_ok_store_obj; [done..|].
      apply fields_ok_alloc. destruct Hf as (? & ? & ? & ?).
      unfold fields_ok. by rewrite Ee, Ei.
    + eapply edges_ok_store_flowchart; [done|by apply deref_lookup|].
      by apply edges_ok_alloc.
  - unfold h1. rewrite length_insert, length_app. lia.
  - intros i (f0 & Hf0 & Hi). exists f1. split; [done|]. rewrite En. by simplify_eq.
  - intros i (f0 & Hf0 & Hi). exists f1. split; [done|]. rewrite Es. by simplify_eq.
  - intros id ->. by destruct (Hn id).
  - intros id ->. by destruct (Hs id).
Qed.

Lemma NodeStyle_inv fc id h es :
  inv fc h es → ∃ r h', Flowchart_NodeStyle fc id h = Some (r, h') ∧
                        step_ok fc (CallNodeStyle id) h (RStyle r) h' es.
Proof.
  intros (f & Hfc & Hf & Hes). unfold Flowchart_NodeStyle. rewrite Hfc. simpl.
  destruct (nodeStyles f !! id) as [n|] eqn:En.
  - eexists _, _. split; [done|]. apply step_ok_same; [by exists f|done..].
  - simpl.
    destruct (add_style_inv fc f (set_nodeStyles (<[id := length h]> (nodeStyles f)) f)
                (ONodeStyle {| nodeStyle_id := id; nodeStyle_StrokeWidth := 1;
                               nodeStyle_rest := zero |})
                h es (CallNodeStyle id) (RStyle (length h))
                Hfc Hf Hes eq_refl eq_refl eq_refl eq_refl eq_refl)
      as (h' & E & Hok); [done..|].
    unfold assign in *. eexists _, _. rewrite E. simpl. eauto.
Qed.

Lemma EdgeStyle_inv fc id h es :
  inv fc h es → ∃ r h', Flowchart_EdgeStyle fc id h = Some (r, h') ∧
                        step_ok fc (CallEdgeStyle id) h (RStyle r) h' es.
Proof.
  intros (f & Hfc & Hf & Hes). unfold Flowchart_EdgeStyle. rewrite Hfc. simpl.
  destruct (edgeStyles f !! id) as [n|] eqn:En.
  - eexists _, _. split; [done|]. apply step_ok_same; [by exists f|done..].
  - simpl.
    destruct (add_style_inv fc f (set_edgeStyles (<[id := length h]> (edgeStyles f)) f)
                (OEdgeStyle {| edgeStyle_id := id; edgeStyle_StrokeWidth := 1;
                               edgeStyle_rest := zero |})
                h es (CallEdgeStyle id) (RStyle (length h))
                Hfc Hf Hes eq_refl eq_refl eq_refl eq_refl eq_refl)
      as (h' & E & Hok); [done..|].
    unfold assign in *. eexists _, _. rewrite E. simpl. eauto.
Qed.

Lemma ListEdges_inv fc h es :
  inv fc h es →
  ListEdges fc h = Some (Slice (Some (length h)) (length es) (length es),
                         h ++ [Array (Some <$> es)]) ∧
  step_ok fc CallListEdges h (RSlice (Slice (Some (length h)) (length es) (length es)))
          (h ++ [Array (Some <$> es)]) es.
Proof.
  intros (f & Hfc & Hf & Hes). unfold ListEdges. rewrite Hfc. simpl.
  pose proof Hf as (He & Hi & Hd & Hse).
  pose proof (slice_elems_length _ _ _ Hse) as Hl. rewrite length_fmap in Hl.
  rewrite (clone_fresh _ _ _ Hse). rewrite <- Hl. split; [done|].
  assert (deref (h ++ [Array (Some <$> es)]) fc = Some f) as Hfc'.
  { apply deref_lookup. apply lookup_app_l_Some. by apply deref_lookup. }
  unfold step_ok. simpl. rewrite app_nil_r. split_and!; try done.
  - exists f. split; [done|]. split; [by apply fields_ok_alloc|by apply edges_ok_alloc].
  - rewrite length_app. lia.
  - intros i (f0 & Hf0 & Hi'). exists f. split; [done|]. by simplify_eq.
  - intros i (f0 & Hf0 & Hi'). exists f. split; [done|]. by simplify_eq.
Qed.

Lemma AddEdge_inv fc from to h es :
  inv fc h es →
  ∃ h', AddEdge fc from to h = Some (length h, h') ∧
        step_ok fc (CallAddEdge from to) h (REdge (length h)) h' es.
Proof.
  intros (f & Hfc & Hf & Hes). unfold AddEdge. rewrite Hfc. simpl.
  pose proof (deref_lt _ _ _ Hfc) as Hlt.
  pose proof (proj1 (deref_lookup _ _ _) Hfc) as Hcell.
  set (e0 := {| edge_From := from; edge_To := to; edge_Shape := EShapeArrow;
                edge_id := 0; edge_rest := zero |}).
  set (h1 := h ++ [Object (OEdge e0)]).
  assert (fields_ok h1 f es) as (He1 & Hi1 & Hd1 & Hse1) by by apply fields_ok_alloc.
  assert (edges_ok h1 es) as Hes1 by by apply edges_ok_alloc.
  assert (h1 !! fc = Some (Object (OFlowchart f))) as Hcell1 by by apply lookup_app_l_Some.
  assert (h1 !! length h = Some (Object (OEdge e0))) as Hedge1
    by by apply list_lookup_middle.
  assert (length h1 = S (length h)) as Hl1 by (unfold h1; rewrite length_app; simpl; lia).
  destruct (append_ok (edges f) (Some (length h)) h1 He1)
    as (s' & h2 & old & Happ & Hold & Hnew & Hwf2 & Hlen2 & Hle2 & Hframe2 & Harr2).
  rewrite Happ. simpl.
  assert (h2 !! fc = Some (Object (OFlowchart f))) as Hcell2
    by (eapply append_obj; [exact He1|exact Happ|done]).
  assert (h2 !! length h = Some (Object (OEdge e0))) as Hedge2
    by (eapply append_obj; [exact He1|exact Happ|done]).
  set (f' := set_edges s' f).
  set (h3 := <[fc := Object (OFlowchart f')]> h2).
  assert (store fc (Object (OFlowchart f')) h2 = Some h3) as Hst3
    by (apply store_is_Some; lia).
  unfold assign. rewrite Hst3. simpl.
  assert (h3 !! length h = Some (Object (OEdge e0))) as Hedge3.
  { unfold h3. rewrite list_lookup_insert_ne by lia. done. }
  rewrite (proj2 (load_Edge_lookup _ _ _) Hedge3). simpl.
  set (x := set_edge_id (Z.of_nat (s_len s') - 1) e0).
  set (h4 := <[length h := Object (OEdge x)]> h3).
  assert (length h3 = length h2) as Hl3 by (unfold h3; by rewrite length_insert).
  assert (store (length h) (Object (OEdge x)) h3 = Some h4) as Hst4
    by (apply store_is_Some; lia).
  rewrite Hst4. simpl. eexists. split; [done|].
  assert (Some <$> es = old) as <- by congruence.
  pose proof (slice_elems_length _ _ _ Hse1) as Hl. rewrite length_fmap in Hl.
  destruct (slice_append_other _ _ _ _ _ (items f) Happ He1 Hi1) as [Hsi2 Hwi2].
  { intros a Ha Hb. by eapply Hd1. }
  assert (deref h4 fc = Some f') as Hfc4.
  { apply deref_lookup. unfold h4. rewrite list_lookup_insert_ne by lia.
    unfold h3. apply list_lookup_insert_eq. lia. }
  unfold step_ok. simpl. split_and!.
  - exists f'. split; [done|]. split.
    + eapply fields_ok_store_obj; [exact Hst4|exact Hedge3|].
      eapply fields_ok_store_obj; [exact Hst3|exact Hcell2|].
      unfold fields_ok. simpl. split_and!; try done.
      * intros a Ha Hb. destruct (Harr2 _ Ha) as [Hc| ->].
        -- by eapply Hd1.
        -- unfold wf_slice in Hi1. rewrite Hb in Hi1. destruct Hi1 as (arr & Harr & _).
           apply load_arr_lt in Harr. lia.
      * by rewrite Hnew, fmap_app.
    + intros n e Hn. destruct (decide (n < length es)) as [Hlt'|Hge].
      * rewrite lookup_app_l in Hn by done.
        destruct (Hes n e Hn) as (y & Hy & Hid). exists y. split; [|done].
        apply load_Edge_lookup. apply load_Edge_lookup in Hy.
        assert (e < length h) by by eapply lookup_lt_Some.
        assert (fc ≠ e) by (intros ->; congruence).
        unfold h4, h3. rewrite list_lookup_insert_ne by lia.
        rewrite list_lookup_insert_ne by done.
        eapply append_obj; [exact He1|exact Happ|]. by apply lookup_app_l_Some.
      * rewrite lookup_app_r in Hn by lia.
        destruct (n - length es) as [|k] eqn:Ek; [|by destruct k].
        simpl in Hn. simplify_eq. exists x. split.
        -- apply load_Edge_lookup. unfold h4. apply list_lookup_insert_eq. lia.
        -- simpl. lia.
  - unfold h4, h3. rewrite !length_insert. lia.
  - intros i (f0 & Hf0 & Hi'). exists f'. split; [done|]. by simplify_eq.
  - intros i (f0 & Hf0 & Hi'). exists f'. split; [done|]. by simplify_eq.
  - done.
  - done.
Qed.

Lemma do_call_inv fc c h es :
  inv fc h es → ∃ r h', do_call fc c h = Some (r, h') ∧ step_ok fc c h r h' es.
Proof.
  intros Hinv. destruct c as [id|id|id|id|from to|]; simpl.
  - destruct (NodeStyle_inv fc id h es Hinv) as (r & h' & -> & ?). simpl. eauto.
  - destruct (EdgeStyle_inv fc id h es Hinv) as (r & h' & -> & ?). simpl. eauto.
  - destruct (AddSubgraph_inv fc id h es Hinv) as (r & h' & -> & ?). simpl. eauto.
  - destruct (AddNode_inv fc id h es Hinv) as (r & h' & -> & ?). simpl. eauto.
  - destruct (AddEdge_inv fc from to h es Hinv) as (h' & -> & ?). simpl. eauto.
  - destruct (ListEdges_inv fc h es Hinv) as (-> & ?). simpl. eauto.
Qed.

Lemma new_edges_cons r rs : new_edges (r :: rs) = new_edges [r] ++ new_edges rs.
Proof. unfold new_edges. simpl. by destruct r. Qed.

(** Every run of calls on a well-formed diagram goes through, and keeps
    the diagram well formed. *)
Lemma run_inv fc cs : ∀ h es,
  inv fc h es →
  ∃ rs h', run fc cs h = Some (rs, h') ∧ inv fc h' (es ++ new_edges rs) ∧
    (∀ id, has_node fc h id → has_node fc h' id) ∧
    (∀ id, has_subgraph fc h id → has_subgraph fc h' id) ∧
    (∀ id, CallAddNode id ∈ cs → has_node fc h' id) ∧
    (∀ id, CallAddSubgraph id ∈ cs → has_subgraph fc h' id).
Proof.
  induction cs as [|c cs IH]; intros h es Hinv; simpl.
  - eexists _, _. split; [done|]. rewrite app_nil_r. split_and!; try done.
    + intros id Hin. by apply elem_of_nil in Hin.
    + intros id Hin. by apply elem_of_nil in Hin.
  - destruct (do_call_inv fc c h es Hinv) as (r & h1 & -> & Hinv1 & _ & Hn1 & Hs1 & Hcn & Hcs).
    simpl. destruct (IH h1 _ Hinv1) as (rs & h' & -> & Hinv' & Hn' & Hs' & Hin & His).
    simpl. eexists _, _. split; [done|].
    rewrite new_edges_cons, app_assoc. split_and!; try done.
    + auto.
    + auto.
    + intros id [Heq|Hin']%elem_of_cons; auto.
    + intros id [Heq|Hin']%elem_of_cons; auto.
Qed.

(** A new Flowchart is well formed, with no edge. *)
Lemma NewFlowchart_inv (h0 : heap) :
  inv (NewFlowchart h0).1 (NewFlowchart h0).2 [].
Proof.
  unfold NewFlowchart, alloc. simpl. eexists. split.
  { apply deref_lookup. by apply list_lookup_middle. }
  split; [|by intros n e Hn].
  unfold fields_ok, wf_slice, slice_elems. simpl. split_and!; try done.
Qed.

End FlowchartFacts.

(** *** Flowchart: identifiers and edge indices *)

Section FlowchartClaims.
Import Go flowchart.
Context `{Declarations} `{Growth}.
Local Abbreviation heap := (Go.heap object).

Lemma AddNode_duplicate fc id (h : heap) : has_node fc h id → AddNode fc id h = Some (None, h).
Proof. intros (f & Hfc & [n Hn]). unfold AddNode. by rewrite Hfc; simpl; rewrite Hn. Qed.

Lemma AddSubgraph_duplicate fc id (h : heap) :
  has_subgraph fc h id → AddSubgraph fc id h = Some (None, h).
Proof. intros (f & Hfc & [n Hn]). unfold AddSubgraph. by rewrite Hfc; simpl; rewrite Hn. Qed.

(** C3. After any sequence of calls on a new Flowchart in which AddNode
    (AddSubgraph) was called with [id], a further AddNode (AddSubgraph)
    with [id] returns nil and leaves the heap as it is: the maps, the
    number of entities and the rendering order [fc.items] are untouched. *)
Theorem duplicate_add_is_refused (h0 : heap) (cs1 cs2 : list call) (id : string) :
  let fc := (NewFlowchart h0).1 in
  (∃ rs h, run fc (cs1 ++ CallAddNode id :: cs2) (NewFlowchart h0).2 = Some (rs, h) ∧
           AddNode fc id h = Some (None, h)) ∧
  (∃ rs h, run fc (cs1 ++ CallAddSubgraph id :: cs2) (NewFlowchart h0).2 = Some (rs, h) ∧
           AddSubgraph fc id h = Some (None, h)).
Proof.
  intros fc. pose proof (NewFlowchart_inv h0) as Hinv. split.
  - destruct (run_inv fc (cs1 ++ CallAddNode id :: cs2) _ _ Hinv)
      as (rs & h & Hrun & _ & _ & _ & Hn & _).
    exists rs, h. split; [done|]. apply AddNode_duplicate, Hn.
    apply elem_of_app. right. apply elem_of_cons. by left.
  - destruct (run_inv fc (cs1 ++ CallAddSubgraph id :: cs2) _ _ Hinv)
      as (rs & h & Hrun & _ & _ & _ & _ & Hs).
    exists rs, h. split; [done|]. apply AddSubgraph_duplicate, Hs.
    apply elem_of_app. right. apply elem_of_cons. by left.
Qed.

Lemma GetEdge_inv fc (h : heap) es n e :
  inv fc h es → es !! n = Some e → GetEdge fc (Z.of_nat n) h = Some (Some e).
Proof.
  intros (f & Hfc & (He & Hi & Hd & Hse) & Hes) Hn. unfold GetEdge. rewrite Hfc. simpl.
  pose proof (slice_elems_length _ _ _ Hse) as Hl. rewrite length_fmap in Hl.
  pose proof (lookup_lt_Some _ _ _ Hn).
  rewrite decide_False by lia. unfold slice_get. rewrite Hse. simpl.
  rewrite Nat2Z.id, list_lookup_fmap, Hn. done.
Qed.

(** C4. On a new Flowchart, after any calls [cs] and any further calls
    [cs']: the edge that the n-th AddEdge call of [cs] returned carries the
    index n, right after [cs] and still after [cs']; GetEdge(n) returns it;
    ListEdges returns all edges in the order of the AddEdge calls. *)
Theorem edge_index_is_call_order (h0 : heap) (cs cs' : list call) :
  let fc := (NewFlowchart h0).1 in
  ∃ rs h rs' h' s h'',
    run fc cs (NewFlowchart h0).2 = Some (rs, h) ∧
    run fc cs' h = Some (rs', h') ∧
    ListEdges fc h' = Some (s, h'') ∧
    slice_elems h'' s = Some (Some <$> (new_edges rs ++ new_edges rs')) ∧
    ∀ n e, new_edges rs !! n = Some e →
      edge_id <$> load_Edge h e = Some (Z.of_nat n) ∧
      edge_id <$> load_Edge h' e = Some (Z.of_nat n) ∧
      GetEdge fc (Z.of_nat n) h' = Some (Some e).
Proof.
  intros fc. pose proof (NewFlowchart_inv h0) as Hinv.
  destruct (run_inv fc cs _ _ Hinv) as (rs & h & Hrun & Hinv1 & _).
  destruct (run_inv fc cs' _ _ Hinv1) as (rs' & h' & Hrun' & Hinv2 & _).
  simpl in Hinv1, Hinv2.
  destruct (ListEdges_inv fc h' _ Hinv2) as [Hlist _].
  eexists rs, h, rs', h', _, _. split_and!; try done.
  - unfold slice_elems, backing. simpl. rewrite load_arr_alloc. simpl.
    rewrite decide_True by (by rewrite length_fmap).
    by rewrite <- (length_fmap Some), firstn_all.
  - intros n e Hn. split_and!.
    + destruct Hinv1 as (f & _ & _ & Hes). destruct (Hes n e Hn) as (x & -> & <-). done.
    + destruct Hinv2 as (f & _ & _ & Hes).
      destruct (Hes n e) as (x & -> & <-); [|done]. by apply lookup_app_l_Some.
    + eapply GetEdge_inv; [done|]. by apply lookup_app_l_Some.
Qed.

End FlowchartClaims.

(** *** The list operations hand out copies *)

Section ListClaims.
Import Go.
Context `{flowchart.Declarations} `{gantt.Declarations} `{Growth}.

(** C10. Each list operation returns a slice in a newly allocated array
    that holds the stored pointers (in storage order for ListEdges,
    ListSections and ListLocalTasks; in the order of the map's visit for
    ListNodes and ListSubgraphs, which have an outcome for every such
    order). Overwriting slots of that slice or
    appending to it, any number of times, changes no cell of the heap the
    diagram lives in: the diagram's struct, its maps, its slices and its
    entities stay as they were. *)
Theorem list_results_are_fresh_copies :
  (∀ fc (h : heap flowchart.object) f es,
     flowchart.deref h fc = Some f → slice_elems h (flowchart.edges f) = Some es →
     (∃ r, flowchart.ListEdges fc h = Some r ∧ fresh_copy h es r) ∧
     (∃ r, flowchart.ListNodes fc h r) ∧
     (∀ r, flowchart.ListNodes fc h r →
        ∃ r' vs, r = Some r' ∧ vs ≡ₚ (map_to_list (flowchart.nodes f)).*2 ∧
                 fresh_copy h (Some <$> vs) r') ∧
     (∃ r, flowchart.ListSubgraphs fc h r) ∧
     (∀ r, flowchart.ListSubgraphs fc h r →
        ∃ r' vs, r = Some r' ∧ vs ≡ₚ (map_to_list (flowchart.subgraphs f)).*2 ∧
                 fresh_copy h (Some <$> vs) r')) ∧
  (∀ g (h : heap gantt.object) x ss ts,
     gantt.deref h g = Some x →
     slice_elems h (gantt.sections x) = Some ss → slice_elems h (gantt.tasks x) = Some ts →
     (∃ r, gantt.ListSections g h = Some r ∧ fresh_copy h ss r) ∧
     (∃ r, gantt.ListLocalTasks g h = Some r ∧ fresh_copy h ts r)).
Proof.
  split.
  - intros fc h f es Hfc Hes. split_and!.
    + unfold flowchart.ListEdges. rewrite Hfc. simpl.
      rewrite (clone_fresh _ _ _ Hes). eexists. split; [done|].
      rewrite <- (slice_elems_length _ _ _ Hes). apply fresh_copy_intro.
    + eexists. apply (flowchart.ListNodes_range fc h f (map_to_list (flowchart.nodes f)));
        [done | by unfold range_order].
    + intros r Hr. destruct Hr as [f' order Hfc' Hord]. simplify_eq.
      unfold flowchart.ListNodes_in. rewrite Hfc. cbn [mbind option_bind].
      exists (Slice (Some (length h)) (length (Some <$> order.*2)) (length (Some <$> order.*2)),
              h ++ [Array (Some <$> order.*2)]), (order.*2).
      split_and!.
      * apply append_all_make.
        rewrite !length_fmap, (Permutation_length Hord). symmetry. apply length_map_to_list.
      * unfold range_order in Hord. by rewrite Hord.
      * apply fresh_copy_intro.
    + eexists.
      apply (flowchart.ListSubgraphs_range fc h f (map_to_list (flowchart.subgraphs f)));
        [done | by unfold range_order].
    + intros r Hr. destruct Hr as [f' order Hfc' Hord]. simplify_eq.
      unfold flowchart.ListSubgraphs_in. rewrite Hfc. cbn [mbind option_bind].
      exists (Slice (Some (length h)) (length (Some <$> order.*2)) (length (Some <$> order.*2)),
              h ++ [Array (Some <$> order.*2)]), (order.*2).
      split_and!.
      * apply append_all_make.
        rewrite !length_fmap, (Permutation_length Hord). symmetry. apply length_map_to_list.
      * unfold range_order in Hord. by rewrite Hord.
      * apply fresh_copy_intro.
  - intros g h x ss ts Hg Hss Hts. split.
    + unfold gantt.ListSections. rewrite Hg. simpl.
      rewrite (clone_fresh _ _ _ Hss). eexists. split; [done|].
      rewrite <- (slice_elems_length _ _ _ Hss). apply fresh_copy_intro.
    + unfold gantt.ListLocalTasks. rewrite Hg. simpl.
      rewrite (clone_fresh _ _ _ Hts). eexists. split; [done|].
      rewrite <- (slice_elems_length _ _ _ Hts). apply fresh_copy_intro.
Qed.

End ListClaims.

(** *** Gantt: construction and the empty diagram *)

Section GanttClaims.
Import Go gantt.
Context `{Declarations} `{!Methods} `{Growth}.
Local Abbreviation heap := (Go.heap object).

Lemma gantt_deref_lookup (h : heap) g x : deref h g = Some x ↔ h !! g = Some (Object (OGantt x)).
Proof. unfold deref, load_obj. destruct (h !! g) as [[[]|]|]; naive_solver. Qed.

Lemma assign_new (h : heap) (c : object) x :
  assign (length h) x (h ++ [Object c]) = Some (h ++ [Object (OGantt x)]).
Proof.
  unfold assign. rewrite store_is_Some by (rewrite length_app; simpl; lia).
  by rewrite insert_alloc.
Qed.

(** C7. A Gantt diagram as NewGantt() returns it (no title, no
    axisFormat, no tasks, no sections) renders to the two header lines,
    exactly. *)
Theorem new_gantt_renders_header (h0 : heap) :
  ∃ g h, NewGantt [] h0 = Some ((Some g, None), h) ∧
         String g h = Some ("gantt" +:+ LF +:+ "dateFormat YYYY-MM-DDTHH:mm:ssZ" +:+ LF).
Proof.
  eexists _, _. split; [reflexivity|].
  unfold String, deref, load_obj. rewrite list_lookup_middle by done. reflexivity.
Qed.

(** C8. When the Title value is no string, or the AxisFormat value is
    neither an axisFormat nor a string, NewGantt returns an error and a nil
    diagram. *)
Theorem NewGantt_rejects_wrong_types (init : list any) (h0 : heap) :
  wrong_Title init || wrong_AxisFormat init = true →
  ∃ msg h, NewGantt init h0 = Some ((None, Some msg), h).
Proof.
  intros Hw. unfold NewGantt. simpl.
  destruct init as [|t [|a rest]]; simpl in *.
  - done.
  - unfold wrong_Title in Hw. simpl in Hw.
    destruct t; try done; rewrite assign_new; simpl; eauto.
  - unfold wrong_Title, wrong_AxisFormat in Hw. simpl in Hw.
    destruct a; simpl; eauto; rewrite assign_new; simpl;
      destruct t; simpl in Hw; try done; rewrite assign_new; simpl; eauto.
Qed.

End GanttClaims.

(** *** Gantt: the listing of all tasks *)

Section SortFacts.
Import Go.

Lemma ltb_leb (a b : string) : String.ltb b a = negb (String.leb a b).
Proof.
  unfold String.ltb, String.leb. rewrite (String.compare_antisym b a).
  by destruct (String.compare a b).
Qed.

Lemma SliceIsSorted_cons {A} (less : A → A → bool) x l :
  SliceIsSorted less (x :: l) → SliceIsSorted less l.
Proof. intros Hs i a b Ha Hb. by apply (Hs (S i) a b). Qed.

Lemma SliceIsSorted_Sorted {A} (less : A → A → bool) (l : list A) :
  SliceIsSorted less l ↔ Sorted (λ x y, less y x = false) l.
Proof.
  split.
  - induction l as [|x l IH]; intros Hs; [constructor|].
    constructor; [eapply IH, SliceIsSorted_cons, Hs|].
    destruct l as [|y l]; constructor. by apply (Hs 0 x y).
  - induction 1 as [|x l Hl IH Hhd]; intros i a b Ha Hb; [done|].
    destruct i as [|i]; simpl in *.
    + simplify_eq. destruct l; simplify_eq/=. by inversion Hhd.
    + by apply (IH i a b).
Qed.

Lemma Permutation_fmap_eq {A B} (f : A → B) (l1 : list A) : ∀ l2,
  l1 ≡ₚ l2 → f <$> l1 = f <$> l2 → NoDup (f <$> l1) → l1 = l2.
Proof.
  induction l1 as [|a l1 IH]; intros [|b l2] Hp Hf Hnd; try done.
  rewrite !fmap_cons in Hf, Hnd. injection Hf as Hab Hf.
  apply NoDup_cons in Hnd as [Hnotin Hnd].
  assert (a ∈ b :: l2) as Hin by (rewrite <- Hp; left).
  apply elem_of_cons in Hin as [->|Hin].
  - f_equal. apply IH; [by eapply Permutation_cons_inv|done..].
  - destruct Hnotin. rewrite Hf. by apply list_elem_of_fmap_2.
Qed.

Lemma Sorted_weaken {A} (R1 R2 : relation A) (l : list A) :
  (∀ x y, x ∈ l → y ∈ l → R1 x y → R2 x y) → Sorted R1 l → Sorted R2 l.
Proof.
  intros HR Hs. induction Hs as [|x l Hl IH Hhd]; [constructor|].
  constructor.
  - apply IH. intros a b Ha Hb. apply HR; by right.
  - destruct Hhd as [|y l' Hxy]; constructor. apply HR; [by left|by right; left|done].
Qed.

End SortFacts.

Section GanttList.
Import Go gantt.
Context `{Declarations} `{!Methods} `{Growth}.
Local Abbreviation heap := (Go.heap object).

Lemma id_at_app (h l : heap) t : is_Some (id_at h t) → id_at (h ++ l) t = id_at h t.
Proof.
  unfold id_at, load_Task, load_obj. destruct t as [p|]; simpl; [|by intros [? ?]].
  destruct (h !! p) as [c|] eqn:E; simpl; [|by intros [? ?]].
  by rewrite (lookup_app_l_Some _ _ _ _ E).
Qed.

Lemma less_key (h : heap) a b :
  is_Some (id_at h a) → is_Some (id_at h b) → less h a b = String.ltb (key h a) (key h b).
Proof. unfold less, key. by intros [x ->] [y ->]. Qed.

(** What a call of ListTasks leaves: a new array with the table's tasks in
    some sorted arrangement. *)
Lemma ListTasks_outcome g (h : heap) x r :
  deref h g = Some x → ListTasks g h r →
  ∃ order after,
    order ≡ₚ map_to_list (tasksMap x) ∧ after ≡ₚ order.*2 ∧
    SliceIsSorted (less (h ++ [Array (order.*2)])) after ∧
    (2 ≤ length after →
       Forall (λ t, is_Some (id_at (h ++ [Array (order.*2)]) t)) (order.*2)) ∧
    r = (Slice (Some (length h)) (length after) (length after), h ++ [Array after]).
Proof.
  intros Hg Hr. destruct Hr as [x' order allTasks h1 h2 Hg' Hord Hfill Hsort].
  simplify_eq. assert (size (tasksMap x) = length (order.*2)) as Hn.
  { rewrite length_fmap, (Permutation_length Hord). symmetry. apply length_map_to_list. }
  rewrite (append_all_make (order.*2) h _ Hn) in Hfill. simplify_eq.
  destruct Hsort as (a & arr & es & after & Ha & Harr & Hes & Hok & [Hperm Hsorted] & Hst).
  simpl in Ha. simplify_eq. rewrite load_arr_alloc in Harr. simplify_eq.
  unfold slice_elems, backing in Hes. simpl in Hes. rewrite load_arr_alloc in Hes.
  simpl in Hes. rewrite decide_True in Hes by done. rewrite firstn_all in Hes. simplify_eq.
  apply store_Some in Hst as [_ ->]. rewrite insert_alloc. simpl.
  rewrite drop_all, app_nil_r.
  exists order, after. split_and!; try done.
  - intros Hl. apply Hok. by rewrite <- (Permutation_length Hperm).
  - by rewrite (Permutation_length Hperm).
Qed.


Lemma key_app (h l : heap) t : is_Some (id_at h t) → key (h ++ l) t = key h t.
Proof. intros Ht. unfold key. by rewrite id_at_app. Qed.

Local Instance key_le_dec (h : heap) : RelDecision (λ a b, String.le (key h a) (key h b)).
Proof. intros a b. apply _. Defined.

Local Instance key_le_total (h : heap) : Total (λ a b, String.le (key h a) (key h b)).
Proof. intros a b. apply (total String.le). Qed.

Lemma le_not_less (h : heap) a b : String.le (key h a) (key h b) → less h b a = false.
Proof.
  intros Hab. unfold less.
  destruct (id_at h b) as [y|] eqn:Eb; [|done].
  destruct (id_at h a) as [x|] eqn:Ea; [|done].
  unfold key in Hab. rewrite Ea, Eb in Hab. simpl in Hab.
  rewrite ltb_leb. unfold String.le in Hab. by destruct (String.leb x y).
Qed.

Lemma less_sorted_keys (h : heap) (l : list (option ptr)) :
  Forall (λ t, is_Some (id_at h t)) l → SliceIsSorted (less h) l →
  StronglySorted String.le (key h <$> l).
Proof.
  intros Hok Hs. apply (StronglySorted_fmap _ (λ a b, String.le (key h a) (key h b))); [done|].
  apply Sorted_StronglySorted.
  { intros a b c ??. by etrans. }
  apply SliceIsSorted_Sorted in Hs. eapply Sorted_weaken; [|exact Hs].
  intros a b Ha Hb Hab. simpl in Hab. rewrite Forall_forall in Hok.
  rewrite less_key in Hab by (by apply Hok).
  rewrite ltb_leb in Hab. unfold String.le. by destruct (String.leb (key h a) (key h b)).
Qed.

(** A list of zero or one element is sorted whatever it holds. *)
Lemma short_sorted (h : heap) (l : list (option ptr)) :
  length l < 2 → StronglySorted String.le (key h <$> l).
Proof.
  destruct l as [|a [|b l]]; simpl; intros; try lia; repeat constructor.
Qed.


Lemma id_at_alloc_array (h : heap) (a : list (option ptr)) t :
  id_at (h ++ [Array a]) t = id_at h t.
Proof.
  unfold id_at, load_Task, load_obj. destruct t as [p|]; [|done]. simpl.
  destruct (decide (p < length h)) as [Hlt|Hge].
  - by rewrite lookup_app_l.
  - rewrite lookup_app_r by lia. rewrite (lookup_ge_None_2 h) by lia.
    by destruct (p - length h) as [|[|k]].
Qed.

Lemma key_alloc_array (h : heap) (a : list (option ptr)) t :
  key (h ++ [Array a]) t = key h t.
Proof. unfold key. by rewrite id_at_alloc_array. Qed.

Lemma key_fmap_alloc_array (h : heap) (a l : list (option ptr)) :
  key (h ++ [Array a]) <$> l = key h <$> l.
Proof. apply list_fmap_ext. intros. apply key_alloc_array. Qed.

Lemma less_alloc_array (h : heap) (a : list (option ptr)) x y :
  less (h ++ [Array a]) x y = less h x y.
Proof. unfold less. by rewrite !id_at_alloc_array. Qed.

(** The listed tasks are those of the table, their identifiers in
    ascending order: the one sorted arrangement of the table's
    identifiers. *)
Lemma ListTasks_sorted g (h : heap) x s h' :
  deref h g = Some x → ListTasks g h (s, h') →
  ∃ ts, h' = h ++ [Array ts] ∧ s = Slice (Some (length h)) (length ts) (length ts) ∧
        slice_elems h' s = Some ts ∧
        ts ≡ₚ (map_to_list (tasksMap x)).*2 ∧
        StronglySorted String.le (key h' <$> ts) ∧
        key h' <$> ts = merge_sort String.le (key h <$> (map_to_list (tasksMap x)).*2).
Proof.
  intros Hg Hr.
  destruct (ListTasks_outcome g h x _ Hg Hr) as (order & ts & Hord & Hperm & Hs & Hok & E).
  simplify_eq. exists ts.
  assert (ts ≡ₚ (map_to_list (tasksMap x)).*2) as Hall by (by rewrite Hperm, Hord).
  assert (StronglySorted String.le (key (h ++ [Array ts]) <$> ts)) as Hsorted.
  { destruct (decide (length ts < 2)) as [|Hge]; [by apply short_sorted|].
    rewrite key_fmap_alloc_array, <- (key_fmap_alloc_array h (order.*2)).
    apply less_sorted_keys; [|done].
    rewrite Hperm. apply Hok. lia. }
  split_and!; try done.
  - apply fresh_copy_intro.
  - apply (StronglySorted_unique String.le); [done| |].
    + apply StronglySorted_merge_sort; apply _.
    + rewrite merge_sort_Permutation, key_fmap_alloc_array. by rewrite Hall.
Qed.

(** C5. In every state of a Gantt diagram, ListTasks returns (when every
    entry of the task table points to a task) and what it returns is the
    tasks of the table [g.tasksMap], all of them, their identifiers in
    ascending lexicographic order: the sorted arrangement of the table's
    identifiers, whatever the order of the map's visit, of the additions,
    and the sections. With pairwise distinct identifiers there is one
    possible result. The list is computed from the table at the time of
    the call: a task added by AddTask is in the next listing. *)
Theorem ListTasks_sorted_by_id g (h : heap) x :
  deref h g = Some x →
  (tasks_ok h x → ∃ r, ListTasks g h r) ∧
  (∀ s h', ListTasks g h (s, h') →
     ∃ ts, slice_elems h' s = Some ts ∧
           ts ≡ₚ (map_to_list (tasksMap x)).*2 ∧
           StronglySorted String.le (key h' <$> ts) ∧
           key h' <$> ts = merge_sort String.le (key h <$> (map_to_list (tasksMap x)).*2)) ∧
  (NoDup (key h <$> (map_to_list (tasksMap x)).*2) →
     ∀ r1 r2, ListTasks g h r1 → ListTasks g h r2 → r1 = r2) ∧
  (∀ id init t h1, AddTask g id init h = Some ((t, None), h1) →
     ∀ s h', ListTasks g h1 (s, h') → ∃ ts, slice_elems h' s = Some ts ∧ t ∈ ts).
Proof.
  intros Hg. split_and!.
  - intros Hok.
    set (vs := (map_to_list (tasksMap x)).*2).
    set (after := merge_sort (λ a b, String.le (key h a) (key h b)) vs).
    exists (Slice (Some (length h)) (length vs) (length vs), <[length h := Array (after ++ drop (length vs) vs)]> (h ++ [Array vs])).
    eapply (ListTasks_range _ _ x (map_to_list (tasksMap x))); [done|by unfold range_order| |].
    + apply append_all_make. unfold vs. by rewrite length_fmap, length_map_to_list.
    + exists (length h), vs, vs, after. simpl. split_and!; try done.
      * apply load_arr_alloc.
      * apply fresh_copy_intro.
      * intros _. apply Forall_forall. intros t [[k t'] [-> Hin]]%list_elem_of_fmap.
        rewrite id_at_alloc_array. apply elem_of_map_to_list in Hin. by apply (Hok k).
      * split; [apply merge_sort_Permutation|].
        apply SliceIsSorted_Sorted. eapply Sorted_weaken.
        2:{ apply (Sorted_merge_sort (λ a b, String.le (key h a) (key h b))). }
        intros a b _ _ Hab. rewrite less_alloc_array. by apply le_not_less.
      * apply store_is_Some. rewrite length_app. simpl. lia.
  - intros s h' Hr. destruct (ListTasks_sorted g h x s h' Hg Hr) as (ts & _ & _ & ? & ? & ? & ?).
    by exists ts.
  - intros Hnd [s1 h1] [s2 h2] Hr1 Hr2.
    destruct (ListTasks_sorted g h x _ _ Hg Hr1) as (ts1 & -> & -> & _ & Hp1 & _ & Hk1).
    destruct (ListTasks_sorted g h x _ _ Hg Hr2) as (ts2 & -> & -> & _ & Hp2 & _ & Hk2).
    assert (ts1 = ts2) as ->; [|done].
    apply (Permutation_fmap_eq (key h)).
    + by rewrite Hp1, Hp2.
    + rewrite !key_fmap_alloc_array in Hk1, Hk2. congruence.
    + by rewrite Hp1.
  - intros id init t h1 Hadd s h' Hr.
    unfold AddTask in Hadd.
    destruct (taskNew id g None init h) as [[[t' err] h0]|]; [|done]. simpl in Hadd.
    destruct err; [done|].
    destruct (deref h0 g) as [x0|]; [|done]. simpl in Hadd.
    destruct (assign g _ h0) as [h2|]; [|done]. simpl in Hadd.
    destruct (append _ _ h2) as [[ts' h3]|]; [|done]. simpl in Hadd.
    destruct (assign g _ h3) as [h4|] eqn:Hst; [|done]. simpl in Hadd. simplify_eq.
    assert (deref h1 g = Some (set_tasks ts' (set_tasksMap (<[id := t]> (tasksMap x0)) x0)))
      as Hg1.
    { apply gantt_deref_lookup. by eapply store_lookup_eq. }
    destruct (ListTasks_sorted g h1 _ s h' Hg1 Hr) as (ts & _ & _ & Hts & Hp & _).
    exists ts. split; [done|]. rewrite Hp. simpl.
    apply list_elem_of_fmap. exists (id, t). split; [done|].
    apply elem_of_map_to_list. apply lookup_insert_eq.
Qed.

(** ListTasks can be called whenever every entry of the task table points
    to a task. *)
Lemma ListTasks_returns g (h : heap) x :
  deref h g = Some x → tasks_ok h x → ∃ r, ListTasks g h r.
Proof.
  intros Hg Hok.
  set (vs := (map_to_list (tasksMap x)).*2).
  set (after := merge_sort (λ a b, String.le (key h a) (key h b)) vs).
  exists (Slice (Some (length h)) (length vs) (length vs),
          <[length h := Array (after ++ drop (length vs) vs)]> (h ++ [Array vs])).
  eapply (ListTasks_range _ _ x (map_to_list (tasksMap x))); [done|by unfold range_order| |].
  - apply append_all_make. unfold vs. by rewrite length_fmap, length_map_to_list.
  - exists (length h), vs, vs, after. simpl. split_and!; try done.
    + apply load_arr_alloc.
    + apply fresh_copy_intro.
    + intros _. apply Forall_forall. intros t [[k t'] [-> Hin]]%list_elem_of_fmap.
      rewrite id_at_alloc_array. apply elem_of_map_to_list in Hin. by apply (Hok k).
    + split; [apply merge_sort_Permutation|].
      apply SliceIsSorted_Sorted. eapply Sorted_weaken.
      2:{ apply (Sorted_merge_sort (λ a b, String.le (key h a) (key h b))). }
      intros a b _ _ Hab. rewrite less_alloc_array. by apply le_not_less.
    + apply store_is_Some. rewrite length_app. simpl. lia.
Qed.

(** ListTasks sorts a copy: the slice it returns lives in a new array, the
    sort rearranges that array only, and whatever the caller then does to
    the slice, the diagram and its local tasks are as they were. *)
Theorem ListTasks_sorts_a_copy g (h : heap) x s h' :
  deref h g = Some x → ListTasks g h (s, h') →
  ∃ ts, fresh_copy h ts (s, h') ∧ deref h' g = Some x ∧
        ∀ es, slice_elems h (tasks x) = Some es → slice_elems h' (tasks x) = Some es.
Proof.
  intros Hg Hr. destruct (ListTasks_sorted g h x s h' Hg Hr) as (ts & -> & -> & _).
  exists ts. split_and!.
  - apply fresh_copy_intro.
  - apply gantt_deref_lookup. apply lookup_app_l_Some. by apply gantt_deref_lookup.
  - intros es Hes. by apply slice_elems_app.
Qed.

End GanttList.

(** *** Rendering a Flowchart *)

Section StringFacts.

Lemma app_cons c (s t : string) : String c s +:+ t = String c (s +:+ t).
Proof. reflexivity. Qed.

Lemma app_nil_l (t : string) : "" +:+ t = t.
Proof. reflexivity. Qed.

Lemma append_assoc (a b c : string) : (a +:+ b) +:+ c = a +:+ (b +:+ c).
Proof. induction a as [|x a IH]; [done|]. by rewrite !app_cons, IH. Qed.

Lemma append_empty_r (a : string) : a +:+ "" = a.
Proof. induction a as [|x a IH]; [done|]. by rewrite app_cons, IH. Qed.

End StringFacts.

Section RenderFacts.
Import Go flowchart.
Context `{Declarations} `{!Methods}.
Local Abbreviation heap := (Go.heap object).

Lemma render_each_acc {A} (f : A → option string) (xs : list A) : ∀ text,
  render_each f xs text = (λ r, text +:+ r) <$> render_each f xs "".
Proof.
  induction xs as [|x xs IH]; intros text; simpl.
  - by rewrite append_empty_r.
  - destruct (f x) as [r|]; [|done]. simpl.
    rewrite (IH (text +:+ r)), (IH ("" +:+ r)), app_nil_l.
    destruct (render_each f xs ""); [|done]. simpl. by rewrite append_assoc.
Qed.

(** The rendering depends on the order of the visit through the block of
    style lines only. *)
Lemma String_in_block (o1 o2 : list ptr) fc (h : heap) :
  style_block h o1 = style_block h o2 → String_in o1 fc h = String_in o2 fc h.
Proof.
  intros Hb. unfold String_in. destruct (deref h fc) as [f|]; [|done]. simpl.
  destruct (match DefaultEdgeStyle f with Some _ => _ | None => _ end) as [text|]; [|done].
  simpl.
  rewrite (render_each_acc _ o1), (render_each_acc _ o2).
  fold (style_block h o1) (style_block h o2). by rewrite Hb.
Qed.

Lemma range_order_small {V} (m : gmap string V) o1 o2 :
  size m ≤ 1 → range_order m o1 → range_order m o2 → o1 = o2.
Proof.
  unfold range_order. intros Hs H1 H2.
  rewrite <- length_map_to_list in Hs.
  destruct (map_to_list m) as [|x [|y l]]; simpl in Hs; [| |lia].
  - apply Permutation_nil_r in H1. apply Permutation_nil_r in H2. by subst.
  - apply Permutation_singleton_r in H1. apply Permutation_singleton_r in H2. by subst.
Qed.

(** C6. A Flowchart as NewFlowchart returns it renders to the header line
    with the direction TB and two empty lines, exactly; no other outcome is
    possible. *)
Theorem new_flowchart_renders_header (h0 : heap) :
  let fc := (NewFlowchart h0).1 in
  let h := (NewFlowchart h0).2 in
  String fc h (Some ("graph TB" +:+ LF +:+ LF +:+ LF)) ∧
  ∀ r, String fc h r → r = Some ("graph TB" +:+ LF +:+ LF +:+ LF).
Proof.
  intros fc h.
  assert (deref h fc = Some {| nodeStyles := ∅; edgeStyles := ∅; subgraphs := ∅; nodes := ∅;
       edges := nil_slice; items := nil_slice;
       Direction := DirectionTopDown; DefaultEdgeStyle := None |}) as Hfc.
  { unfold deref, load_obj, h, fc, NewFlowchart, alloc. simpl.
    by rewrite list_lookup_middle. }
  assert (String_in [] fc h = Some ("graph TB" +:+ LF +:+ LF +:+ LF)) as Hs.
  { unfold String_in. rewrite Hfc. reflexivity. }
  split.
  - rewrite <- Hs. apply (String_range fc h _ [] Hfc).
    unfold range_order. simpl. by rewrite map_to_list_empty.
  - intros r Hr. destruct Hr as [f order Hf Hord]. simplify_eq.
    unfold range_order in Hord. simpl in Hord. rewrite map_to_list_empty in Hord.
    apply Permutation_nil_r in Hord. by subst.
Qed.

End RenderFacts.

(** *** The encoders: JSON and base64 read back what was written *)

Ltac divmod := zify; Z.to_euclidean_division_equations; lia.

Section JSONFacts.
Import encoding.

Local Ltac each_byte c := destruct c as [[] [] [] [] [] [] [] []].

Lemma prepend_prepend p q r : prepend p (prepend q r) = prepend (p ++ q) r.
Proof. destruct r as [[s rest]|]; [|done]. simpl. by rewrite app_assoc. Qed.

Lemma code_byte n : (n < 256)%N → code (byte n) = n.
Proof. apply N_ascii_embedding. Qed.

Lemma byte_code c : byte (code c) = c.
Proof. apply ascii_N_embedding. Qed.

Lemma code_inj c d : code c = code d → c = d.
Proof. intros E. by rewrite <- (byte_code c), <- (byte_code d), E. Qed.

(** A byte that is no quote, no backslash and no control character stands
    for itself. *)
Lemma parse_plain c X :
  c ≠ quote → c ≠ backslash → (code c <? 0x20)%N = false →
  parse_string (c :: X) = prepend [c] (parse_string X).
Proof.
  intros Hq Hb Hc. cbn [parse_string].
  rewrite (bool_decide_eq_false_2 _ Hq), (bool_decide_eq_false_2 _ Hb), Hc. done.
Qed.

Lemma parse_simple e x X :
  e ≠ byte 0x75 → simple_escape e = Some x →
  parse_string (backslash :: e :: X) = prepend [x] (parse_string X).
Proof.
  intros He Hx. cbn [parse_string].
  rewrite (bool_decide_eq_false_2 (backslash = quote)) by done.
  rewrite (bool_decide_eq_true_2 (backslash = backslash)) by done.
  rewrite (bool_decide_eq_false_2 _ He), Hx. done.
Qed.

Lemma parse_unicode h1 h2 h3 h4 r X :
  hex4 h1 h2 h3 h4 = Some r → (r <? 0xD800)%N = true →
  parse_string (backslash :: byte 0x75 :: h1 :: h2 :: h3 :: h4 :: X)
  = prepend (AppendRune r) (parse_string X).
Proof.
  intros Hr Hlt. cbn [parse_string].
  rewrite (bool_decide_eq_false_2 (backslash = quote)) by done.
  rewrite (bool_decide_eq_true_2 (backslash = backslash)) by done.
  rewrite (bool_decide_eq_true_2 (byte 0x75 = byte 0x75)) by done.
  rewrite Hr. apply N.ltb_lt in Hlt.
  rewrite (proj2 (N.leb_gt 0xD800 r)) by done. done.
Qed.

Lemma hex4_byte c :
  hex4 (byte 0x30) (byte 0x30) (hex (N.shiftr (code c) 4)) (hex (N.land (code c) 0xF))
  = Some (code c).
Proof. each_byte c; vm_compute; reflexivity. Qed.

Lemma AppendRune_ascii c : (code c <? 0x80)%N = true → AppendRune (code c) = [c].
Proof. intros Hc. unfold AppendRune. by rewrite Hc, byte_code. Qed.

(** An ASCII byte, as appendString writes it, reads back as itself. *)
Lemma parse_ascii (c : ascii) (X : bytes) :
  (code c <? 0x80)%N = true →
  parse_string ((if htmlSafe c then [c] else escape_byte c) ++ X)
  = prepend [c] (parse_string X).
Proof.
  intros Hc. destruct (htmlSafe c) eqn:Hs.
  - unfold htmlSafe in Hs. apply andb_true_iff in Hs as [Hr Hn].
    apply andb_true_iff in Hr as [Hlo _]. apply negb_true_iff, bool_decide_eq_false in Hn.
    apply parse_plain.
    + intros ->. apply Hn. set_solver.
    + intros ->. apply Hn. set_solver.
    + apply N.ltb_ge. by apply N.leb_le.
  - unfold escape_byte. repeat case_bool_decide.
    + apply parse_simple; [|]; destruct_or!; by subst.
    + subst. by apply parse_simple.
    + subst. by apply parse_simple.
    + subst. by apply parse_simple.
    + subst. by apply parse_simple.
    + subst. by apply parse_simple.
    + change (parse_string (backslash :: byte 0x75 :: byte 0x30 :: byte 0x30
                :: hex (N.shiftr (code c) 4) :: hex (N.land (code c) 0xF) :: X)
              = prepend [c] (parse_string X)).
      rewrite (parse_unicode _ _ _ _ _ _ (hex4_byte c)).
      * by rewrite AppendRune_ascii.
      * apply N.ltb_lt in Hc. apply N.ltb_lt. lia.
Qed.


Lemma between_spec lo hi c : between lo hi c = true ↔ (lo ≤ code c ≤ hi)%N.
Proof. unfold between. rewrite andb_true_iff, !N.leb_le. done. Qed.

Lemma code_eq c n : code c = n → c = byte n.
Proof. intros <-. by rewrite byte_code. Qed.

(** A well-formed rune that starts with a byte from 0x80 up: it is two to
    four bytes wide, all of them from 0x80 up; the line and paragraph
    separators are E2 80 A8 and E2 80 A9. *)
Lemma DecodeRune_wide b t :
  (code b <? 0x80)%N = false → ill_formed (DecodeRune (b :: t)) = false →
  2 ≤ (DecodeRune (b :: t)).2 ≤ length (b :: t) ∧
  Forall (λ c, (0x80 ≤ code c)%N) (take (DecodeRune (b :: t)).2 (b :: t)) ∧
  ((DecodeRune (b :: t)).1 = 0x2028%N →
     take (DecodeRune (b :: t)).2 (b :: t) = [byte 0xE2; byte 0x80; byte 0xA8]) ∧
  ((DecodeRune (b :: t)).1 = 0x2029%N →
     take (DecodeRune (b :: t)).2 (b :: t) = [byte 0xE2; byte 0x80; byte 0xA9]).
Proof.
  intros Hb. unfold DecodeRune. rewrite Hb. apply N.ltb_ge in Hb.
  destruct (between 0xC2 0xDF b) eqn:H2.
  { apply between_spec in H2. destruct t as [|b1 t]; [done|].
    destruct (between 0x80 0xBF b1) eqn:Hb1; [|done]. apply between_spec in Hb1.
    intros _. simpl. split_and!; try lia. repeat constructor; lia. }
  destruct (between 0xE0 0xEF b) eqn:H3.
  { apply between_spec in H3. destruct t as [|b1 [|b2 t]]; [done..|].
    destruct (between _ _ b1 && between 0x80 0xBF b2) eqn:Hb12; [|done].
    apply andb_true_iff in Hb12 as [Hb1 Hb2].
    apply between_spec in Hb1. apply between_spec in Hb2.
    assert (0x80 ≤ code b1 ≤ 0xBF)%N as Hb1'.
    { destruct (code b =? 0xE0)%N, (code b =? 0xED)%N; lia. }
    intros _. simpl. split_and!; try lia.
    - repeat constructor; lia.
    - intros E. rewrite (code_eq b 0xE2), (code_eq b1 0x80), (code_eq b2 0xA8) by lia. done.
    - intros E. rewrite (code_eq b 0xE2), (code_eq b1 0x80), (code_eq b2 0xA9) by lia. done. }
  destruct (between 0xF0 0xF4 b) eqn:H4; [|done].
  apply between_spec in H4. destruct t as [|b1 [|b2 [|b3 t]]]; [done..|].
  destruct (between _ _ b1 && between 0x80 0xBF b2 && between 0x80 0xBF b3) eqn:Hb123; [|done].
  apply andb_true_iff in Hb123 as [Hb12 Hb3]. apply andb_true_iff in Hb12 as [Hb1 Hb2].
  apply between_spec in Hb1. apply between_spec in Hb2. apply between_spec in Hb3.
  assert (0x80 ≤ code b1 ≤ 0xBF)%N as Hb1'.
  { destruct (code b =? 0xF0)%N, (code b =? 0xF4)%N; lia. }
  assert (code b = 0xF0 → 0x90 ≤ code b1)%N as Hlow.
  { intros E. rewrite E in Hb1. simpl in Hb1. lia. }
  intros _. simpl. split_and!; try lia. repeat constructor; lia.
Qed.


Lemma parse_wide (l : bytes) : ∀ X,
  Forall (λ c, (0x80 ≤ code c)%N) l → parse_string (l ++ X) = prepend l (parse_string X).
Proof.
  induction l as [|c l IH]; intros X Hl.
  - simpl. by destruct (parse_string X) as [[]|].
  - apply Forall_cons in Hl as [Hc Hl].
    change ((c :: l) ++ X) with (c :: (l ++ X)). rewrite parse_plain.
    + by rewrite IH, prepend_prepend.
    + intros ->. vm_compute in Hc. done.
    + intros ->. vm_compute in Hc. done.
    + apply N.ltb_ge. lia.
Qed.

Lemma parse_separator (r : N) X :
  r = 0x2028%N ∨ r = 0x2029%N →
  parse_string ((bs "\u202" ++ [hex (N.land r 0xF)]) ++ X)
  = prepend (AppendRune r) (parse_string X).
Proof.
  intros [-> | ->].
  - change (parse_string (backslash :: byte 0x75 :: byte 0x32 :: byte 0x30 :: byte 0x32
                          :: byte 0x38 :: X) = prepend (AppendRune 0x2028) (parse_string X)).
    by apply parse_unicode.
  - change (parse_string (backslash :: byte 0x75 :: byte 0x32 :: byte 0x30 :: byte 0x32
                          :: byte 0x39 :: X) = prepend (AppendRune 0x2029) (parse_string X)).
    by apply parse_unicode.
Qed.

(** The body of a string as appendString writes it, for well-formed UTF-8,
    reads back as the string. *)
Lemma parse_appendString_loop (fuel : nat) : ∀ (src rest : bytes),
  length src ≤ fuel → valid_loop fuel src = true →
  parse_string (appendString_loop fuel src ++ quote :: rest) = Some (src, rest).
Proof.
  induction fuel as [|fuel IH]; intros src rest Hlen Hvalid.
  - destruct src; [|simpl in Hlen; lia]. reflexivity.
  - destruct src as [|b t]; [reflexivity|].
    cbn [appendString_loop valid_loop] in *.
    destruct (code b <? 0x80)%N eqn:Hb.
    + assert (DecodeRune (b :: t) = (code b, 1)) as Hd by (by unfold DecodeRune; rewrite Hb).
      rewrite Hd in Hvalid. simpl in Hvalid.
      destruct (ill_formed (code b, 1)); [done|].
      rewrite <- app_assoc, parse_ascii by done.
      rewrite IH; [done|simpl in Hlen; lia|done].
    + destruct (ill_formed (DecodeRune (b :: t))) eqn:Hill; [done|].
      destruct (DecodeRune_wide b t Hb Hill) as ([Hn2 Hnl] & Hwide & H28 & H29).
      set (r := DecodeRune (b :: t)) in *.
      assert (parse_string (appendString_loop fuel (drop r.2 (b :: t)) ++ quote :: rest)
              = Some (drop r.2 (b :: t), rest)) as Hrec.
      { apply IH; [|done]. rewrite length_drop. simpl in *. lia. }
      destruct ((r.1 =? 0x2028) || (r.1 =? 0x2029))%N eqn:Hsep.
      * rewrite app_assoc, <- app_assoc, parse_separator, Hrec.
        2:{ apply orb_true_iff in Hsep as [?%N.eqb_eq| ?%N.eqb_eq]; auto. }
        simpl. do 2 f_equal. rewrite <- (take_drop r.2 (b :: t)) at 2. f_equal.
        apply orb_true_iff in Hsep as [E%N.eqb_eq| E%N.eqb_eq]; rewrite E.
        -- by rewrite H28.
        -- by rewrite H29.
      * rewrite <- app_assoc, parse_wide, Hrec by done. simpl.
        by rewrite take_drop.
Qed.

Lemma parse_appendString (s : string) (rest : bytes) :
  ValidString s = true →
  parse_string (appendString_loop (length (bs s)) (bs s) ++ quote :: rest) = Some (bs s, rest).
Proof. intros Hv. by apply parse_appendString_loop. Qed.


Lemma string_of_bs (s : string) : String.string_of_list_ascii (bs s) = s.
Proof. apply String.string_of_list_ascii_of_string. Qed.

Lemma skip_ws_cons c X : is_ws c = false → skip_ws (c :: X) = c :: X.
Proof. intros Hc. cbn [skip_ws]. by rewrite Hc. Qed.

Lemma parse_value_string fuel X :
  parse_value (S fuel) (quote :: X)
  = '(x, rest) ← parse_string X; Some (JString (String.string_of_list_ascii x), rest).
Proof.
  cbn [parse_value]. rewrite skip_ws_cons by done.
  by rewrite (bool_decide_eq_true_2 (quote = quote)).
Qed.

Lemma parse_value_object fuel X :
  parse_value (S fuel) (byte 0x7B :: quote :: X)
  = '(fs, rest) ← parse_members fuel (quote :: X); Some (JObject fs, rest).
Proof.
  cbn [parse_value]. rewrite !skip_ws_cons by done.
  rewrite (bool_decide_eq_false_2 (byte 0x7B = quote)) by done.
  rewrite (bool_decide_eq_true_2 (byte 0x7B = byte 0x7B)) by done.
  by rewrite (bool_decide_eq_false_2 (quote = byte 0x7D)).
Qed.

Lemma parse_members_more fuel X k Y v Z :
  parse_string X = Some (k, byte 0x3A :: Y) →
  parse_value fuel Y = Some (v, byte 0x2C :: Z) →
  parse_members (S fuel) (quote :: X)
  = '(fs, rest) ← parse_members fuel Z; Some ((String.string_of_list_ascii k, v) :: fs, rest).
Proof.
  intros Hk Hv. cbn [parse_members]. rewrite skip_ws_cons by done.
  rewrite (bool_decide_eq_true_2 (quote = quote)) by done.
  rewrite Hk. cbn [mbind option_bind]. rewrite skip_ws_cons by done.
  rewrite (bool_decide_eq_true_2 (byte 0x3A = byte 0x3A)) by done.
  rewrite Hv. cbn [mbind option_bind]. rewrite skip_ws_cons by done.
  by rewrite (bool_decide_eq_true_2 (byte 0x2C = byte 0x2C)).
Qed.

Lemma parse_members_last fuel X k Y v Z :
  parse_string X = Some (k, byte 0x3A :: Y) →
  parse_value fuel Y = Some (v, byte 0x7D :: Z) →
  parse_members (S fuel) (quote :: X) = Some ([(String.string_of_list_ascii k, v)], Z).
Proof.
  intros Hk Hv. cbn [parse_members]. rewrite skip_ws_cons by done.
  rewrite (bool_decide_eq_true_2 (quote = quote)) by done.
  rewrite Hk. cbn [mbind option_bind]. rewrite skip_ws_cons by done.
  rewrite (bool_decide_eq_true_2 (byte 0x3A = byte 0x3A)) by done.
  rewrite Hv. cbn [mbind option_bind]. rewrite skip_ws_cons by done.
  rewrite (bool_decide_eq_false_2 (byte 0x7D = byte 0x2C)) by done.
  by rewrite (bool_decide_eq_true_2 (byte 0x7D = byte 0x7D)).
Qed.

Local Abbreviation body s := (appendString_loop (length (bs s)) (bs s)).

Lemma marshal_payload (text : string) :
  marshal (payload text)
  = byte 0x7B :: quote :: (body "code" ++ quote :: byte 0x3A :: quote ::
      (body text ++ quote :: byte 0x2C :: quote ::
        (body "mermaid" ++ quote :: byte 0x3A :: byte 0x7B :: quote ::
          (body "theme" ++ quote :: byte 0x3A :: quote ::
            (body "default" ++ quote :: [byte 0x7D; byte 0x7D]))))).
Proof.
  unfold payload, marshal, appendString.
  generalize (body text) (body "code") (body "mermaid") (body "theme") (body "default").
  intros L1 L2 L3 L4 L5. cbn [app bs String.list_ascii_of_string].
  repeat (rewrite <- app_assoc; cbn [app]). reflexivity.
Qed.

Lemma parse_value_quoted fuel (s : string) (rest : bytes) :
  ValidString s = true →
  parse_value (S fuel) (quote :: (body s ++ quote :: rest)) = Some (JString s, rest).
Proof.
  intros Hv. rewrite parse_value_string, parse_appendString by done.
  cbn [mbind option_bind]. by rewrite string_of_bs.
Qed.

Lemma parse_payload (text : string) fuel :
  ValidString text = true →
  parse_value (6 + fuel) (marshal (payload text)) = Some (payload text, []).
Proof.
  intros Hv. rewrite marshal_payload. change (6 + fuel) with (S (S (S (S (S (S fuel)))))).
  rewrite parse_value_object.
  erewrite parse_members_more;
    [|by apply (parse_appendString "code")|by apply parse_value_quoted].
  erewrite parse_members_last; [| by apply (parse_appendString "mermaid") |].
  - cbn [mbind option_bind]. rewrite !string_of_bs. reflexivity.
  - rewrite parse_value_object.
    erewrite parse_members_last;
      [|by apply (parse_appendString "theme")|by apply parse_value_quoted].
    cbn [mbind option_bind]. rewrite !string_of_bs. reflexivity.
Qed.

(** What json.Marshal writes for the record reads back as the record,
    when the text is well-formed UTF-8. *)
Lemma Unmarshal_payload (text : string) :
  ValidString text = true → Unmarshal (marshal (payload text)) = Some (payload text).
Proof.
  intros Hv. unfold Unmarshal.
  assert (∃ k, length (marshal (payload text)) = 6 + k) as [k ->].
  { exists (length (marshal (payload text)) - 6).
    assert (6 ≤ length (marshal (payload text))); [|lia].
    rewrite marshal_payload. cbn [length]. rewrite length_app. cbn [length].
    rewrite length_app. cbn [length]. lia. }
  by rewrite parse_payload.
Qed.

(** The escape of U+FFFD reads back as U+FFFD. *)
Lemma parse_replacement X :
  parse_string (bs replacement ++ X) = prepend (AppendRune RuneError) (parse_string X).
Proof.
  change (bs replacement ++ X)
    with (backslash :: byte 0x75 :: byte 0x66 :: byte 0x66 :: byte 0x66 :: byte 0x64 :: X).
  cbn [parse_string].
  rewrite (bool_decide_eq_false_2 (backslash = quote)) by done.
  rewrite (bool_decide_eq_true_2 (backslash = backslash)) by done.
  rewrite (bool_decide_eq_true_2 (byte 0x75 = byte 0x75)) by done.
  change (hex4 (byte 0x66) (byte 0x66) (byte 0x66) (byte 0x64)) with (Some RuneError).
  cbv iota beta.
  change ((0xD800 <=? RuneError) && (RuneError <=? 0xDBFF))%N with false.
  done.
Qed.

Lemma DecodeRune_ascii b t : (code b <? 0x80)%N = true → DecodeRune (b :: t) = (code b, 1).
Proof. intros Hb. unfold DecodeRune. by rewrite Hb. Qed.

Lemma ascii_well_formed b : (code b <? 0x80)%N = true → ill_formed (code b, 1) = false.
Proof.
  intros Hb%N.ltb_lt. unfold ill_formed, RuneError. simpl.
  apply andb_false_iff. left. apply N.eqb_neq. lia.
Qed.

(** The body of a string as appendString writes it, for any bytes, reads
    back as the string coerced to valid UTF-8. *)
Lemma parse_appendString_loop_any (fuel : nat) : ∀ (src rest : bytes),
  length src ≤ fuel →
  parse_string (appendString_loop fuel src ++ quote :: rest)
  = Some (coerce_loop fuel src, rest).
Proof.
  induction fuel as [|fuel IH]; intros src rest Hlen.
  - destruct src; [|simpl in Hlen; lia]. reflexivity.
  - destruct src as [|b t]; [reflexivity|].
    cbn [appendString_loop coerce_loop].
    destruct (code b <? 0x80)%N eqn:Hb.
    + rewrite (DecodeRune_ascii b t Hb), (ascii_well_formed b Hb).
      rewrite <- app_assoc, parse_ascii by done.
      rewrite IH by (simpl in Hlen; lia). simpl. by rewrite drop_0.
    + destruct (ill_formed (DecodeRune (b :: t))) eqn:Hill.
      * rewrite <- app_assoc, parse_replacement, IH by (simpl in Hlen; lia). done.
      * destruct (DecodeRune_wide b t Hb Hill) as ([Hn2 Hnl] & Hwide & H28 & H29).
        set (r := DecodeRune (b :: t)) in *.
        assert (parse_string (appendString_loop fuel (drop r.2 (b :: t)) ++ quote :: rest)
                = Some (coerce_loop fuel (drop r.2 (b :: t)), rest)) as Hrec.
        { apply IH. rewrite length_drop. simpl in *. lia. }
        destruct ((r.1 =? 0x2028) || (r.1 =? 0x2029))%N eqn:Hsep.
        -- rewrite app_assoc, <- app_assoc, parse_separator, Hrec.
           2:{ apply orb_true_iff in Hsep as [?%N.eqb_eq| ?%N.eqb_eq]; auto. }
           simpl. do 2 f_equal. f_equal.
           apply orb_true_iff in Hsep as [E%N.eqb_eq| E%N.eqb_eq]; rewrite E.
           ++ by rewrite H28.
           ++ by rewrite H29.
        -- rewrite <- app_assoc, parse_wide, Hrec by done. done.
Qed.

Lemma coerce_loop_valid (fuel : nat) : ∀ src,
  valid_loop fuel src = true → coerce_loop fuel src = src.
Proof.
  induction fuel as [|fuel IH]; intros src Hv.
  - by destruct src.
  - destruct src as [|b t]; [done|]. cbn [coerce_loop valid_loop] in *.
    destruct (ill_formed (DecodeRune (b :: t))); [done|].
    by rewrite IH, take_drop.
Qed.

Lemma DecodeRune_width b t :
  ill_formed (DecodeRune (b :: t)) = false →
  1 ≤ (DecodeRune (b :: t)).2 ≤ length (b :: t).
Proof.
  intros Hill. destruct (code b <? 0x80)%N eqn:Hb.
  - rewrite (DecodeRune_ascii b t Hb). simpl. lia.
  - destruct (DecodeRune_wide b t Hb Hill) as (? & _). lia.
Qed.

(** Coercion never shortens, and lengthens what is not well-formed: an
    ill-formed byte becomes the three bytes of U+FFFD. *)
Lemma coerce_loop_length (fuel : nat) : ∀ src,
  length src ≤ fuel →
  length src ≤ length (coerce_loop fuel src) ∧
  (valid_loop fuel src = false → length src < length (coerce_loop fuel src)).
Proof.
  induction fuel as [|fuel IH]; intros src Hlen.
  - destruct src; [|simpl in Hlen; lia]. done.
  - destruct src as [|b t]; [done|]. cbn [coerce_loop valid_loop].
    destruct (ill_formed (DecodeRune (b :: t))) eqn:Hill.
    + destruct (IH t) as [Hle _]; [simpl in Hlen; lia|].
      rewrite length_app. change (length (AppendRune RuneError)) with 3. simpl. lia.
    + pose proof (DecodeRune_width b t Hill) as Hw.
      set (r := DecodeRune (b :: t)) in *.
      destruct (IH (drop r.2 (b :: t))) as [Hle Hlt].
      { rewrite length_drop. simpl in *. lia. }
      rewrite length_app, length_take. rewrite length_drop in Hle, Hlt.
      split; [lia|]. intros Hv. specialize (Hlt Hv). lia.
Qed.

Lemma bs_string (l : bytes) : bs (String.string_of_list_ascii l) = l.
Proof. apply String.list_ascii_of_string_of_list_ascii. Qed.

(** Coercion leaves a string as it is exactly when the string is
    well-formed UTF-8. *)
Lemma coerce_id (s : string) : coerce s = s ↔ ValidString s = true.
Proof.
  unfold coerce, ValidString. fold (bs s). split.
  - intros E. destruct (valid_loop (length (bs s)) (bs s)) eqn:Hv; [done|].
    destruct (coerce_loop_length (length (bs s)) (bs s)) as [_ Hlt]; [done|].
    specialize (Hlt Hv). apply (f_equal bs) in E. rewrite bs_string in E.
    rewrite E in Hlt. lia.
  - intros Hv. by rewrite coerce_loop_valid, string_of_bs.
Qed.

Lemma parse_value_quoted_any fuel (s : string) (rest : bytes) :
  parse_value (S fuel) (quote :: (body s ++ quote :: rest)) = Some (JString (coerce s), rest).
Proof. rewrite parse_value_string, parse_appendString_loop_any by done. done. Qed.

Lemma parse_payload_any (text : string) fuel :
  parse_value (6 + fuel) (marshal (payload text)) = Some (payload (coerce text), []).
Proof.
  rewrite marshal_payload. change (6 + fuel) with (S (S (S (S (S (S fuel)))))).
  rewrite parse_value_object.
  erewrite parse_members_more;
    [|by apply (parse_appendString "code")|by apply parse_value_quoted_any].
  erewrite parse_members_last; [| by apply (parse_appendString "mermaid") |].
  - cbn [mbind option_bind]. rewrite !string_of_bs. reflexivity.
  - rewrite parse_value_object.
    erewrite parse_members_last;
      [|by apply (parse_appendString "theme")|by apply parse_value_quoted].
    cbn [mbind option_bind]. rewrite !string_of_bs. reflexivity.
Qed.

(** What json.Marshal writes for the record, for any text, reads back as
    the record of the coerced text. *)
Lemma Unmarshal_payload_any (text : string) :
  Unmarshal (marshal (payload text)) = Some (payload (coerce text)).
Proof.
  unfold Unmarshal.
  assert (∃ k, length (marshal (payload text)) = 6 + k) as [k ->].
  { exists (length (marshal (payload text)) - 6).
    assert (6 ≤ length (marshal (payload text))); [|lia].
    rewrite marshal_payload. cbn [length]. rewrite length_app. cbn [length].
    rewrite length_app. cbn [length]. lia. }
  by rewrite parse_payload_any.
Qed.

End JSONFacts.

Section Base64Facts.
Import encoding.
Local Open Scope N_scope.

Lemma land_disjoint x y k : x mod 2 ^ k = 0 → y < 2 ^ k → N.land x y = 0.
Proof.
  intros Hx Hy. apply N.bits_inj_0. intros n. rewrite N.land_spec.
  destruct (decide (n < k)) as [Hn|Hn].
  - rewrite (N.div_mod x (2 ^ k)) by (apply N.pow_nonzero; lia).
    rewrite Hx, N.add_0_r, N.mul_comm, N.mul_pow2_bits_low by done. done.
  - destruct (decide (y = 0)) as [->|Hy0]; [by rewrite N.bits_0, andb_false_r|].
    rewrite (N.bits_above_log2 y n), andb_false_r; [done|].
    apply N.log2_lt_pow2; [lia|]. eapply N.lt_le_trans; [exact Hy|].
    apply N.pow_le_mono_r; lia.
Qed.

Lemma lor_add x y k : x mod 2 ^ k = 0 → y < 2 ^ k → N.lor x y = x + y.
Proof.
  intros Hx Hy. pose proof (land_disjoint x y k Hx Hy) as Hd.
  by rewrite N.add_nocarry_lxor, N.lxor_lor.
Qed.


(** A shift and a mask select a field of digits. *)
Lemma field6 v k : N.land (N.shiftr v k) 0x3F = v / 2 ^ k mod 64.
Proof. rewrite N.shiftr_div_pow2. change 0x3F with (N.ones 6). by rewrite N.land_ones. Qed.

Lemma field8 v k : N.land (N.shiftr v k) 0xFF = v / 2 ^ k mod 256.
Proof. rewrite N.shiftr_div_pow2. change 0xFF with (N.ones 8). by rewrite N.land_ones. Qed.

Lemma pack3 b0 b1 b2 :
  b0 < 256 → b1 < 256 → b2 < 256 →
  N.lor (N.lor (N.shiftl b0 16) (N.shiftl b1 8)) b2 = b0 * 65536 + b1 * 256 + b2.
Proof.
  intros. rewrite !N.shiftl_mul_pow2. change (2 ^ 16) with 65536. change (2 ^ 8) with 256.
  rewrite (lor_add (b0 * 65536) (b1 * 256) 16); [|divmod|change (2 ^ 16) with 65536; lia].
  rewrite (lor_add _ b2 8); [done|change (2 ^ 8) with 256; divmod|done].
Qed.

Lemma pack2 b0 b1 :
  b0 < 256 → b1 < 256 → N.lor (N.shiftl b0 16) (N.shiftl b1 8) = b0 * 65536 + b1 * 256.
Proof.
  intros. rewrite !N.shiftl_mul_pow2. change (2 ^ 16) with 65536. change (2 ^ 8) with 256.
  rewrite (lor_add (b0 * 65536) (b1 * 256) 16); [done|divmod|change (2 ^ 16) with 65536; lia].
Qed.

Lemma unpack2 i0 i1 :
  i0 < 64 → i1 < 64 → N.lor (N.shiftl i0 18) (N.shiftl i1 12) = i0 * 262144 + i1 * 4096.
Proof.
  intros. rewrite !N.shiftl_mul_pow2. change (2 ^ 18) with 262144. change (2 ^ 12) with 4096.
  rewrite (lor_add _ _ 18); [done|divmod|change (2 ^ 18) with 262144; lia].
Qed.

Lemma unpack3 i0 i1 i2 :
  i0 < 64 → i1 < 64 → i2 < 64 →
  N.lor (N.lor (N.shiftl i0 18) (N.shiftl i1 12)) (N.shiftl i2 6)
  = i0 * 262144 + i1 * 4096 + i2 * 64.
Proof.
  intros. rewrite unpack2 by done. rewrite N.shiftl_mul_pow2. change (2 ^ 6) with 64.
  rewrite (lor_add _ _ 12); [done|change (2 ^ 12) with 4096; divmod|change (2 ^ 12) with 4096; lia].
Qed.

Lemma unpack4 i0 i1 i2 i3 :
  i0 < 64 → i1 < 64 → i2 < 64 → i3 < 64 →
  N.lor (N.lor (N.lor (N.shiftl i0 18) (N.shiftl i1 12)) (N.shiftl i2 6)) i3
  = i0 * 262144 + i1 * 4096 + i2 * 64 + i3.
Proof.
  intros. rewrite unpack3 by done.
  rewrite (lor_add _ _ 6); [done|change (2 ^ 6) with 64; divmod|done].
Qed.

(** The alphabet: sixty-four characters, none of them the padding. *)
Lemma alphabet_nat (n : nat) :
  (n < 64)%nat →
  decodeMap (encode (N.of_nat n)) = Some (N.of_nat n) ∧ encode (N.of_nat n) ≠ pad.
Proof.
  intros Hn.
  do 64 (destruct n as [|n]; [split; [vm_compute; reflexivity|vm_compute; discriminate]|]).
  lia.
Qed.

Lemma decodeMap_encode i : i < 64 → decodeMap (encode i) = Some i.
Proof.
  intros Hi. rewrite <- (N2Nat.id i). apply alphabet_nat. lia.
Qed.

Lemma encode_not_pad i : i < 64 → encode i ≠ pad.
Proof.
  intros Hi. rewrite <- (N2Nat.id i). apply alphabet_nat. lia.
Qed.

Lemma decodeMap_pad : decodeMap pad = None.
Proof. vm_compute. reflexivity. Qed.


Lemma code_lt c : code c < 256.
Proof. apply N_ascii_bounded. Qed.

Lemma sextet_spec v k : sextet v k = encode (v / 2 ^ k mod 64).
Proof. unfold sextet. by rewrite field6. Qed.

Lemma octet_spec v k : octet v k = byte (v / 2 ^ k mod 256).
Proof. unfold octet. by rewrite field8. Qed.

Lemma mod64_lt v : v mod 64 < 64.
Proof. apply N.mod_lt. lia. Qed.

Lemma byte_eq n c : n = code c → byte n = c.
Proof. intros ->. apply ascii_N_embedding. Qed.

(** Three bytes, through four characters and back. *)
Lemma Decode_group b0 b1 b2 (t : bytes) r :
  Decode t = Some r →
  Decode (sextet (N.lor (N.lor (N.shiftl (code b0) 16) (N.shiftl (code b1) 8)) (code b2)) 18
       :: sextet (N.lor (N.lor (N.shiftl (code b0) 16) (N.shiftl (code b1) 8)) (code b2)) 12
       :: sextet (N.lor (N.lor (N.shiftl (code b0) 16) (N.shiftl (code b1) 8)) (code b2)) 6
       :: sextet (N.lor (N.lor (N.shiftl (code b0) 16) (N.shiftl (code b1) 8)) (code b2)) 0
       :: t)
  = Some (b0 :: b1 :: b2 :: r).
Proof.
  intros Ht. pose proof (code_lt b0). pose proof (code_lt b1). pose proof (code_lt b2).
  rewrite pack3 by done. rewrite !sextet_spec.
  change (2 ^ 18) with 262144. change (2 ^ 12) with 4096. change (2 ^ 6) with 64.
  change (2 ^ 0) with 1.
  set (v := code b0 * 65536 + code b1 * 256 + code b2).
  cbn [Decode]. rewrite !decodeMap_encode by apply mod64_lt. cbn [mbind option_bind].
  rewrite (bool_decide_eq_false_2 (encode _ = pad)) by (apply encode_not_pad, mod64_lt).
  rewrite ?decodeMap_encode by apply mod64_lt. cbn [mbind option_bind].
  rewrite Ht. cbn [mbind option_bind].
  rewrite unpack4 by apply mod64_lt. rewrite !octet_spec.
  change (2 ^ 16) with 65536. change (2 ^ 8) with 256. change (2 ^ 0) with 1.
  do 2 f_equal; [|f_equal; [|f_equal]]; apply byte_eq; unfold v; divmod.
Qed.

Lemma Decode_two b0 b1 :
  Decode [sextet (N.lor (N.shiftl (code b0) 16) (N.shiftl (code b1) 8)) 18;
          sextet (N.lor (N.shiftl (code b0) 16) (N.shiftl (code b1) 8)) 12;
          sextet (N.lor (N.shiftl (code b0) 16) (N.shiftl (code b1) 8)) 6; pad]
  = Some [b0; b1].
Proof.
  pose proof (code_lt b0). pose proof (code_lt b1).
  rewrite pack2 by done. rewrite !sextet_spec.
  change (2 ^ 18) with 262144. change (2 ^ 12) with 4096. change (2 ^ 6) with 64.
  set (v := code b0 * 65536 + code b1 * 256).
  cbn [Decode]. rewrite !decodeMap_encode by apply mod64_lt. cbn [mbind option_bind].
  rewrite (bool_decide_eq_true_2 (pad = pad)) by done.
  rewrite (bool_decide_eq_false_2 (encode _ = pad)) by (apply encode_not_pad, mod64_lt).
  rewrite ?decodeMap_encode by apply mod64_lt. cbn [mbind option_bind].
  rewrite unpack3 by apply mod64_lt. rewrite !octet_spec.
  change (2 ^ 16) with 65536. change (2 ^ 8) with 256.
  do 2 f_equal; [|f_equal]; apply byte_eq; unfold v; divmod.
Qed.

Lemma Decode_one b0 :
  Decode [sextet (N.shiftl (code b0) 16) 18; sextet (N.shiftl (code b0) 16) 12; pad; pad]
  = Some [b0].
Proof.
  pose proof (code_lt b0).
  rewrite !sextet_spec, N.shiftl_mul_pow2.
  change (2 ^ 18) with 262144. change (2 ^ 12) with 4096. change (2 ^ 16) with 65536.
  set (v := code b0 * 65536).
  cbn [Decode]. rewrite !decodeMap_encode by apply mod64_lt. cbn [mbind option_bind].
  rewrite !(bool_decide_eq_true_2 (pad = pad)) by done.
  rewrite unpack2 by apply mod64_lt. rewrite !octet_spec.
  change (2 ^ 16) with 65536.
  do 2 f_equal. apply byte_eq. unfold v. divmod.
Qed.

(** base64: decoding what was encoded gives the bytes back. *)
Lemma Decode_Encode (src : bytes) : Decode (Encode src) = Some src.
Proof.
  remember (length src) as n eqn:Hn. revert src Hn.
  induction n as [n IH] using lt_wf_ind. intros src Hn.
  destruct src as [|b0 [|b1 [|b2 t]]].
  - reflexivity.
  - apply Decode_one.
  - apply Decode_two.
  - cbn [Encode]. apply Decode_group. apply (IH (length t)); [|done].
    subst n. simpl. lia.
Qed.

Lemma DecodeString_EncodeToString (src : bytes) : DecodeString (EncodeToString src) = Some src.
Proof.
  unfold DecodeString, EncodeToString, bs.
  rewrite String.list_ascii_of_string_of_list_ascii. apply Decode_Encode.
Qed.

End Base64Facts.

Section StoredFacts.
Import encoding stored.

Lemma le16_read n (t : bytes) :
  (n ≤ block_max)%N →
  ∃ l0 l1, le16 n = [l0; l1] ∧ (code l0 + 256 * code l1 = n)%N.
Proof.
  intros Hn. unfold block_max in Hn. eexists _, _. split; [reflexivity|].
  rewrite !code_byte by divmod. divmod.
Qed.

Lemma header_ok level :
  (HuffmanOnly ≤ level ≤ BestCompression)%Z →
  ∃ cmf flg, header level = [cmf; flg] ∧
    ((code cmf =? 0x78) && ((code cmf * 256 + code flg) mod 31 =? 0)
     && (N.land (code flg) 0x20 =? 0))%N = true.
Proof.
  unfold HuffmanOnly, BestCompression. intros Hl.
  assert (level = -2 ∨ level = -1 ∨ level = 0 ∨ level = 1 ∨ level = 2 ∨ level = 3 ∨
          level = 4 ∨ level = 5 ∨ level = 6 ∨ level = 7 ∨ level = 8 ∨ level = 9)%Z
    as Hcases by lia.
  eexists _, _. split; [reflexivity|].
  destruct_or! Hcases; subst level; vm_compute; reflexivity.
Qed.

Lemma blocks_stored (fuel : nat) : ∀ (data rest : bytes) (fuel' : nat),
  length data < fuel → fuel ≤ fuel' →
  blocks fuel' (stored fuel data ++ rest) = Some (data, rest).
Proof.
  induction fuel as [|fuel IH]; intros data rest fuel' Hd Hf; [lia|].
  destruct fuel' as [|fuel']; [lia|].
  cbn [stored]. destruct (N.of_nat (length data) <=? block_max)%N eqn:Hle.
  - apply N.leb_le in Hle.
    destruct (le16_read (N.of_nat (length data)) [] Hle) as (l0 & l1 & -> & Hl).
    destruct (le16_read (block_max - N.of_nat (length data)) []) as (n0 & n1 & -> & Hn);
      [lia|].
    cbn [app blocks]. rewrite Hl, Hn.
    rewrite (proj2 (N.eqb_eq _ _)) by lia.
    rewrite (proj2 (N.leb_le _ _)) by (rewrite length_app; lia).
    cbn [andb]. rewrite (bool_decide_eq_true_2 (byte 1 = byte 1)) by done.
    rewrite Nat2N.id. do 2 f_equal; [apply take_app_length|apply drop_app_length].
  - apply N.leb_gt in Hle.
    destruct (le16_read block_max [] (N.le_refl _)) as (l0 & l1 & -> & Hl).
    destruct (le16_read 0 []) as (n0 & n1 & -> & Hn); [done|].
    assert (N.to_nat block_max < length data) as Hlen by lia.
    assert (length (take (N.to_nat block_max) data) = N.to_nat block_max) as Ht
      by (rewrite length_take; lia).
    assert (length (drop (N.to_nat block_max) data) < fuel) as Hdrop
      by (rewrite length_drop; unfold block_max in *; lia).
    rewrite <- (take_drop (N.to_nat block_max) data) at 3.
    revert Ht Hdrop.
    generalize (take (N.to_nat block_max) data) (drop (N.to_nat block_max) data).
    intros d1 d2 Ht Hdrop.
    cbn [app blocks]. rewrite Hl, Hn.
    rewrite (proj2 (N.eqb_eq _ _)) by lia.
    rewrite (proj2 (N.leb_le _ _)) by (rewrite !length_app; lia).
    cbn [andb]. rewrite (bool_decide_eq_false_2 (byte 0 = byte 1)) by done.
    rewrite (bool_decide_eq_true_2 (byte 0 = byte 0)) by done.
    rewrite <- app_assoc, <- Ht, take_app_length, drop_app_length.
    rewrite IH by (done || lia). done.
Qed.

Lemma stored_length (fuel : nat) : ∀ data,
  length data < fuel → length data + 5 ≤ length (stored fuel data).
Proof.
  induction fuel as [|fuel IH]; intros data Hd; [lia|].
  cbn [stored]. destruct (N.of_nat (length data) <=? block_max)%N eqn:Hle.
  - cbn [length app le16]. lia.
  - apply N.leb_gt in Hle.
    assert (length (drop (N.to_nat block_max) data) < fuel) as Hdrop
      by (rewrite length_drop; unfold block_max in *; lia).
    specialize (IH _ Hdrop). revert IH.
    rewrite <- (take_drop (N.to_nat block_max) data) at 3.
    generalize (take (N.to_nat block_max) data) (drop (N.to_nat block_max) data).
    intros d1 d2 IH. cbn [length app le16]. rewrite !length_app. lia.
Qed.

(** What the stored form holds inflates back to the data. *)
Lemma inflate_deflate level data :
  (HuffmanOnly ≤ level ≤ BestCompression)%Z → inflate (deflate level data) = Some data.
Proof.
  intros Hl. destruct (header_ok level Hl) as (cmf & flg & Hh & Hok).
  unfold deflate. rewrite Hh. cbn [app inflate]. rewrite Hok.
  rewrite blocks_stored; [|lia|].
  - cbn [mbind option_bind]. by rewrite bool_decide_eq_true_2.
  - pose proof (stored_length (S (length data)) data). rewrite length_app. lia.
Qed.


End StoredFacts.

(** The stored form is a zlib in the sense of the interface. *)
#[export] Instance stored_zlib : encoding.Zlib := {|
  encoding.deflate := stored.deflate;
  encoding.inflate := stored.inflate;
  encoding.inflate_deflate := inflate_deflate
|}.

(** *** Export: the link and what it decodes to *)

Section ExportFacts.
Import encoding.
Context `{Zlib}.

Lemma bs_app (a b : string) : bs (a +:+ b) = bs a ++ bs b.
Proof. induction a as [|c a IH]; [done|]. unfold bs in *. simpl. by rewrite IH. Qed.

Lemma strip_prefix_app (p s : string) : strip_prefix p (p +:+ s) = Some s.
Proof.
  unfold strip_prefix. rewrite bs_app, take_app_length, drop_app_length.
  rewrite bool_decide_eq_true_2 by done. by rewrite string_of_bs.
Qed.

(** The link written for a text, read the way the viewer reads it. *)
Lemma read_link_std (prefix text : string) :
  ValidString text = true →
  read_link prefix
    (prefix +:+ EncodeToString (deflate BestCompression (marshal (payload text))))
  = Some (payload text).
Proof.
  intros Hv. unfold read_link. rewrite strip_prefix_app. cbn [mbind option_bind].
  rewrite DecodeString_EncodeToString. cbn [mbind option_bind].
  rewrite inflate_deflate by (unfold HuffmanOnly, BestCompression; lia).
  cbn [mbind option_bind]. by apply Unmarshal_payload.
Qed.

(** The same for any text: the record of the coerced text. *)
Lemma read_link_any (prefix text : string) :
  read_link prefix
    (prefix +:+ EncodeToString (deflate BestCompression (marshal (payload text))))
  = Some (payload (coerce text)).
Proof.
  unfold read_link. rewrite strip_prefix_app. cbn [mbind option_bind].
  rewrite DecodeString_EncodeToString. cbn [mbind option_bind].
  rewrite inflate_deflate by (unfold HuffmanOnly, BestCompression; lia).
  cbn [mbind option_bind]. by apply Unmarshal_payload_any.
Qed.

Lemma flowchart_LiveURL_with_std (text : string) :
  flowchart.LiveURL_with std text
  = flowchart.liveURL +:+ EncodeToString (deflate BestCompression (marshal (payload text))).
Proof. reflexivity. Qed.

Lemma gantt_LiveURL_with_std (text : string) :
  gantt.LiveURL_with std text
  = gantt.liveURL +:+ EncodeToString (deflate BestCompression (marshal (payload text))).
Proof. reflexivity. Qed.

End ExportFacts.

Section ExportClaims.
Import encoding.
Context `{Zlib}.
Context `{flowchart.Declarations} `{!flowchart.Methods}.
Context `{gantt.Declarations} `{!gantt.Methods}.

(** C1 (as amended). LiveURL returns a URL exactly when String returns a
    text, and the URL is the fixed base URL followed by the base64url form
    of the zlib stream of the JSON record. For every rendered text, decoding
    the payload (base64url, inflate, JSON) yields the record with exactly
    the keys code and mermaid, mermaid with the one key theme set to
    "default"; the code field is the rendered text coerced to valid UTF-8
    (each ill-formed byte replaced by U+FFFD), which equals the rendered
    text exactly when that text is well-formed UTF-8. *)
Theorem LiveURL_round_trip :
  (∀ fc h text, flowchart.String fc h (Some text) →
     ∃ url, flowchart.LiveURL fc h (Some url) ∧
       url = "https://mermaid.live/view/#pako:"
             +:+ EncodeToString (deflate BestCompression (marshal (payload text))) ∧
       read_link "https://mermaid.live/view/#pako:" url
       = Some (JObject [("code", JString (coerce text));
                        ("mermaid", JObject [("theme", JString "default")])]) ∧
       (coerce text = text ↔ ValidString text = true)) ∧
  (∀ fc h url, flowchart.LiveURL fc h (Some url) →
     ∃ text, flowchart.String fc h (Some text) ∧
       url = "https://mermaid.live/view/#pako:"
             +:+ EncodeToString (deflate BestCompression (marshal (payload text)))) ∧
  (∀ g h text, gantt.String g h = Some text →
     ∃ url, gantt.LiveURL g h = Some url ∧
       url = "https://mermaid.live/view/#pako:"
             +:+ EncodeToString (deflate BestCompression (marshal (payload text))) ∧
       read_link "https://mermaid.live/view/#pako:" url
       = Some (JObject [("code", JString (coerce text));
                        ("mermaid", JObject [("theme", JString "default")])]) ∧
       (coerce text = text ↔ ValidString text = true)) ∧
  (∀ g h url, gantt.LiveURL g h = Some url →
     ∃ text, gantt.String g h = Some text ∧
       url = "https://mermaid.live/view/#pako:"
             +:+ EncodeToString (deflate BestCompression (marshal (payload text)))).
Proof.
  split_and!.
  - intros fc h text Ht. eexists. split; [|split; [reflexivity|]].
    + apply (flowchart.LiveURL_String fc h (Some text) Ht).
    + split; [apply read_link_any|apply coerce_id].
  - intros fc h url Hurl. inversion Hurl as [r Hr Heq].
    destruct r as [text|]; [|done]. simpl in Heq. injection Heq as <-. by exists text.
  - intros g h text Ht. eexists. split; [|split; [reflexivity|]].
    + unfold gantt.LiveURL. rewrite Ht. reflexivity.
    + split; [apply read_link_any|apply coerce_id].
  - intros g h url Hurl. unfold gantt.LiveURL in Hurl.
    destruct (gantt.String g h) as [text|]; [|done]. simpl in Hurl. injection Hurl as <-.
    by exists text.
Qed.


End ExportClaims.

(** *** Calls with several outcomes *)

Section OutcomeFacts.
Import Go.

Lemma one_deterministic {A} (o : option A) : deterministic (one o).
Proof. unfold deterministic, one. congruence. Qed.

Lemma and_then_deterministic {A B} (m : outcomes A) (k : A → outcomes B) :
  deterministic m → (∀ a, m (Some a) → deterministic (k a)) → deterministic (and_then m k).
Proof.
  intros Hm Hk r1 r2 [[H1 ->]|(a1 & H1 & K1)] [[H2 ->]|(a2 & H2 & K2)].
  - done.
  - by specialize (Hm _ _ H1 H2).
  - by specialize (Hm _ _ H1 H2).
  - pose proof (Hm _ _ H1 H2) as E. injection E as <-. by apply (Hk a1).
Qed.

Lemma render_each_out_deterministic {A} (render : A → outcomes string) xs :
  (∀ x, deterministic (render x)) → ∀ text, deterministic (render_each_out render xs text).
Proof.
  intros Hr. induction xs as [|x xs IH]; intros text; simpl.
  - apply one_deterministic.
  - apply and_then_deterministic; [apply Hr|]. intros r _. apply IH.
Qed.

Lemma only_one {A} (o : option A) : only (one o) o.
Proof. done. Qed.

Lemma only_and_then {A B} (m : outcomes A) (k : A → outcomes B) o (f : A → option B) :
  only m o → (∀ a, only (k a) (f a)) → only (and_then m k) (o ≫= f).
Proof.
  unfold only. intros Hm Hk r. unfold and_then. rewrite Hm. setoid_rewrite Hm.
  setoid_rewrite Hk. destruct o as [a|]; simpl.
  - split; [intros [[? _]|(a' & E & K)]; [done|by injection E as <-]|]. intros K. right. eauto.
  - split; [intros [[_ ->]|(a' & E & K)]; done|]. intros ->. by left.
Qed.

(** A call on nil panics. *)
Lemma only_nil {A B} (k : A → outcomes B) : only (and_then (one None) k) None.
Proof.
  intros r. unfold and_then, one. split; [intros [[_ ->]|(a & E & _)]; done|].
  intros ->. by left.
Qed.

(** A loop over renderers that are functions has the function's result as
    its only outcome. *)
Lemma only_render_each {A} (render : A → outcomes string) (f : A → option string) xs :
  (∀ x, only (render x) (f x)) →
  ∀ text, only (render_each_out render xs text) (render_each f xs text).
Proof.
  intros Hr. induction xs as [|x xs IH]; intros text; simpl.
  - apply only_one.
  - apply (only_and_then _ _ (f x) (λ r, render_each f xs (text +:+ r))); [apply Hr|].
    intros r. apply IH.
Qed.

End OutcomeFacts.

Section GanttOutcomes.
Import Go gantt.
Context `{Declarations} `{!Methods}.

(** Gantt.String visits slices only: what it returns is fixed by what the
    renderers of the tasks and sections return. *)
Lemma gantt_String_out_deterministic
    (TS : Go.heap object → Task → outcomes string)
    (SS : Go.heap object → Section → outcomes string) :
  (∀ h t, deterministic (TS h t)) → (∀ h s, deterministic (SS h s)) →
  ∀ g h, deterministic (String_out TS SS g h).
Proof.
  intros HT HS g h. unfold String_out.
  apply and_then_deterministic; [apply one_deterministic|]. intros x _.
  apply and_then_deterministic; [apply one_deterministic|]. intros ts _.
  apply and_then_deterministic.
  { apply render_each_out_deterministic. intros t.
    apply and_then_deterministic; [apply one_deterministic|]. intros y _. apply HT. }
  intros text _.
  apply and_then_deterministic; [apply one_deterministic|]. intros ss _.
  apply render_each_out_deterministic. intros s.
  apply and_then_deterministic; [apply one_deterministic|]. intros y _. apply HS.
Qed.

Lemma gantt_String_out_only g h :
  only (String_out (λ h t, one (Task_String h t)) (λ h s, one (Section_String h s)) g h)
       (String g h).
Proof.
  unfold String_out, String.
  apply only_and_then; [apply only_one|]. intros x.
  apply only_and_then; [apply only_one|]. intros ts.
  apply only_and_then.
  { apply only_render_each. intros [p|]; [|apply only_nil].
    cbn [mbind option_bind]. apply only_and_then; [apply only_one|].
    intros y. apply only_one. }
  intros text. apply only_and_then; [apply only_one|]. intros ss.
  apply only_render_each. intros [p|]; [|apply only_nil].
  cbn [mbind option_bind]. apply only_and_then; [apply only_one|].
  intros y. apply only_one.
Qed.

End GanttOutcomes.

Section FlowchartOutcomes.
Import Go flowchart.
Context `{Declarations} `{!Methods}.

(** Flowchart.String has one source of outcomes of its own, the visit of
    the map of node styles; a map of at most one style is visited in one
    way. *)
Lemma flowchart_String_out_deterministic
    (NR : Go.heap object → Node → outcomes string)
    (SR : Go.heap object → Subgraph → outcomes string)
    (ES : Go.heap object → Edge → outcomes string)
    (NS : Go.heap object → NodeStyle → outcomes string)
    (DS : Go.heap object → EdgeStyle → outcomes string)
    (Sp : string → string → string) :
  (∀ h x, deterministic (NR h x)) → (∀ h x, deterministic (SR h x)) →
  (∀ h x, deterministic (ES h x)) → (∀ h x, deterministic (NS h x)) →
  (∀ h x, deterministic (DS h x)) →
  ∀ fc h f, deref h fc = Some f → size (nodeStyles f) ≤ 1 →
    deterministic (String_out NR SR ES NS DS Sp fc h).
Proof.
  intros HNR HSR HES HNS HDS fc h f Hfc Hsize. unfold String_out.
  apply and_then_deterministic; [apply one_deterministic|]. intros f' Hf'.
  unfold one in Hf'. rewrite Hfc in Hf'. injection Hf' as ->.
  apply and_then_deterministic.
  { destruct (DefaultEdgeStyle f) as [p|]; [|apply one_deterministic].
    apply and_then_deterministic; [apply one_deterministic|]. intros s _.
    apply and_then_deterministic; [apply HDS|]. intros format _. apply one_deterministic. }
  intros text _. apply and_then_deterministic.
  { intros r1 r2 (o1 & Ho1 & ->) (o2 & Ho2 & ->).
    by rewrite (range_order_small _ _ _ Hsize Ho1 Ho2). }
  intros styles _. apply and_then_deterministic.
  { apply render_each_out_deterministic. intros p.
    apply and_then_deterministic; [apply one_deterministic|]. intros s _. apply HNS. }
  intros text' _. apply and_then_deterministic; [apply one_deterministic|]. intros its _.
  apply and_then_deterministic.
  { apply render_each_out_deterministic. intros item. unfold renderGraph_out.
    apply and_then_deterministic; [apply one_deterministic|]. intros p _.
    destruct (load_obj h p) as [[]|]; try apply one_deterministic; [apply HNR|apply HSR]. }
  intros text'' _. apply and_then_deterministic; [apply one_deterministic|]. intros es _.
  apply render_each_out_deterministic. intros e.
  apply and_then_deterministic; [apply one_deterministic|]. intros x _. apply HES.
Qed.

(** With renderers that are functions, the outcomes are those of String:
    one per order of the visit. *)
Lemma flowchart_String_out_String fc h f r :
  deref h fc = Some f →
  String_out (λ h x, one (Node_renderGraph h x)) (λ h x, one (Subgraph_renderGraph h x))
    (λ h x, one (Edge_String h x)) (λ h x, one (NodeStyle_String h x))
    (λ h x, one (EdgeStyle_String h x)) Sprintf1 fc h r
  ↔ String fc h r.
Proof.
  intros Hfc. unfold String_out.
  set (text0 := "graph " +:+ Direction f +:+ LF).
  set (first := match DefaultEdgeStyle f with
         | None => Some text0
         | Some p =>
             s ← load_EdgeStyle h p; format ← EdgeStyle_String h s;
             Some (text0 +:+ Sprintf1 format "default")
         end).
  set (rest := λ (styles : list ptr) (text : string),
    text ← render_each (style_line h) styles text;
    let text := text +:+ LF in
    its ← slice_elems h (items f);
    text ← render_each (renderGraph h) its text;
    let text := text +:+ LF in
    es ← slice_elems h (edges f);
    render_each (λ e, p ← e; x ← load_Edge h p; Edge_String h x) es text).
  assert (∀ styles, String_in styles fc h = first ≫= rest styles) as Hin.
  { intros styles. unfold String_in. rewrite Hfc. done. }
  assert (∀ styles text, only
    (and_then (render_each_out
              (λ p, and_then (one (load_NodeStyle h p)) (λ x, one (NodeStyle_String h x)))
              styles text) (λ text,
     let text := text +:+ LF in
     and_then (one (slice_elems h (items f))) (λ its,
     and_then (render_each_out
              (renderGraph_out (λ h x, one (Node_renderGraph h x))
                 (λ h x, one (Subgraph_renderGraph h x)) h) its text) (λ text,
     let text := text +:+ LF in
     and_then (one (slice_elems h (edges f))) (λ es,
     render_each_out (λ e, and_then (one (e ≫= load_Edge h)) (λ x, one (Edge_String h x)))
                     es text)))))
    (rest styles text)) as Hrest.
  { intros styles text. unfold rest. apply only_and_then.
    { apply only_render_each. intros p. unfold style_line.
      apply only_and_then; [apply only_one|]. intros s. apply only_one. }
    intros text1. cbv zeta. apply only_and_then; [apply only_one|]. intros its.
    apply only_and_then.
    { apply only_render_each. intros item. unfold renderGraph_out, renderGraph.
      apply only_and_then; [apply only_one|]. intros p.
      destruct (load_obj h p) as [[]|]; apply only_one. }
    intros text2. apply only_and_then; [apply only_one|]. intros es.
    apply only_render_each.
    intros [p|]; [|apply only_nil].
    cbn [mbind option_bind]. apply only_and_then; [apply only_one|].
    intros y. apply only_one. }
  assert (only (match DefaultEdgeStyle f with
         | None => one (Some text0)
         | Some p =>
             and_then (one (load_EdgeStyle h p)) (λ s,
             and_then (one (EdgeStyle_String h s)) (λ format,
             one (Some (text0 +:+ Sprintf1 format "default"))))
         end) first) as Hfirst.
  { unfold first. destruct (DefaultEdgeStyle f) as [p|]; [|apply only_one].
    apply only_and_then; [apply only_one|]. intros s.
    apply only_and_then; [apply only_one|]. intros format. apply only_one. }
  split.
  - intros [[Hd _]|(f' & Hf' & Hr)]; [unfold one in Hd; congruence|].
    unfold one in Hf'. rewrite Hfc in Hf'. injection Hf' as ->.
    destruct Hr
      as [[Hnone ->]|(text & Hsome & [[(o & _ & ?) _]|(styles & (order & Hord & E) & Hr)])];
      [| done |].
    + apply Hfirst in Hnone.
      replace None with (String_in ((map_to_list (nodeStyles f)).*2) fc h).
      { apply (String_range _ _ f); [done|by unfold range_order]. }
      by rewrite Hin, <- Hnone.
    + injection E as ->. apply Hfirst in Hsome. apply Hrest in Hr.
      replace r with (String_in (order.*2) fc h).
      { by apply (String_range _ _ f). }
      by rewrite Hin, <- Hsome, Hr.
  - intros Hr. destruct Hr as [f' order Hf' Hord]. rewrite Hfc in Hf'. injection Hf' as <-.
    right. exists f. split; [done|].
    rewrite Hin. destruct first as [text|] eqn:Hf1.
    + right. exists text. split; [by apply Hfirst|].
      right. exists (order.*2). split; [by exists order|]. by apply Hrest.
    + left. split; [by apply Hfirst|done].
Qed.

End FlowchartOutcomes.

Section RenderClaims.
Context `{flowchart.Declarations} `{!flowchart.Methods}.
Context `{gantt.Declarations} `{!gantt.Methods}.

(** C2 (as amended). Gantt.String adds no nondeterminism of its own: it
    visits slices only, so that, whatever Task.String and Section.String
    are, String has at most one outcome in a state if they have; with
    renderers that are functions its only outcome is the text computed.
    Flowchart.String, under the same proviso for the renderers of its
    entities and styles, has at most one outcome when at most one node style
    is registered; its outcomes are one per order in which the map of node
    styles is visited, and two of them can differ in the order of the
    node-style lines and in nothing else: the text is determined by the
    block of style lines. *)
Theorem rendering_is_deterministic_up_to_style_order :
  (∀ (TS : Go.heap gantt.object → gantt.Task → Go.outcomes string)
     (SS : Go.heap gantt.object → gantt.Section → Go.outcomes string),
     (∀ h t, Go.deterministic (TS h t)) → (∀ h s, Go.deterministic (SS h s)) →
     ∀ g h, Go.deterministic (gantt.String_out TS SS g h)) ∧
  (∀ g h,
     Go.only (gantt.String_out (λ h t, Go.one (gantt.Task_String h t))
                               (λ h s, Go.one (gantt.Section_String h s)) g h)
             (gantt.String g h)) ∧
  (∀ (NR : Go.heap flowchart.object → flowchart.Node → Go.outcomes string)
     (SR : Go.heap flowchart.object → flowchart.Subgraph → Go.outcomes string)
     (ES : Go.heap flowchart.object → flowchart.Edge → Go.outcomes string)
     (NS : Go.heap flowchart.object → flowchart.NodeStyle → Go.outcomes string)
     (DS : Go.heap flowchart.object → flowchart.EdgeStyle → Go.outcomes string)
     (Sp : string → string → string),
     (∀ h x, Go.deterministic (NR h x)) → (∀ h x, Go.deterministic (SR h x)) →
     (∀ h x, Go.deterministic (ES h x)) → (∀ h x, Go.deterministic (NS h x)) →
     (∀ h x, Go.deterministic (DS h x)) →
     ∀ fc h f, flowchart.deref h fc = Some f → size (flowchart.nodeStyles f) ≤ 1 →
       Go.deterministic (flowchart.String_out NR SR ES NS DS Sp fc h)) ∧
  (∀ fc h f r, flowchart.deref h fc = Some f →
     flowchart.String_out
       (λ h x, Go.one (flowchart.Node_renderGraph h x))
       (λ h x, Go.one (flowchart.Subgraph_renderGraph h x))
       (λ h x, Go.one (flowchart.Edge_String h x))
       (λ h x, Go.one (flowchart.NodeStyle_String h x))
       (λ h x, Go.one (flowchart.EdgeStyle_String h x)) flowchart.Sprintf1 fc h r
     ↔ flowchart.String fc h r) ∧
  (∀ fc h f r1 r2,
     flowchart.deref h fc = Some f → size (flowchart.nodeStyles f) ≤ 1 →
     flowchart.String fc h r1 → flowchart.String fc h r2 → r1 = r2) ∧
  (∀ fc h o1 o2,
     flowchart.style_block h o1 = flowchart.style_block h o2 →
     flowchart.String_in o1 fc h = flowchart.String_in o2 fc h).
Proof.
  split_and!.
  - apply gantt_String_out_deterministic.
  - apply gantt_String_out_only.
  - apply flowchart_String_out_deterministic.
  - intros fc h f r. apply flowchart_String_out_String.
  - intros fc h f r1 r2 Hfc Hsize Hr1 Hr2.
    destruct Hr1 as [f1 o1 Hf1 Ho1]. destruct Hr2 as [f2 o2 Hf2 Ho2]. simplify_eq.
    by rewrite (range_order_small _ _ _ Hsize Ho1 Ho2).
  - intros fc h o1 o2. apply String_in_block.
Qed.

End RenderClaims.

(** *** The runtime: a slice in an array of its own *)

Section SliceFacts.
Import Go.
Context {Obj : Type}.

Lemma slice_elems_fresh (h : heap Obj) (vs : list (option ptr)) :
  slice_elems (h ++ [Array vs]) (Slice (Some (length h)) (length vs) (length vs)) = Some vs.
Proof.
  unfold slice_elems, backing. simpl. rewrite load_arr_alloc. simpl.
  rewrite decide_True by done. by rewrite firstn_all.
Qed.

Lemma take_ext {A} (n : nat) (l1 l2 : list A) :
  (∀ p, p < n → l1 !! p = l2 !! p) → take n l1 = take n l2.
Proof.
  intros Hl. apply list_eq. intros p. destruct (decide (p < n)).
  - rewrite !lookup_take_lt by done. by apply Hl.
  - rewrite !lookup_take_ge by lia. done.
Qed.

End SliceFacts.

(** *** Flowchart: the contents of a diagram, call by call *)

Section FlowchartContents.
Import Go flowchart.
Context `{Declarations} `{Growth}.
Local Abbreviation heap := (Go.heap object).
Implicit Types (h : heap) (f : Flowchart) (v : view).

Lemma keeps_refl fc h : keeps fc h h.
Proof. split; [done|]. split; [done|]. intros f Hf. by exists f. Qed.

Lemma keeps_trans fc h1 h2 h3 : keeps fc h1 h2 → keeps fc h2 h3 → keeps fc h1 h3.
Proof.
  intros (Hl1 & Ho1 & Hf1) (Hl2 & Ho2 & Hf2). split; [lia|]. split.
  - intros p o Hp Hc. by apply Ho2, Ho1.
  - intros f Hf. destruct (Hf1 f Hf) as (f' & Hf' & Ed & Es).
    destruct (Hf2 f' Hf') as (f'' & Hf'' & Ed' & Es'). exists f''. split; [done|].
    split; congruence.
Qed.

Lemma load_Node_lookup h p n : load_Node h p = Some n ↔ h !! p = Some (Object (ONode n)).
Proof. unfold load_Node, load_obj. destruct (h !! p) as [[[]|]|]; naive_solver. Qed.

Lemma load_Subgraph_lookup h p s :
  load_Subgraph h p = Some s ↔ h !! p = Some (Object (OSubgraph s)).
Proof. unfold load_Subgraph, load_obj. destruct (h !! p) as [[[]|]|]; naive_solver. Qed.

Lemma load_NodeStyle_lookup h p s :
  load_NodeStyle h p = Some s ↔ h !! p = Some (Object (ONodeStyle s)).
Proof. unfold load_NodeStyle, load_obj. destruct (h !! p) as [[[]|]|]; naive_solver. Qed.

Lemma load_EdgeStyle_lookup h p s :
  load_EdgeStyle h p = Some s ↔ h !! p = Some (Object (OEdgeStyle s)).
Proof. unfold load_EdgeStyle, load_obj. destruct (h !! p) as [[[]|]|]; naive_solver. Qed.

(** Entities that were in place stay in place when the structs are kept. *)
Lemma entities_ok_keeps fc h h' f v :
  deref h fc = Some f → keeps fc h h' → entities_ok fc h v → entities_ok fc h' v.
Proof.
  intros Hfc%deref_lookup (_ & Hk & _) (Hn & Hs & Hns & Hes). split_and!.
  - intros id p Hp. destruct (Hn id p Hp) as (n & Hl%load_Node_lookup & E).
    exists n. split; [|done]. apply load_Node_lookup, Hk; [|done]. intros ->. congruence.
  - intros id p Hp. destruct (Hs id p Hp) as (s & Hl%load_Subgraph_lookup & E).
    exists s. split; [|done]. apply load_Subgraph_lookup, Hk; [|done]. intros ->. congruence.
  - intros id p Hp. destruct (Hns id p Hp) as (s & Hl%load_NodeStyle_lookup & E).
    exists s. split; [|done]. apply load_NodeStyle_lookup, Hk; [|done]. intros ->. congruence.
  - intros id p Hp. destruct (Hes id p Hp) as (s & Hl%load_EdgeStyle_lookup & E).
    exists s. split; [|done]. apply load_EdgeStyle_lookup, Hk; [|done]. intros ->. congruence.
Qed.

(** The tail shared by AddNode and AddSubgraph, in full: the new entity
    sits in a new cell and at the end of the rendering order, the structs
    that were there are as they were. *)
Lemma add_item_spec fc f f1 (c : object) h es its0 :
  deref h fc = Some f → fields_ok h f es → edges_ok h es →
  slice_elems h (items f) = Some (Some <$> its0) →
  edges f1 = edges f → items f1 = items f →
  ∃ its h',
    (h1 ← assign fc f1 (h ++ [Object c]);
     '(its, h2) ← append (items f1) (Some (length h)) h1;
     h3 ← assign fc (set_items its f1) h2;
     Some (Some (length h), h3)) = Some (Some (length h), h') ∧
    deref h' fc = Some (set_items its f1) ∧
    fields_ok h' (set_items its f1) es ∧ edges_ok h' es ∧
    slice_elems h' its = Some (Some <$> (its0 ++ [length h])) ∧
    length h ≤ length h' ∧
    (∀ p o, p ≠ fc → h !! p = Some (Object o) → h' !! p = Some (Object o)) ∧
    h' !! length h = Some (Object c) ∧
    (∀ p, p < length h → p ≠ fc → s_arr (items f) ≠ Some p → h' !! p = h !! p) ∧
    (∀ a, s_arr its = Some a → s_arr (items f) = Some a ∨ length h ≤ a).
Proof.
  intros Hfc Hf Hes Hits Ee Ei.
  pose proof (deref_lt _ _ _ Hfc) as Hlt.
  pose proof (proj1 (deref_lookup _ _ _) Hfc) as Hcell.
  assert (fields_ok (h ++ [Object c]) f es) as Hf0 by by apply fields_ok_alloc.
  assert (edges_ok (h ++ [Object c]) es) as Hes0 by by apply edges_ok_alloc.
  assert ((h ++ [Object c]) !! fc = Some (Object (OFlowchart f))) as Hcell0
    by by apply lookup_app_l_Some.
  set (h1 := <[fc := Object (OFlowchart f1)]> (h ++ [Object c])).
  assert (store fc (Object (OFlowchart f1)) (h ++ [Object c]) = Some h1) as Hst1
    by (apply store_is_Some; rewrite length_app; lia).
  assert (fields_ok h1 f es) as Hf1 by by eapply fields_ok_store_obj.
  assert (edges_ok h1 es) as Hes1.
  { eapply edges_ok_store_flowchart; [done| |done]. by apply deref_lookup. }
  assert (slice_elems h1 (items f) = Some (Some <$> its0)) as Hits1.
  { destruct (slice_store_obj _ _ _ _ _ (items f) Hst1 Hcell0) as [-> _].
    destruct Hf as (_ & Hi & _). by destruct (slice_alloc (Object c) _ _ Hi) as [-> _]. }
  destruct Hf1 as (He1 & Hi1 & Hd1 & Hse1).
  destruct (append_ok (items f) (Some (length h)) h1 Hi1)
    as (its & h2 & old & Happ & Hold & Hnew & Hwf2 & Hlen2 & Hle2 & Hframe2 & Harr2).
  assert (old = Some <$> its0) as -> by congruence.
  assert (length h1 = S (length h)) as Hl1.
  { unfold h1. rewrite length_insert, length_app. simpl. lia. }
  assert (h2 !! fc = Some (Object (OFlowchart f1))) as Hcell2.
  { eapply append_obj; [exact Hi1|exact Happ|]. unfold h1. apply list_lookup_insert_eq.
    rewrite length_app. lia. }
  set (h3 := <[fc := Object (OFlowchart (set_items its f1))]> h2).
  assert (store fc (Object (OFlowchart (set_items its f1))) h2 = Some h3) as Hst3
    by (apply store_is_Some; lia).
  exists its, h3. split.
  { unfold assign. rewrite Hst1. simpl. rewrite Ei, Happ. simpl. by rewrite Hst3. }
  split.
  { eapply assign_deref. exact Hst3. }
  split_and!.
  - eapply fields_ok_store_obj; [done..|].
    destruct (slice_append_other _ _ _ _ _ (edges f) Happ Hi1 He1) as [Hse2 Hwe2].
    { intros a Ha Hb. by eapply Hd1. }
    unfold fields_ok. simpl. rewrite Ee. split_and!; try done.
    + intros a Ha Hb. destruct (Harr2 _ Hb) as [Hc| ->].
      * by eapply Hd1.
      * unfold wf_slice in He1. rewrite Ha in He1. destruct He1 as (arr & Harr & _).
        apply load_arr_lt in Harr. lia.
    + by rewrite Hse2.
  - eapply edges_ok_store_flowchart; [done|by apply deref_lookup|].
    eapply edges_ok_append; [exact Hi1|exact Happ|done].
  - destruct (slice_store_obj _ _ _ _ _ its Hst3 Hcell2) as [-> _].
    by rewrite Hnew, fmap_app.
  - unfold h3. rewrite length_insert. lia.
  - intros p o Hp Hc. unfold h3. rewrite list_lookup_insert_ne by done.
    eapply append_obj; [exact Hi1|exact Happ|]. unfold h1.
    rewrite list_lookup_insert_ne by done. by apply lookup_app_l_Some.
  - unfold h3. rewrite list_lookup_insert_ne by lia.
    eapply append_obj; [exact Hi1|exact Happ|]. unfold h1.
    rewrite list_lookup_insert_ne by lia. by apply list_lookup_middle.
  - intros p Hp Hne Harr. unfold h3. rewrite list_lookup_insert_ne by done.
    rewrite Hframe2; [|lia|congruence]. unfold h1.
    rewrite list_lookup_insert_ne by done. by apply lookup_app_l.
  - intros a Ha. destruct (Harr2 a Ha) as [Hold'|Hnew']; [by left|right; lia].
Qed.

Lemma step_spec_same fc c h v :
  models fc h v → do_call fc c h = Some (answer v c (length h), h) →
  update v c (length h) = v → created fc v c = None → step_spec fc c h v h.
Proof.
  intros Hm Hc Hu Hn. unfold step_spec. rewrite Hu, Hn. split_and!; try done.
  - apply keeps_refl.
  - intros f Hf. split; [done|]. intros f' p Hf' Hp. left. by simplify_eq.
Qed.

Lemma AddNode_spec fc id h v : models fc h v → ∃ h', step_spec fc (CallAddNode id) h v h'.
Proof.
  intros Hm. pose proof Hm as (f & Hfc & Ens & Ees & Esg & En & Hf & Hes & Hits & Hent & Hperm).
  destruct (v_nodes v !! id) as [n|] eqn:Hid.
  - exists h. apply step_spec_same; simpl; rewrite ?Hid; try done.
    unfold AddNode. rewrite Hfc. simpl. by rewrite En, Hid.
  - destruct (add_item_spec fc f (set_nodes (<[id := length h]> (nodes f)) f)
                (ONode {| node_id := id; node_Shape := NShapeRect; node_rest := zero |})
                h _ _ Hfc Hf Hes Hits eq_refl eq_refl)
      as (its & h' & E & Hfc' & Hf' & Hes' & Hits' & Hle & Hk & Hnew & Hcells & Harr).
    assert (keeps fc h h') as Hkeeps.
    { split; [done|]. split; [done|]. intros f0 Hf0. simplify_eq. eexists. split; [done|]. done. }
    assert (AddNode fc id h = Some (Some (length h), h')) as Hcall.
    { unfold AddNode. rewrite Hfc. simpl. destruct (nodes f !! id) eqn:Ef; [congruence|].
      exact E. }
    exists h'. unfold step_spec. simpl. rewrite Hid. split_and!.
    + by rewrite Hcall.
    + eexists. split; [exact Hfc'|]. simpl. split_and!; try done.
      * by rewrite En.
      * pose proof (entities_ok_keeps _ _ _ _ _ Hfc Hkeeps Hent) as (Hn & Hs & Hns & Hees).
        split_and!; try done. simpl. intros i p Hp.
        destruct (decide (id = i)) as [->|Hne].
        -- rewrite lookup_insert_eq in Hp. simplify_eq. eexists.
           split; [by apply load_Node_lookup|done].
        -- rewrite lookup_insert_ne in Hp by done. by apply Hn.
      * rewrite map_to_list_insert by done. simpl. rewrite <- Hperm.
        by rewrite (Permutation_cons_append _ (length h)).
    + done.
    + by intros o [= <-].
    + intros f0 Hf0. simplify_eq. split.
      * intros p Hp Hown. apply Hcells; [done|..]; intros ?; apply Hown; unfold own; auto.
      * intros f0 p Hf0 [->|[Hp|Hp]]; simplify_eq; simpl in *.
        -- left. by left.
        -- destruct (Harr _ Hp) as [?|?]; [left; unfold own; auto|by right].
        -- left. unfold own. auto.
Qed.

Lemma AddSubgraph_spec fc id h v :
  models fc h v → ∃ h', step_spec fc (CallAddSubgraph id) h v h'.
Proof.
  intros Hm. pose proof Hm as (f & Hfc & Ens & Ees & Esg & En & Hf & Hes & Hits & Hent & Hperm).
  destruct (v_subgraphs v !! id) as [n|] eqn:Hid.
  - exists h. apply step_spec_same; simpl; rewrite ?Hid; try done.
    unfold AddSubgraph. rewrite Hfc. simpl. by rewrite Esg, Hid.
  - destruct (add_item_spec fc f (set_subgraphs (<[id := length h]> (subgraphs f)) f)
                (OSubgraph {| subgraph_id := id; subgraph_flowchart := Some fc;
                              subgraph_rest := zero |})
                h _ _ Hfc Hf Hes Hits eq_refl eq_refl)
      as (its & h' & E & Hfc' & Hf' & Hes' & Hits' & Hle & Hk & Hnew & Hcells & Harr).
    assert (keeps fc h h') as Hkeeps.
    { split; [done|]. split; [done|]. intros f0 Hf0. simplify_eq. eexists. split; [done|]. done. }
    assert (AddSubgraph fc id h = Some (Some (length h), h')) as Hcall.
    { unfold AddSubgraph. rewrite Hfc. simpl.
      destruct (subgraphs f !! id) eqn:Ef; [congruence|]. exact E. }
    exists h'. unfold step_spec. simpl. rewrite Hid. split_and!.
    + by rewrite Hcall.
    + eexists. split; [exact Hfc'|]. simpl. split_and!; try done.
      * by rewrite Esg.
      * pose proof (entities_ok_keeps _ _ _ _ _ Hfc Hkeeps Hent) as (Hn & Hs & Hns & Hees).
        split_and!; try done. simpl. intros i p Hp.
        destruct (decide (id = i)) as [->|Hne].
        -- rewrite lookup_insert_eq in Hp. simplify_eq. eexists.
           split; [by apply load_Subgraph_lookup|done].
        -- rewrite lookup_insert_ne in Hp by done. by apply Hs.
      * rewrite map_to_list_insert by done. simpl. rewrite <- Hperm.
        rewrite <- app_assoc. apply Permutation_app_head.
        by rewrite (Permutation_cons_append _ (length h)).
    + done.
    + by intros o [= <-].
    + intros f0 Hf0. simplify_eq. split.
      * intros p Hp Hown. apply Hcells; [done|..]; intros ?; apply Hown; unfold own; auto.
      * intros f0 p Hf0 [->|[Hp|Hp]]; simplify_eq; simpl in *.
        -- left. by left.
        -- destruct (Harr _ Hp) as [?|?]; [left; unfold own; auto|by right].
        -- left. unfold own. auto.
Qed.

(** A new style: a new struct and a new entry in one of the style maps;
    nothing else moves. *)
Lemma add_style_spec fc f f1 (c : object) h es its0 :
  deref h fc = Some f → fields_ok h f es → edges_ok h es →
  slice_elems h (items f) = Some (Some <$> its0) →
  edges f1 = edges f → items f1 = items f →
  ∃ h', assign fc f1 (h ++ [Object c]) = Some h' ∧ deref h' fc = Some f1 ∧
    fields_ok h' f1 es ∧ edges_ok h' es ∧
    slice_elems h' (items f1) = Some (Some <$> its0) ∧
    length h ≤ length h' ∧
    (∀ p o, p ≠ fc → h !! p = Some (Object o) → h' !! p = Some (Object o)) ∧
    h' !! length h = Some (Object c) ∧
    (∀ p, p < length h → p ≠ fc → h' !! p = h !! p).
Proof.
  intros Hfc Hf Hes Hits Ee Ei.
  pose proof (deref_lt _ _ _ Hfc) as Hlt.
  pose proof (proj1 (deref_lookup _ _ _) Hfc) as Hcell.
  set (h1 := <[fc := Object (OFlowchart f1)]> (h ++ [Object c])).
  assert (store fc (Object (OFlowchart f1)) (h ++ [Object c]) = Some h1) as Hst1
    by (apply store_is_Some; rewrite length_app; lia).
  assert ((h ++ [Object c]) !! fc = Some (Object (OFlowchart f))) as Hcell0
    by by apply lookup_app_l_Some.
  exists h1. split; [done|].
  assert (deref h1 fc = Some f1) as Hfc1 by by eapply assign_deref.
  split_and!; try done.
  - eapply fields_ok_store_obj; [done..|].
    apply fields_ok_alloc. destruct Hf as (? & ? & ? & ?).
    unfold fields_ok. by rewrite Ee, Ei.
  - eapply edges_ok_store_flowchart; [done|by apply deref_lookup|].
    by apply edges_ok_alloc.
  - destruct (slice_store_obj _ _ _ _ _ (items f1) Hst1 Hcell0) as [-> _]. rewrite Ei.
    destruct Hf as (_ & Hi & _). by destruct (slice_alloc (Object c) _ _ Hi) as [-> _].
  - unfold h1. rewrite length_insert, length_app. lia.
  - intros p o Hp Hc. unfold h1. rewrite list_lookup_insert_ne by done.
    by apply lookup_app_l_Some.
  - unfold h1. rewrite list_lookup_insert_ne by lia. by apply list_lookup_middle.
  - intros p Hp Hne. unfold h1. rewrite list_lookup_insert_ne by done. by apply lookup_app_l.
Qed.

Lemma NodeStyle_spec fc id h v :
  models fc h v → ∃ h', step_spec fc (CallNodeStyle id) h v h'.
Proof.
  intros Hm. pose proof Hm as (f & Hfc & Ens & Ees & Esg & En & Hf & Hes & Hits & Hent & Hperm).
  destruct (v_nodeStyles v !! id) as [n|] eqn:Hid.
  - exists h. apply step_spec_same; simpl; rewrite ?Hid; try done.
    unfold Flowchart_NodeStyle. rewrite Hfc. simpl. by rewrite Ens, Hid.
  - destruct (add_style_spec fc f (set_nodeStyles (<[id := length h]> (nodeStyles f)) f)
                (ONodeStyle {| nodeStyle_id := id; nodeStyle_StrokeWidth := 1;
                               nodeStyle_rest := zero |})
                h _ _ Hfc Hf Hes Hits eq_refl eq_refl)
      as (h' & E & Hfc' & Hf' & Hes' & Hits' & Hle & Hk & Hnew & Hcells).
    assert (keeps fc h h') as Hkeeps.
    { split; [done|]. split; [done|]. intros f0 Hf0. simplify_eq. eexists. split; [done|]. done. }
    assert (Flowchart_NodeStyle fc id h = Some (length h, h')) as Hcall.
    { unfold Flowchart_NodeStyle. rewrite Hfc. simpl.
      destruct (nodeStyles f !! id) eqn:Ef; [congruence|]. simpl.
      by rewrite E. }
    exists h'. unfold step_spec. simpl. rewrite Hid. split_and!.
    + by rewrite Hcall.
    + eexists. split; [exact Hfc'|]. simpl. split_and!; try done.
      * by rewrite Ens.
      * pose proof (entities_ok_keeps _ _ _ _ _ Hfc Hkeeps Hent) as (Hn & Hs & Hns & Hees).
        split_and!; try done. simpl. intros i p Hp.
        destruct (decide (id = i)) as [->|Hne].
        -- rewrite lookup_insert_eq in Hp. simplify_eq. eexists.
           split; [by apply load_NodeStyle_lookup|done].
        -- rewrite lookup_insert_ne in Hp by done. by apply Hns.
    + done.
    + by intros o [= <-].
    + intros f0 Hf0. simplify_eq. split.
      * intros p Hp Hown. apply Hcells; [done|]. intros ?. apply Hown. by left.
      * intros f0 p Hf0 Hp. left. by simplify_eq.
Qed.

Lemma EdgeStyle_spec fc id h v :
  models fc h v → ∃ h', step_spec fc (CallEdgeStyle id) h v h'.
Proof.
  intros Hm. pose proof Hm as (f & Hfc & Ens & Ees & Esg & En & Hf & Hes & Hits & Hent & Hperm).
  destruct (v_edgeStyles v !! id) as [n|] eqn:Hid.
  - exists h. apply step_spec_same; simpl; rewrite ?Hid; try done.
    unfold Flowchart_EdgeStyle. rewrite Hfc. simpl. by rewrite Ees, Hid.
  - destruct (add_style_spec fc f (set_edgeStyles (<[id := length h]> (edgeStyles f)) f)
                (OEdgeStyle {| edgeStyle_id := id; edgeStyle_StrokeWidth := 1;
                               edgeStyle_rest := zero |})
                h _ _ Hfc Hf Hes Hits eq_refl eq_refl)
      as (h' & E & Hfc' & Hf' & Hes' & Hits' & Hle & Hk & Hnew & Hcells).
    assert (keeps fc h h') as Hkeeps.
    { split; [done|]. split; [done|]. intros f0 Hf0. simplify_eq. eexists. split; [done|]. done. }
    assert (Flowchart_EdgeStyle fc id h = Some (length h, h')) as Hcall.
    { unfold Flowchart_EdgeStyle. rewrite Hfc. simpl.
      destruct (edgeStyles f !! id) eqn:Ef; [congruence|]. simpl.
      by rewrite E. }
    exists h'. unfold step_spec. simpl. rewrite Hid. split_and!.
    + by rewrite Hcall.
    + eexists. split; [exact Hfc'|]. simpl. split_and!; try done.
      * by rewrite Ees.
      * pose proof (entities_ok_keeps _ _ _ _ _ Hfc Hkeeps Hent) as (Hn & Hs & Hns & Hees).
        split_and!; try done. simpl. intros i p Hp.
        destruct (decide (id = i)) as [->|Hne].
        -- rewrite lookup_insert_eq in Hp. simplify_eq. eexists.
           split; [by apply load_EdgeStyle_lookup|done].
        -- rewrite lookup_insert_ne in Hp by done. by apply Hees.
    + done.
    + by intros o [= <-].
    + intros f0 Hf0. simplify_eq. split.
      * intros p Hp Hown. apply Hcells; [done|]. intros ?. apply Hown. by left.
      * intros f0 p Hf0 Hp. left. by simplify_eq.
Qed.

Lemma ListEdges_spec fc h v : models fc h v → ∃ h', step_spec fc CallListEdges h v h'.
Proof.
  intros Hm. pose proof Hm as (f & Hfc & Ens & Ees & Esg & En & Hf & Hes & Hits & Hent & Hperm).
  destruct (ListEdges_inv fc h (v_edges v)) as [Hcall _]; [by exists f|].
  assert (deref (h ++ [Array (Some <$> v_edges v)]) fc = Some f) as Hfc'.
  { apply deref_lookup. apply lookup_app_l_Some. by apply deref_lookup. }
  assert (keeps fc h (h ++ [Array (Some <$> v_edges v)])) as Hkeeps.
  { split; [rewrite length_app; lia|]. split.
    - intros p o _ Hp. by apply lookup_app_l_Some.
    - intros f0 Hf0. simplify_eq. by exists f. }
  eexists. unfold step_spec. simpl. split_and!.
  - by rewrite Hcall.
  - exists f. split_and!; try done.
    + by apply fields_ok_alloc.
    + by apply edges_ok_alloc.
    + destruct Hf as (_ & Hi & _). by destruct (slice_alloc (Array (Some <$> v_edges v)) _ _ Hi) as [-> _].
    + exact (entities_ok_keeps _ _ _ _ _ Hfc Hkeeps Hent).
  - done.
  - done.
  - intros f0 Hf0. simplify_eq. split.
    + intros p Hp _. by apply lookup_app_l.
    + intros f0 p Hf0 Hp. left. by simplify_eq.
Qed.

Lemma AddEdge_spec fc from to h v :
  models fc h v → ∃ h', step_spec fc (CallAddEdge from to) h v h'.
Proof.
  intros Hm. pose proof Hm as (f & Hfc & Ens & Ees & Esg & En & Hf & Hes & Hits & Hent & Hperm).
  set (es := v_edges v) in *.
  pose proof (deref_lt _ _ _ Hfc) as Hlt.
  pose proof (proj1 (deref_lookup _ _ _) Hfc) as Hcell.
  set (e0 := {| edge_From := from; edge_To := to; edge_Shape := EShapeArrow;
                edge_id := 0; edge_rest := zero |}).
  set (h1 := h ++ [Object (OEdge e0)]).
  assert (fields_ok h1 f es) as (He1 & Hi1 & Hd1 & Hse1) by by apply fields_ok_alloc.
  assert (edges_ok h1 es) as Hes1 by by apply edges_ok_alloc.
  assert (h1 !! fc = Some (Object (OFlowchart f))) as Hcell1 by by apply lookup_app_l_Some.
  assert (h1 !! length h = Some (Object (OEdge e0))) as Hedge1
    by by apply list_lookup_middle.
  assert (length h1 = S (length h)) as Hl1 by (unfold h1; rewrite length_app; simpl; lia).
  destruct (append_ok (edges f) (Some (length h)) h1 He1)
    as (s' & h2 & old & Happ & Hold & Hnew & Hwf2 & Hlen2 & Hle2 & Hframe2 & Harr2).
  assert (h2 !! fc = Some (Object (OFlowchart f))) as Hcell2
    by (eapply append_obj; [exact He1|exact Happ|done]).
  assert (h2 !! length h = Some (Object (OEdge e0))) as Hedge2
    by (eapply append_obj; [exact He1|exact Happ|done]).
  set (f' := set_edges s' f).
  set (h3 := <[fc := Object (OFlowchart f')]> h2).
  assert (store fc (Object (OFlowchart f')) h2 = Some h3) as Hst3
    by (apply store_is_Some; lia).
  assert (h3 !! length h = Some (Object (OEdge e0))) as Hedge3.
  { unfold h3. rewrite list_lookup_insert_ne by lia. done. }
  set (x := set_edge_id (Z.of_nat (s_len s') - 1) e0).
  set (h4 := <[length h := Object (OEdge x)]> h3).
  assert (length h3 = length h2) as Hl3 by (unfold h3; by rewrite length_insert).
  assert (store (length h) (Object (OEdge x)) h3 = Some h4) as Hst4
    by (apply store_is_Some; lia).
  assert (AddEdge fc from to h = Some (length h, h4)) as Hcall.
  { unfold AddEdge. rewrite Hfc. simpl. fold e0. fold h1. rewrite Happ. simpl.
    unfold assign. fold f'. rewrite Hst3. simpl.
    rewrite (proj2 (load_Edge_lookup _ _ _) Hedge3). simpl. fold x. by rewrite Hst4. }
  assert (Some <$> es = old) as <- by congruence.
  pose proof (slice_elems_length _ _ _ Hse1) as Hl. rewrite length_fmap in Hl.
  destruct (slice_append_other _ _ _ _ _ (items f) Happ He1 Hi1) as [Hsi2 Hwi2].
  { intros a Ha Hb. by eapply Hd1. }
  assert (deref h4 fc = Some f') as Hfc4.
  { apply deref_lookup. unfold h4. rewrite list_lookup_insert_ne by lia.
    unfold h3. apply list_lookup_insert_eq. lia. }
  assert (x = {| edge_From := from; edge_To := to; edge_Shape := EShapeArrow;
                 edge_id := Z.of_nat (length es); edge_rest := zero |}) as Hx.
  { unfold x, set_edge_id, e0. simpl. f_equal. lia. }
  assert (keeps fc h h4) as Hkeeps.
  { split; [unfold h4, h3; rewrite !length_insert; lia|]. split.
    - intros p o Hp Hc. assert (p < length h) by by eapply lookup_lt_Some.
      unfold h4, h3. rewrite list_lookup_insert_ne by lia.
      rewrite list_lookup_insert_ne by done.
      eapply append_obj; [exact He1|exact Happ|]. by apply lookup_app_l_Some.
    - intros f0 Hf0. simplify_eq. exists f'. done. }
  exists h4. unfold step_spec. simpl. fold es. split_and!.
  - by rewrite Hcall.
  - exists f'. split; [done|]. simpl. split_and!; try done.
    + eapply fields_ok_store_obj; [exact Hst4|exact Hedge3|].
      eapply fields_ok_store_obj; [exact Hst3|exact Hcell2|].
      unfold fields_ok. simpl. split_and!; try done.
      * intros a Ha Hb. destruct (Harr2 _ Ha) as [Hc| ->].
        -- by eapply Hd1.
        -- unfold wf_slice in Hi1. rewrite Hb in Hi1. destruct Hi1 as (arr & Harr & _).
           apply load_arr_lt in Harr. lia.
      * by rewrite Hnew, fmap_app.
    + intros n e Hn. destruct (decide (n < length es)) as [Hlt'|Hge].
      * rewrite lookup_app_l in Hn by done.
        destruct (Hes n e Hn) as (y & Hy & Hid). exists y. split; [|done].
        apply load_Edge_lookup. apply load_Edge_lookup in Hy.
        destruct Hkeeps as (_ & Hk & _). apply Hk; [|done]. intros ->. congruence.
      * rewrite lookup_app_r in Hn by lia.
        destruct (n - length es) as [|k] eqn:Ek; [|by destruct k].
        simpl in Hn. injection Hn as <-. exists x. split.
        -- apply load_Edge_lookup. unfold h4. apply list_lookup_insert_eq. lia.
        -- rewrite Hx. simpl. lia.
    + destruct (slice_store_obj _ _ _ _ _ (items f) Hst4 Hedge3) as [-> _].
      destruct (slice_store_obj _ _ _ _ _ (items f) Hst3 Hcell2) as [-> _].
      rewrite Hsi2. destruct (slice_alloc (Object (OEdge e0)) _ _ (proj1 (proj2 Hf))) as [E _].
      fold h1 in E. by rewrite E.
    + exact (entities_ok_keeps _ _ _ _ _ Hfc Hkeeps Hent).
  - done.
  - intros o [= <-]. rewrite <- Hx. unfold h4. apply list_lookup_insert_eq. lia.
  - intros f0 Hf0. simplify_eq. split.
    + intros p Hp Hown. unfold h4, h3. rewrite list_lookup_insert_ne by lia.
      rewrite list_lookup_insert_ne by (intros <-; apply Hown; by left).
      rewrite Hframe2; [|lia|]. { by apply lookup_app_l. }
      intros Heq. apply Hown. unfold own. auto.
    + intros f0 p Hf0 [->|[Hp|Hp]]; simplify_eq; simpl in *.
      * left. by left.
      * left. unfold own. auto.
      * destruct (Harr2 _ Hp) as [?|Hnew']; [left; unfold own; auto|right; lia].
Qed.

Lemma do_call_spec fc c h v : models fc h v → ∃ h', step_spec fc c h v h'.
Proof.
  intros Hm. destruct c.
  - by apply NodeStyle_spec.
  - by apply EdgeStyle_spec.
  - by apply AddSubgraph_spec.
  - by apply AddNode_spec.
  - by apply AddEdge_spec.
  - by apply ListEdges_spec.
Qed.

Lemma update_extends v c p : extends v (update v c p).
Proof.
  unfold extends. destruct c as [id|id|id|id|from to|]; simpl; try done.
  - destruct (v_nodeStyles v !! id) eqn:E; simpl; split_and!; try done.
    by apply insert_subseteq.
  - destruct (v_edgeStyles v !! id) eqn:E; simpl; split_and!; try done.
    by apply insert_subseteq.
  - destruct (v_subgraphs v !! id) eqn:E; simpl; split_and!; try done.
    by apply insert_subseteq.
  - destruct (v_nodes v !! id) eqn:E; simpl; split_and!; try done.
    by apply insert_subseteq.
Qed.

Lemma update_untouched v c p : untouched [c] v (update v c p).
Proof.
  unfold untouched. destruct c as [id|id|id|id|from to|]; simpl; try done.
  - destruct (v_nodeStyles v !! id) eqn:E; simpl; split_and!; try done.
    intros i Hi. apply lookup_insert_ne. intros ->. apply Hi. by left.
  - destruct (v_edgeStyles v !! id) eqn:E; simpl; split_and!; try done.
    intros i Hi. apply lookup_insert_ne. intros ->. apply Hi. by left.
  - destruct (v_subgraphs v !! id) eqn:E; simpl; split_and!; try done.
    intros i Hi. apply lookup_insert_ne. intros ->. apply Hi. by left.
  - destruct (v_nodes v !! id) eqn:E; simpl; split_and!; try done.
    intros i Hi. apply lookup_insert_ne. intros ->. apply Hi. by left.
Qed.

Lemma update_registered v c p : registered [c] (update v c p).
Proof.
  unfold registered.
  split_and!; intros i <-%list_elem_of_singleton; simpl.
  - destruct (v_nodeStyles v !! i) eqn:E; simpl; [by rewrite E|by rewrite lookup_insert_eq].
  - destruct (v_edgeStyles v !! i) eqn:E; simpl; [by rewrite E|by rewrite lookup_insert_eq].
  - destruct (v_subgraphs v !! i) eqn:E; simpl; [by rewrite E|by rewrite lookup_insert_eq].
  - destruct (v_nodes v !! i) eqn:E; simpl; [by rewrite E|by rewrite lookup_insert_eq].
Qed.

Lemma update_items v c p : v_items (update v c p) = v_items v ++ new_items [answer v c p].
Proof.
  destruct c as [id|id|id|id|from to|]; simpl; rewrite ?app_nil_r; try done.
  - by destruct (v_nodeStyles v !! id).
  - by destruct (v_edgeStyles v !! id).
  - destruct (v_subgraphs v !! id); simpl; by rewrite ?app_nil_r.
  - destruct (v_nodes v !! id); simpl; by rewrite ?app_nil_r.
Qed.

Lemma update_edges v c p : v_edges (update v c p) = v_edges v ++ new_edges [answer v c p].
Proof.
  destruct c as [id|id|id|id|from to|]; simpl; rewrite ?app_nil_r; try done.
  - by destruct (v_nodeStyles v !! id).
  - by destruct (v_edgeStyles v !! id).
  - by destruct (v_subgraphs v !! id).
  - by destruct (v_nodes v !! id).
Qed.

Lemma new_items_cons r rs : new_items (r :: rs) = new_items [r] ++ new_items rs.
Proof. unfold new_items. simpl. by destruct r as [| [] | |]. Qed.

Lemma extends_trans v1 v2 v3 : extends v1 v2 → extends v2 v3 → extends v1 v3.
Proof.
  intros (? & ? & ? & ?) (? & ? & ? & ?). unfold extends. split_and!; by etrans.
Qed.

(** Every run of calls on a well-formed diagram goes through; the maps
    and the lists only grow, by what the calls registered. *)
Lemma run_spec fc cs : ∀ h v,
  models fc h v →
  ∃ rs h' v', run fc cs h = Some (rs, h') ∧ models fc h' v' ∧ keeps fc h h' ∧
    extends v v' ∧ untouched cs v v' ∧ registered cs v' ∧
    v_items v' = v_items v ++ new_items rs ∧ v_edges v' = v_edges v ++ new_edges rs.
Proof.
  induction cs as [|c cs IH]; intros h v Hm; simpl.
  - exists [], h, v. rewrite !app_nil_r. split_and!; try done.
    + apply keeps_refl.
    + unfold registered. split_and!; intros id Hin; by apply elem_of_nil in Hin.
  - destruct (do_call_spec fc c h v Hm) as (h1 & Hc & Hm1 & Hk1 & _). rewrite Hc. simpl.
    destruct (IH h1 _ Hm1) as (rs & h' & v' & -> & Hm' & Hk' & Hex & Hun & Hreg & Hi & He).
    simpl. eexists _, _, v'. split; [done|].
    pose proof (update_extends v c (length h)) as Hex1.
    pose proof (update_untouched v c (length h)) as (U1 & U2 & U3 & U4).
    pose proof (update_registered v c (length h)) as (R1 & R2 & R3 & R4).
    destruct Hun as (U1' & U2' & U3' & U4'). destruct Hreg as (R1' & R2' & R3' & R4').
    pose proof Hex as (X1 & X2 & X3 & X4).
    split_and!; try done.
    + by eapply keeps_trans.
    + by eapply extends_trans.
    + unfold untouched. split_and!; intros id Hid%not_elem_of_cons; destruct Hid as [Hne Hid].
      * rewrite U1' by done. apply U1. by intros ?%list_elem_of_singleton.
      * rewrite U2' by done. apply U2. by intros ?%list_elem_of_singleton.
      * rewrite U3' by done. apply U3. by intros ?%list_elem_of_singleton.
      * rewrite U4' by done. apply U4. by intros ?%list_elem_of_singleton.
    + unfold registered. split_and!; intros id [<-|Hin]%elem_of_cons; auto.
      * destruct (R1 id) as [p Hp]; [by left|]. exists p. by eapply lookup_weaken.
      * destruct (R2 id) as [p Hp]; [by left|]. exists p. by eapply lookup_weaken.
      * destruct (R3 id) as [p Hp]; [by left|]. exists p. by eapply lookup_weaken.
      * destruct (R4 id) as [p Hp]; [by left|]. exists p. by eapply lookup_weaken.
    + by rewrite Hi, update_items, (new_items_cons _ rs), app_assoc.
    + by rewrite He, update_edges, (new_edges_cons _ rs), app_assoc.
Qed.

Lemma models_lt fc h v : models fc h v → fc < length h.
Proof. intros (f & Hfc & _). by eapply deref_lt. Qed.

(** A new Flowchart is well formed and empty. *)
Lemma NewFlowchart_models (h0 : heap) :
  models (NewFlowchart h0).1 (NewFlowchart h0).2 empty_view.
Proof.
  unfold NewFlowchart, alloc. simpl. eexists. split.
  { apply deref_lookup. by apply list_lookup_middle. }
  simpl. split_and!; done.
Qed.

(** A diagram whose cells all lie at [n] or above leaves the cells below
    [n] alone, whatever is called on it. *)
Lemma run_private n fc cs : ∀ h v rs h',
  models fc h v → n ≤ length h → private n fc h → run fc cs h = Some (rs, h') →
  take n h' = take n h.
Proof.
  induction cs as [|c cs IH]; intros h v rs h' Hm Hn Hp Hrun; simpl in Hrun.
  - by simplify_eq.
  - destruct (do_call_spec fc c h v Hm) as (h1 & Hc & Hm1 & (Hle & _) & _ & Hw).
    rewrite Hc in Hrun. simpl in Hrun.
    destruct (run fc cs h1) as [[rs1 h2]|] eqn:Hrun1; [|done]. simplify_eq/=.
    destruct Hp as (f & Hfc & Hown). destruct (Hw f Hfc) as [Hcells Hnew].
    pose proof Hm1 as (f1 & Hfc1 & _).
    assert (private n fc h1) as Hp1.
    { exists f1. split; [done|]. intros p Ho.
      destruct (Hnew f1 p Hfc1 Ho) as [Ho'|?]; [by apply Hown|lia]. }
    rewrite (IH h1 _ _ _ Hm1 ltac:(lia) Hp1 Hrun1).
    apply take_ext. intros p Hp. apply Hcells; [lia|]. intros Ho. apply Hown in Ho. lia.
Qed.

End FlowchartContents.

(** *** Flowchart: what the calls return, find, keep and render *)

Section FlowchartCalls.
Import Go flowchart.
Context `{Declarations} `{Growth}.
Local Abbreviation heap := (Go.heap object).
Implicit Types (h : heap) (f : Flowchart) (v : view).

Lemma do_call_NodeStyle fc id h p h' :
  do_call fc (CallNodeStyle id) h = Some (RStyle p, h') →
  Flowchart_NodeStyle fc id h = Some (p, h').
Proof. simpl. destruct (Flowchart_NodeStyle fc id h) as [[??]|]; naive_solver. Qed.

Lemma do_call_EdgeStyle fc id h p h' :
  do_call fc (CallEdgeStyle id) h = Some (RStyle p, h') →
  Flowchart_EdgeStyle fc id h = Some (p, h').
Proof. simpl. destruct (Flowchart_EdgeStyle fc id h) as [[??]|]; naive_solver. Qed.

Lemma do_call_AddNode fc id h p h' :
  do_call fc (CallAddNode id) h = Some (RItem p, h') → AddNode fc id h = Some (p, h').
Proof. simpl. destruct (AddNode fc id h) as [[??]|]; naive_solver. Qed.

Lemma do_call_AddSubgraph fc id h p h' :
  do_call fc (CallAddSubgraph id) h = Some (RItem p, h') → AddSubgraph fc id h = Some (p, h').
Proof. simpl. destruct (AddSubgraph fc id h) as [[??]|]; naive_solver. Qed.

Lemma do_call_AddEdge fc from to h p h' :
  do_call fc (CallAddEdge from to) h = Some (REdge p, h') →
  AddEdge fc from to h = Some (p, h').
Proof. simpl. destruct (AddEdge fc from to h) as [[??]|]; naive_solver. Qed.

(** NodeStyle(id) is get-or-create: whatever was called before and is
    called in between, two calls with the same identifier return the same
    pointer, the second call changes nothing, and the style carries the
    identifier. The first call ever with an identifier allocates the style,
    with stroke width 1. *)
Theorem NodeStyle_get_or_create (h0 : heap) (cs1 cs2 : list call) (id : string) :
  let fc := (NewFlowchart h0).1 in
  ∃ rs1 h1 s h2 rs2 h3,
    run fc cs1 (NewFlowchart h0).2 = Some (rs1, h1) ∧
    Flowchart_NodeStyle fc id h1 = Some (s, h2) ∧
    run fc cs2 h2 = Some (rs2, h3) ∧
    Flowchart_NodeStyle fc id h3 = Some (s, h3) ∧
    (∃ x, load_NodeStyle h3 s = Some x ∧ nodeStyle_id x = id) ∧
    (CallNodeStyle id ∉ cs1 →
       s = length h1 ∧
       load_NodeStyle h3 s = Some {| nodeStyle_id := id; nodeStyle_StrokeWidth := 1;
                                     nodeStyle_rest := zero |}).
Proof.
  intros fc.
  destruct (run_spec fc cs1 _ _ (NewFlowchart_models h0))
    as (rs1 & h1 & v1 & Hrun1 & Hm1 & _ & _ & Hun1 & _).
  destruct (NodeStyle_spec fc id h1 v1 Hm1) as (h2 & Hc%do_call_NodeStyle & Hm2 & Hk2 & Hnew & _).
  destruct (run_spec fc cs2 _ _ Hm2) as (rs2 & h3 & v3 & Hrun2 & Hm3 & Hk3 & Hex & _).
  set (s := default (length h1) (v_nodeStyles v1 !! id)) in *.
  assert (v_nodeStyles (update v1 (CallNodeStyle id) (length h1)) !! id = Some s) as Hs2.
  { unfold s. simpl. destruct (v_nodeStyles v1 !! id) eqn:E; simpl; [done|].
    by rewrite lookup_insert_eq. }
  assert (v_nodeStyles v3 !! id = Some s) as Hs3.
  { destruct Hex as (X & _). by eapply lookup_weaken. }
  destruct Hm3 as (f3 & Hfc3 & Ens & _ & _ & _ & _ & _ & _ & Hent & _).
  exists rs1, h1, s, h2, rs2, h3. split_and!; try done.
  - unfold Flowchart_NodeStyle. rewrite Hfc3. simpl. by rewrite Ens, Hs3.
  - destruct Hent as (_ & _ & Hns & _). by apply Hns.
  - intros Hnot. destruct Hun1 as (U & _). specialize (U id Hnot). simpl in U.
    rewrite lookup_empty in U. unfold s. rewrite U. simpl. split; [done|].
    apply load_NodeStyle_lookup. destruct Hk3 as (_ & Hk & _). apply Hk.
    + pose proof (models_lt _ _ _ Hm1). lia.
    + apply Hnew. simpl. by rewrite U.
Qed.

(** EdgeStyle(id) is get-or-create, like NodeStyle(id). *)
Theorem EdgeStyle_get_or_create (h0 : heap) (cs1 cs2 : list call) (id : string) :
  let fc := (NewFlowchart h0).1 in
  ∃ rs1 h1 s h2 rs2 h3,
    run fc cs1 (NewFlowchart h0).2 = Some (rs1, h1) ∧
    Flowchart_EdgeStyle fc id h1 = Some (s, h2) ∧
    run fc cs2 h2 = Some (rs2, h3) ∧
    Flowchart_EdgeStyle fc id h3 = Some (s, h3) ∧
    (∃ x, load_EdgeStyle h3 s = Some x ∧ edgeStyle_id x = id) ∧
    (CallEdgeStyle id ∉ cs1 →
       s = length h1 ∧
       load_EdgeStyle h3 s = Some {| edgeStyle_id := id; edgeStyle_StrokeWidth := 1;
                                     edgeStyle_rest := zero |}).
Proof.
  intros fc.
  destruct (run_spec fc cs1 _ _ (NewFlowchart_models h0))
    as (rs1 & h1 & v1 & Hrun1 & Hm1 & _ & _ & Hun1 & _).
  destruct (EdgeStyle_spec fc id h1 v1 Hm1) as (h2 & Hc%do_call_EdgeStyle & Hm2 & Hk2 & Hnew & _).
  destruct (run_spec fc cs2 _ _ Hm2) as (rs2 & h3 & v3 & Hrun2 & Hm3 & Hk3 & Hex & _).
  set (s := default (length h1) (v_edgeStyles v1 !! id)) in *.
  assert (v_edgeStyles (update v1 (CallEdgeStyle id) (length h1)) !! id = Some s) as Hs2.
  { unfold s. simpl. destruct (v_edgeStyles v1 !! id) eqn:E; simpl; [done|].
    by rewrite lookup_insert_eq. }
  assert (v_edgeStyles v3 !! id = Some s) as Hs3.
  { destruct Hex as (_ & X & _). by eapply lookup_weaken. }
  destruct Hm3 as (f3 & Hfc3 & _ & Ees & _ & _ & _ & _ & _ & Hent & _).
  exists rs1, h1, s, h2, rs2, h3. split_and!; try done.
  - unfold Flowchart_EdgeStyle. rewrite Hfc3. simpl. by rewrite Ees, Hs3.
  - destruct Hent as (_ & _ & _ & Hes). by apply Hes.
  - intros Hnot. destruct Hun1 as (_ & U & _). specialize (U id Hnot). simpl in U.
    rewrite lookup_empty in U. unfold s. rewrite U. simpl. split; [done|].
    apply load_EdgeStyle_lookup. destruct Hk3 as (_ & Hk & _). apply Hk.
    + pose proof (models_lt _ _ _ Hm1). lia.
    + apply Hnew. simpl. by rewrite U.
Qed.

Local Instance call_eq_dec : EqDecision call.
Proof. solve_decision. Defined.

(** AddNode(id) returns nil exactly when an earlier AddNode used the
    identifier; what subgraphs and styles are called plays no part.
    Otherwise it returns a new cell holding the rectangular node [id],
    registers it under [id], and puts it at the end of the rendering
    order. *)
Theorem AddNode_creates_unless_taken (h0 : heap) (cs : list call) (id : string) :
  let fc := (NewFlowchart h0).1 in
  ∃ rs h r h' f f' its,
    run fc cs (NewFlowchart h0).2 = Some (rs, h) ∧
    AddNode fc id h = Some (r, h') ∧
    (r = None ↔ CallAddNode id ∈ cs) ∧
    deref h fc = Some f ∧ deref h' fc = Some f' ∧
    slice_elems h (items f) = Some its ∧
    ∀ n, r = Some n →
      n = length h ∧
      load_Node h' n = Some {| node_id := id; node_Shape := NShapeRect; node_rest := zero |} ∧
      GetNode fc id h' = Some (Some n) ∧
      slice_elems h' (items f') = Some (its ++ [Some n]).
Proof.
  intros fc.
  destruct (run_spec fc cs _ _ (NewFlowchart_models h0))
    as (rs & h & v & Hrun & Hm & _ & _ & Hun & Hreg & _).
  destruct (AddNode_spec fc id h v Hm) as (h' & Hc%do_call_AddNode & Hm' & Hk & Hnew & _).
  pose proof Hm as (f & Hfc & _ & _ & _ & En & _ & _ & Hits & _).
  pose proof Hm' as (f' & Hfc' & _ & _ & _ & En' & _ & _ & Hits' & _).
  eexists rs, h, _, h', f, f', _. split_and!; try done.
  - split.
    + intros Hr. destruct (decide (CallAddNode id ∈ cs)) as [|Hnot]; [done|].
      destruct Hun as (_ & _ & _ & U). specialize (U id Hnot). simpl in U.
      rewrite lookup_empty in U. by rewrite U in Hr.
    + intros Hin. destruct Hreg as (_ & _ & _ & R). destruct (R id Hin) as [p Hp].
      by rewrite Hp.
  - intros n Hr. destruct (v_nodes v !! id) eqn:Hid; [done|]. injection Hr as <-.
    split_and!; try done.
    + apply load_Node_lookup. apply Hnew. simpl. by rewrite Hid.
    + unfold GetNode. rewrite Hfc'. simpl. rewrite En'. simpl. rewrite Hid. simpl.
      by rewrite lookup_insert_eq.
    + rewrite Hits'. simpl. rewrite Hid. simpl. by rewrite fmap_app.
Qed.

(** AddSubgraph(id) returns nil exactly when an earlier AddSubgraph used
    the identifier. Otherwise it returns a new cell holding the subgraph
    [id] that points back to the diagram, registers it, and puts it at the
    end of the rendering order. *)
Theorem AddSubgraph_creates_unless_taken (h0 : heap) (cs : list call) (id : string) :
  let fc := (NewFlowchart h0).1 in
  ∃ rs h r h' f f' its,
    run fc cs (NewFlowchart h0).2 = Some (rs, h) ∧
    AddSubgraph fc id h = Some (r, h') ∧
    (r = None ↔ CallAddSubgraph id ∈ cs) ∧
    deref h fc = Some f ∧ deref h' fc = Some f' ∧
    slice_elems h (items f) = Some its ∧
    ∀ s, r = Some s →
      s = length h ∧
      load_Subgraph h' s = Some {| subgraph_id := id; subgraph_flowchart := Some fc;
                                   subgraph_rest := zero |} ∧
      GetSubgraph fc id h' = Some (Some s) ∧
      slice_elems h' (items f') = Some (its ++ [Some s]).
Proof.
  intros fc.
  destruct (run_spec fc cs _ _ (NewFlowchart_models h0))
    as (rs & h & v & Hrun & Hm & _ & _ & Hun & Hreg & _).
  destruct (AddSubgraph_spec fc id h v Hm) as (h' & Hc%do_call_AddSubgraph & Hm' & Hk & Hnew & _).
  pose proof Hm as (f & Hfc & _ & _ & Esg & _ & _ & _ & Hits & _).
  pose proof Hm' as (f' & Hfc' & _ & _ & Esg' & _ & _ & _ & Hits' & _).
  eexists rs, h, _, h', f, f', _. split_and!; try done.
  - split.
    + intros Hr. destruct (decide (CallAddSubgraph id ∈ cs)) as [|Hnot]; [done|].
      destruct Hun as (_ & _ & U & _). specialize (U id Hnot). simpl in U.
      rewrite lookup_empty in U. by rewrite U in Hr.
    + intros Hin. destruct Hreg as (_ & _ & R & _). destruct (R id Hin) as [p Hp].
      by rewrite Hp.
  - intros n Hr. destruct (v_subgraphs v !! id) eqn:Hid; [done|]. injection Hr as <-.
    split_and!; try done.
    + apply load_Subgraph_lookup. apply Hnew. simpl. by rewrite Hid.
    + unfold GetSubgraph. rewrite Hfc'. simpl. rewrite Esg'. simpl. rewrite Hid. simpl.
      by rewrite lookup_insert_eq.
    + rewrite Hits'. simpl. rewrite Hid. simpl. by rewrite fmap_app.
Qed.

(** GetNode(id) returns nil until the first AddNode(id); from then on,
    whatever else is called, it returns the node that call returned, and a
    node GetNode(id) returns carries the identifier [id]. *)
Theorem GetNode_finds_the_added_node (h0 : heap) (cs1 cs2 : list call) (id : string) :
  let fc := (NewFlowchart h0).1 in
  ∃ rs1 h1 g r h2 rs2 h3,
    run fc cs1 (NewFlowchart h0).2 = Some (rs1, h1) ∧
    GetNode fc id h1 = Some g ∧
    AddNode fc id h1 = Some (r, h2) ∧
    run fc cs2 h2 = Some (rs2, h3) ∧
    (g = None ↔ CallAddNode id ∉ cs1) ∧
    (g = None → ∃ n, r = Some n ∧ GetNode fc id h3 = Some (Some n)) ∧
    (∀ n, g = Some n → r = None ∧ GetNode fc id h3 = Some (Some n)) ∧
    (∀ n, GetNode fc id h3 = Some (Some n) → ∃ x, load_Node h3 n = Some x ∧ node_id x = id).
Proof.
  intros fc.
  destruct (run_spec fc cs1 _ _ (NewFlowchart_models h0))
    as (rs1 & h1 & v1 & Hrun1 & Hm1 & _ & _ & Hun1 & Hreg1 & _).
  destruct (AddNode_spec fc id h1 v1 Hm1) as (h2 & Hc%do_call_AddNode & Hm2 & Hk2 & Hnew & _).
  destruct (run_spec fc cs2 _ _ Hm2) as (rs2 & h3 & v3 & Hrun2 & Hm3 & Hk3 & Hex & _).
  pose proof Hm1 as (f1 & Hfc1 & _ & _ & _ & En1 & _).
  pose proof Hm3 as (f3 & Hfc3 & _ & _ & _ & En3 & _ & _ & _ & Hent & _).
  assert (∀ n, v_nodes (update v1 (CallAddNode id) (length h1)) !! id = Some n →
               GetNode fc id h3 = Some (Some n)) as Hget.
  { intros n Hn. unfold GetNode. rewrite Hfc3. simpl. rewrite En3.
    destruct Hex as (_ & _ & _ & X). by rewrite (lookup_weaken _ _ _ _ Hn X). }
  eexists rs1, h1, (v_nodes v1 !! id), _, h2, rs2, h3. split_and!; try done.
  - unfold GetNode. rewrite Hfc1. simpl. by rewrite En1.
  - split.
    + intros Hg Hin. destruct Hreg1 as (_ & _ & _ & R). destruct (R id Hin) as [p Hp].
      by rewrite Hp in Hg.
    + intros Hnot. destruct Hun1 as (_ & _ & _ & U). by rewrite (U id Hnot).
  - intros Hg. rewrite Hg. eexists. split; [done|]. apply Hget. simpl. rewrite Hg. simpl.
    by rewrite lookup_insert_eq.
  - intros n Hg. rewrite Hg. split; [done|]. apply Hget. simpl. by rewrite Hg.
  - intros n Hn. unfold GetNode in Hn. rewrite Hfc3 in Hn. simpl in Hn. rewrite En3 in Hn.
    destruct Hent as (Hnodes & _). apply Hnodes. by injection Hn.
Qed.

(** GetSubgraph(id) returns nil until the first AddSubgraph(id); from then
    on it returns the subgraph that call returned, which carries the
    identifier and points back to the diagram. *)
Theorem GetSubgraph_finds_the_added_subgraph (h0 : heap) (cs1 cs2 : list call) (id : string) :
  let fc := (NewFlowchart h0).1 in
  ∃ rs1 h1 g r h2 rs2 h3,
    run fc cs1 (NewFlowchart h0).2 = Some (rs1, h1) ∧
    GetSubgraph fc id h1 = Some g ∧
    AddSubgraph fc id h1 = Some (r, h2) ∧
    run fc cs2 h2 = Some (rs2, h3) ∧
    (g = None ↔ CallAddSubgraph id ∉ cs1) ∧
    (g = None → ∃ s, r = Some s ∧ GetSubgraph fc id h3 = Some (Some s)) ∧
    (∀ s, g = Some s → r = None ∧ GetSubgraph fc id h3 = Some (Some s)) ∧
    (∀ s, GetSubgraph fc id h3 = Some (Some s) →
       ∃ x, load_Subgraph h3 s = Some x ∧ subgraph_id x = id ∧ subgraph_flowchart x = Some fc).
Proof.
  intros fc.
  destruct (run_spec fc cs1 _ _ (NewFlowchart_models h0))
    as (rs1 & h1 & v1 & Hrun1 & Hm1 & _ & _ & Hun1 & Hreg1 & _).
  destruct (AddSubgraph_spec fc id h1 v1 Hm1)
    as (h2 & Hc%do_call_AddSubgraph & Hm2 & Hk2 & Hnew & _).
  destruct (run_spec fc cs2 _ _ Hm2) as (rs2 & h3 & v3 & Hrun2 & Hm3 & Hk3 & Hex & _).
  pose proof Hm1 as (f1 & Hfc1 & _ & _ & Esg1 & _).
  pose proof Hm3 as (f3 & Hfc3 & _ & _ & Esg3 & _ & _ & _ & _ & Hent & _).
  assert (∀ n, v_subgraphs (update v1 (CallAddSubgraph id) (length h1)) !! id = Some n →
               GetSubgraph fc id h3 = Some (Some n)) as Hget.
  { intros n Hn. unfold GetSubgraph. rewrite Hfc3. simpl. rewrite Esg3.
    destruct Hex as (_ & _ & X & _). by rewrite (lookup_weaken _ _ _ _ Hn X). }
  eexists rs1, h1, (v_subgraphs v1 !! id), _, h2, rs2, h3. split_and!; try done.
  - unfold GetSubgraph. rewrite Hfc1. simpl. by rewrite Esg1.
  - split.
    + intros Hg Hin. destruct Hreg1 as (_ & _ & R & _). destruct (R id Hin) as [p Hp].
      by rewrite Hp in Hg.
    + intros Hnot. destruct Hun1 as (_ & _ & U & _). by rewrite (U id Hnot).
  - intros Hg. rewrite Hg. eexists. split; [done|]. apply Hget. simpl. rewrite Hg. simpl.
    by rewrite lookup_insert_eq.
  - intros n Hg. rewrite Hg. split; [done|]. apply Hget. simpl. by rewrite Hg.
  - intros n Hn. unfold GetSubgraph in Hn. rewrite Hfc3 in Hn. simpl in Hn.
    rewrite Esg3 in Hn. destruct Hent as (_ & Hsubs & _). apply Hsubs. by injection Hn.
Qed.

(** The rendering order [fc.items] holds the entities AddNode and
    AddSubgraph returned, in the order of the calls; a refused call
    contributes nothing. Each of them is a node or a subgraph. *)
Theorem items_follow_the_calls (h0 : heap) (cs : list call) :
  let fc := (NewFlowchart h0).1 in
  ∃ rs h f,
    run fc cs (NewFlowchart h0).2 = Some (rs, h) ∧ deref h fc = Some f ∧
    slice_elems h (items f) = Some (Some <$> new_items rs) ∧
    Forall (λ p, is_Some (load_Node h p) ∨ is_Some (load_Subgraph h p)) (new_items rs).
Proof.
  intros fc.
  destruct (run_spec fc cs _ _ (NewFlowchart_models h0))
    as (rs & h & v & Hrun & Hm & _ & _ & _ & _ & Hi & _).
  simpl in Hi. destruct Hm as (f & Hfc & _ & _ & _ & _ & _ & _ & Hits & Hent & Hperm).
  exists rs, h, f. rewrite <- Hi. split_and!; try done.
  rewrite <- Hperm. destruct Hent as (Hn & Hs & _). apply Forall_app. split.
  - apply Forall_forall. intros p [[id p'] [-> Hin%elem_of_map_to_list]]%list_elem_of_fmap.
    left. destruct (Hn id p' Hin) as (x & Hx & _). simpl. by rewrite Hx.
  - apply Forall_forall. intros p [[id p'] [-> Hin%elem_of_map_to_list]]%list_elem_of_fmap.
    right. destruct (Hs id p' Hin) as (x & Hx & _). simpl. by rewrite Hx.
Qed.

(** GetEdge is defined on every integer: the edge of that position when
    the index is in range, nil when it is negative or too large. *)
Theorem GetEdge_in_and_out_of_range (h0 : heap) (cs : list call) :
  let fc := (NewFlowchart h0).1 in
  ∃ rs h,
    run fc cs (NewFlowchart h0).2 = Some (rs, h) ∧
    ∀ index : Z,
      GetEdge fc index h
      = Some (if decide (0 ≤ index)%Z then new_edges rs !! Z.to_nat index else None).
Proof.
  intros fc.
  destruct (run_spec fc cs _ _ (NewFlowchart_models h0))
    as (rs & h & v & Hrun & Hm & _ & _ & _ & _ & _ & He).
  simpl in He. destruct Hm as (f & Hfc & _ & _ & _ & _ & Hf & _).
  exists rs, h. split; [done|]. intros index.
  destruct Hf as (_ & _ & _ & Hse). rewrite He in Hse.
  pose proof (slice_elems_length _ _ _ Hse) as Hl. rewrite length_fmap in Hl.
  unfold GetEdge. rewrite Hfc. simpl. case_decide as Hout.
  - case_decide; [|done]. rewrite lookup_ge_None_2; [done|]. lia.
  - rewrite decide_True by lia. unfold slice_get. rewrite Hse. simpl.
    rewrite list_lookup_fmap.
    destruct (new_edges rs !! Z.to_nat index) eqn:E; [done|].
    apply lookup_ge_None in E. lia.
Qed.

(** AddEdge always succeeds and stores its arguments as they are, nil
    included: the new edge has the given ends, the arrow shape and, as its
    index, the number of edges added before it; later calls leave it as it
    is. *)
Theorem AddEdge_stores_its_ends (h0 : heap) (cs1 cs2 : list call) (from to : option ptr) :
  let fc := (NewFlowchart h0).1 in
  ∃ rs1 h1 e h2 rs2 h3,
    run fc cs1 (NewFlowchart h0).2 = Some (rs1, h1) ∧
    AddEdge fc from to h1 = Some (e, h2) ∧
    run fc cs2 h2 = Some (rs2, h3) ∧
    e = length h1 ∧
    load_Edge h3 e = Some {| edge_From := from; edge_To := to; edge_Shape := EShapeArrow;
                             edge_id := Z.of_nat (length (new_edges rs1));
                             edge_rest := zero |}.
Proof.
  intros fc.
  destruct (run_spec fc cs1 _ _ (NewFlowchart_models h0))
    as (rs1 & h1 & v1 & Hrun1 & Hm1 & _ & _ & _ & _ & _ & He).
  destruct (AddEdge_spec fc from to h1 v1 Hm1) as (h2 & Hc%do_call_AddEdge & Hm2 & Hk2 & Hnew & _).
  destruct (run_spec fc cs2 _ _ Hm2) as (rs2 & h3 & v3 & Hrun2 & Hm3 & Hk3 & _).
  exists rs1, h1, (length h1), h2, rs2, h3. split_and!; try done.
  apply load_Edge_lookup. destruct Hk3 as (_ & Hk & _). apply Hk.
  - pose proof (models_lt _ _ _ Hm1). lia.
  - simpl in He. rewrite <- He. by apply Hnew.
Qed.

(** The calls of Flowchart.go write to the diagram's own struct and to its
    slices only: every other struct in the heap, the entities of the
    diagram included, is after any calls as it was before them, and so are
    the diagram's direction and default edge style. *)
Theorem calls_leave_the_entities_alone (h0 : heap) (cs1 cs2 : list call) :
  let fc := (NewFlowchart h0).1 in
  ∃ rs1 h1 rs2 h2 f1 f2,
    run fc cs1 (NewFlowchart h0).2 = Some (rs1, h1) ∧
    run fc cs2 h1 = Some (rs2, h2) ∧
    (∀ p o, p ≠ fc → h1 !! p = Some (Object o) → h2 !! p = Some (Object o)) ∧
    deref h1 fc = Some f1 ∧ deref h2 fc = Some f2 ∧
    Direction f2 = Direction f1 ∧ Direction f1 = DirectionTopDown ∧
    DefaultEdgeStyle f2 = DefaultEdgeStyle f1 ∧ DefaultEdgeStyle f1 = None.
Proof.
  intros fc.
  destruct (run_spec fc cs1 _ _ (NewFlowchart_models h0))
    as (rs1 & h1 & v1 & Hrun1 & Hm1 & Hk1 & _).
  destruct (run_spec fc cs2 _ _ Hm1) as (rs2 & h2 & v2 & Hrun2 & Hm2 & Hk2 & _).
  destruct Hk1 as (_ & _ & Hd1). destruct Hk2 as (_ & Hk & Hd2).
  destruct (Hd1 _ ltac:(apply deref_lookup; unfold NewFlowchart, alloc; simpl;
                         by apply list_lookup_middle)) as (f1 & Hf1 & Ed1 & Es1).
  destruct (Hd2 _ Hf1) as (f2 & Hf2 & Ed2 & Es2).
  exists rs1, h1, rs2, h2, f1, f2. split_and!; done.
Qed.

Lemma ListNodes_outcome fc h f r :
  deref h fc = Some f → ListNodes fc h r →
  ∃ vs, vs ≡ₚ (map_to_list (nodes f)).*2 ∧
        r = Some (Slice (Some (length h)) (length vs) (length vs),
                  h ++ [Array (Some <$> vs)]).
Proof.
  intros Hfc Hr. destruct Hr as [f' order Hfc' Hord]. simplify_eq.
  exists (order.*2). split; [by rewrite Hord|].
  unfold ListNodes_in. rewrite Hfc. cbn [mbind option_bind].
  rewrite <- (length_fmap Some (order.*2)). apply append_all_make.
  rewrite !length_fmap, (Permutation_length Hord). symmetry. apply length_map_to_list.
Qed.

Lemma ListSubgraphs_outcome fc h f r :
  deref h fc = Some f → ListSubgraphs fc h r →
  ∃ vs, vs ≡ₚ (map_to_list (subgraphs f)).*2 ∧
        r = Some (Slice (Some (length h)) (length vs) (length vs),
                  h ++ [Array (Some <$> vs)]).
Proof.
  intros Hfc Hr. destruct Hr as [f' order Hfc' Hord]. simplify_eq.
  exists (order.*2). split; [by rewrite Hord|].
  unfold ListSubgraphs_in. rewrite Hfc. cbn [mbind option_bind].
  rewrite <- (length_fmap Some (order.*2)). apply append_all_make.
  rewrite !length_fmap, (Permutation_length Hord). symmetry. apply length_map_to_list.
Qed.

(** ListNodes and ListSubgraphs return, between them, the entities of the
    rendering order, each once: ListNodes those that are nodes,
    ListSubgraphs those that are subgraphs, in whatever order the maps are
    visited. *)
Theorem ListNodes_and_ListSubgraphs_split_the_items (h0 : heap) (cs : list call) :
  let fc := (NewFlowchart h0).1 in
  ∃ rs h,
    run fc cs (NewFlowchart h0).2 = Some (rs, h) ∧
    (∃ r, ListNodes fc h r) ∧ (∃ r, ListSubgraphs fc h r) ∧
    ∀ rn rg, ListNodes fc h rn → ListSubgraphs fc h rg →
      ∃ sn hn ns sg hg gs,
        rn = Some (sn, hn) ∧ slice_elems hn sn = Some (Some <$> ns) ∧
        rg = Some (sg, hg) ∧ slice_elems hg sg = Some (Some <$> gs) ∧
        ns ++ gs ≡ₚ new_items rs ∧
        Forall (λ p, is_Some (load_Node h p)) ns ∧
        Forall (λ p, is_Some (load_Subgraph h p)) gs.
Proof.
  intros fc.
  destruct (run_spec fc cs _ _ (NewFlowchart_models h0))
    as (rs & h & v & Hrun & Hm & _ & _ & _ & _ & Hi & _).
  simpl in Hi. destruct Hm as (f & Hfc & _ & _ & Esg & En & _ & _ & Hits & Hent & Hperm).
  exists rs, h. split_and!; try done.
  - eexists. apply (ListNodes_range fc h f (map_to_list (nodes f)));
      [done | by unfold range_order].
  - eexists. apply (ListSubgraphs_range fc h f (map_to_list (subgraphs f)));
      [done | by unfold range_order].
  - intros rn rg Hn Hg.
    destruct (ListNodes_outcome _ _ _ _ Hfc Hn) as (ns & Hns & ->).
    destruct (ListSubgraphs_outcome _ _ _ _ Hfc Hg) as (gs & Hgs & ->).
    rewrite En in Hns. rewrite Esg in Hgs.
    eexists _, _, ns, _, _, gs. split; [done|].
    split; [by rewrite <- (length_fmap Some ns); apply slice_elems_fresh|].
    split; [done|].
    split; [by rewrite <- (length_fmap Some gs); apply slice_elems_fresh|].
    destruct Hent as (Hnodes & Hsubs & _). split_and!.
    + by rewrite Hns, Hgs, Hperm, Hi.
    + rewrite Hns. apply Forall_forall.
      intros p [[id p'] [-> Hin%elem_of_map_to_list]]%list_elem_of_fmap.
      destruct (Hnodes id p' Hin) as (x & Hx & _). simpl. by rewrite Hx.
    + rewrite Hgs. apply Forall_forall.
      intros p [[id p'] [-> Hin%elem_of_map_to_list]]%list_elem_of_fmap.
      destruct (Hsubs id p' Hin) as (x & Hx & _). simpl. by rewrite Hx.
Qed.

(** A diagram writes to cells of its own only: whatever is called on a
    Flowchart, every cell the heap held before NewFlowchart is as it was.
    Two diagrams never interfere. *)
Theorem calls_write_to_own_cells (h0 : heap) (cs : list call) :
  let fc := (NewFlowchart h0).1 in
  ∃ rs h, run fc cs (NewFlowchart h0).2 = Some (rs, h) ∧ take (length h0) h = h0.
Proof.
  intros fc. pose proof (NewFlowchart_models h0) as Hm.
  destruct (run_spec fc cs _ _ Hm) as (rs & h & v & Hrun & _).
  exists rs, h. split; [done|].
  assert (private (length h0) fc (NewFlowchart h0).2) as Hp.
  { pose proof Hm as (f & Hfc & _). exists f. split; [done|].
    unfold NewFlowchart, alloc, deref, load_obj in Hfc. simpl in Hfc.
    rewrite list_lookup_middle in Hfc by done. simplify_eq.
    intros p [->|[?|?]]; simpl in *; [done|done..]. }
  rewrite (run_private (length h0) fc cs _ _ _ _ Hm ltac:(simpl; rewrite length_app; lia)
             Hp Hrun).
  simpl. by rewrite take_app_length.
Qed.

End FlowchartCalls.

Section FlowchartLayout.
Import Go flowchart.
Context `{Declarations} `{!Methods} `{Growth}.
Local Abbreviation heap := (Go.heap object).

(** After any calls on a new Flowchart, String renders the header line,
    the node styles, an empty line, the entities AddNode and AddSubgraph
    returned in the order of those calls, an empty line, and the edges in
    the order of the AddEdge calls: the place of a line depends on its
    kind first, on the order of the calls second. *)
Theorem String_renders_in_call_order (h0 : heap) (cs : list call) (order : list ptr) :
  let fc := (NewFlowchart h0).1 in
  ∃ rs h,
    run fc cs (NewFlowchart h0).2 = Some (rs, h) ∧
    String_in order fc h =
      (styles ← style_block h order;
       its ← render_each (renderGraph h) (Some <$> new_items rs) "";
       es ← render_each (λ e, p ← e; x ← load_Edge h p; Edge_String h x)
                        (Some <$> new_edges rs) "";
       Some ("graph TB" +:+ LF +:+ styles +:+ LF +:+ its +:+ LF +:+ es)).
Proof.
  intros fc. pose proof (NewFlowchart_models h0) as Hm.
  destruct (run_spec fc cs _ _ Hm) as (rs & h & v & Hrun & Hm' & Hk & _ & _ & _ & Hi & He).
  simpl in Hi, He. exists rs, h. split; [done|].
  destruct Hm as (f0 & Hf0 & _). destruct Hk as (_ & _ & Hd).
  destruct (Hd f0 Hf0) as (f & Hfc & Ed & Es).
  unfold NewFlowchart, alloc, deref, load_obj in Hf0. simpl in Hf0.
  rewrite list_lookup_middle in Hf0 by done. simplify_eq. simpl in Ed, Es.
  destruct Hm' as (f' & Hfc' & _ & _ & _ & _ & (_ & _ & _ & Hse) & _ & Hits & _).
  rewrite Hfc' in Hfc. injection Hfc as <-.
  unfold String_in. rewrite Hfc'. cbn [mbind option_bind].
  rewrite Ed, Es, Hits, Hse, Hi, He. cbn [mbind option_bind].
  rewrite (render_each_acc (style_line h)). fold (style_block h order).
  destruct (style_block h order) as [sb|]; [|done]. cbn [fmap option_fmap option_map mbind option_bind].
  rewrite (render_each_acc (renderGraph h)).
  destruct (render_each (renderGraph h) _ "") as [ib|]; [|done].
  cbn [fmap option_fmap option_map mbind option_bind].
  rewrite (render_each_acc (λ e, p ← e; x ← load_Edge h p; Edge_String h x)).
  destruct (render_each _ (Some <$> new_edges rs) "") as [eb|]; [|done].
  cbn [fmap option_fmap option_map mbind option_bind].
  unfold DirectionTopDown. by rewrite !append_assoc.
Qed.

End FlowchartLayout.

(** *** Gantt: construction, sections and tasks *)

Section GanttCalls.
Import Go gantt.
Context `{Declarations} `{!Methods} `{Growth}.
Local Abbreviation heap := (Go.heap object).

(** NewGantt looks at its first two values only. A wrong AxisFormat is
    reported first, then a wrong Title; otherwise the result is a new
    diagram with no sections and no tasks, the given title and the given
    axis format. Whatever the outcome, the heap that was there is as it
    was. *)
Theorem NewGantt_outcome (init : list any) (h0 : heap) :
  ∃ r h,
    NewGantt init h0 = Some (r, h) ∧ take (length h0) h = h0 ∧
    NewGantt (take 2 init) h0 = NewGantt init h0 ∧
    (wrong_AxisFormat init = true →
       r = (None, Errorf "value for AxisFormat was no axisFormat")) ∧
    (wrong_AxisFormat init = false → wrong_Title init = true →
       r = (None, Errorf "value for Title was no string")) ∧
    (wrong_AxisFormat init = false → wrong_Title init = false →
       r = (Some (length h0), None) ∧
       h = h0 ++ [Object (OGantt
             {| sectionsMap := ∅; sections := nil_slice; tasksMap := ∅; tasks := nil_slice;
                Title := given_Title init; AxisFormat := given_AxisFormat init |})]).
Proof.
  unfold NewGantt, wrong_AxisFormat, wrong_Title, given_Title, given_AxisFormat. simpl.
  destruct init as [|t [|a rest]]; simpl.
  - eexists _, _. split; [done|]. rewrite take_app_length. split_and!; done.
  - destruct t; rewrite assign_new; simpl; eexists _, _; (split; [done|]);
      rewrite take_app_length; split_and!; done.
  - destruct a; simpl; rewrite ?assign_new; simpl;
      destruct t; simpl; rewrite ?assign_new; simpl; eexists _, _; (split; [done|]);
      rewrite take_app_length; split_and!; done.
Qed.

(** A diagram built with a title and an axis format renders to the two
    header lines, then the axisFormat line, then the title line; an empty
    string leaves its line out. *)
Theorem new_gantt_renders_axis_then_title (title axis : string) (h0 : heap) :
  let text :=
    "gantt" +:+ LF +:+ "dateFormat YYYY-MM-DDTHH:mm:ssZ" +:+ LF
    +:+ (if decide (axis = "") then "" else "axisFormat " +:+ axis +:+ LF)
    +:+ (if decide (title = "") then "" else "title " +:+ title +:+ LF) in
  (∃ g h, NewGantt [VString title; VString axis] h0 = Some ((Some g, None), h) ∧
          String g h = Some text) ∧
  (∃ g h, NewGantt [VString title; VAxisFormat axis] h0 = Some ((Some g, None), h) ∧
          String g h = Some text).
Proof.
  intros text.
  assert (String (length h0) (h0 ++ [Object (OGantt
             {| sectionsMap := ∅; sections := nil_slice; tasksMap := ∅; tasks := nil_slice;
                Title := title; AxisFormat := axis |})]) = Some text) as Hs.
  { unfold String, deref, load_obj. rewrite list_lookup_middle by done. simpl.
    unfold text. f_equal.
    repeat case_decide; subst; try (exfalso; naive_solver);
      unfold Sprintln2; rewrite ?append_empty_r, ?append_assoc; done. }
  split.
  - unfold NewGantt. simpl. rewrite assign_new. simpl. rewrite assign_new. simpl.
    eexists _, _. split; [done|]. apply Hs.
  - unfold NewGantt. simpl. rewrite assign_new. simpl. rewrite assign_new. simpl.
    eexists _, _. split; [done|]. apply Hs.
Qed.

(** AddTask hands the identifier to taskNew and does what that decides.
    When taskNew reports an error, AddTask returns it and registers
    nothing. When taskNew returns a task, AddTask stores it under the
    identifier (Gantt.go itself makes no check for a duplicate), appends it
    to the local tasks, and leaves the sections, the title, the axis format
    and every other struct alone; GetTask then finds the task, and
    ListLocalTasks lists it last. *)
Theorem AddTask_registers_the_task g id init (h : heap) t err h1 :
  taskNew id g None init h = Some ((t, err), h1) →
  (err ≠ None → AddTask g id init h = Some ((t, err), h1)) ∧
  (err = None → ∀ x, deref h1 g = Some x → wf_slice h1 (tasks x) →
     ∃ h2 x2 old,
       AddTask g id init h = Some ((t, None), h2) ∧ deref h2 g = Some x2 ∧
       slice_elems h1 (tasks x) = Some old ∧
       slice_elems h2 (tasks x2) = Some (old ++ [t]) ∧
       GetTask g id h2 = Some t ∧
       (∀ id', id' ≠ id → GetTask g id' h2 = GetTask g id' h1) ∧
       (∃ r, ListLocalTasks g h2 = Some r ∧ slice_elems r.2 r.1 = Some (old ++ [t])) ∧
       sectionsMap x2 = sectionsMap x ∧ sections x2 = sections x ∧
       Title x2 = Title x ∧ AxisFormat x2 = AxisFormat x ∧
       (∀ p o, p ≠ g → h1 !! p = Some (Object o) → h2 !! p = Some (Object o))).
Proof.
  intros Hnew. split.
  - intros Herr. unfold AddTask. rewrite Hnew. simpl. by destruct err.
  - intros -> x Hg Hwf.
    pose proof (proj1 (gantt_deref_lookup _ _ _) Hg) as Hcell.
    pose proof (lookup_lt_Some _ _ _ Hcell) as Hlt.
    set (x1 := set_tasksMap (<[id := t]> (tasksMap x)) x).
    set (hA := <[g := Object (OGantt x1)]> h1).
    assert (store g (Object (OGantt x1)) h1 = Some hA) as HstA by by apply store_is_Some.
    destruct (slice_store_obj _ _ _ _ _ (tasks x) HstA Hcell) as [EA HwfA].
    destruct (append_ok (tasks x) t hA (HwfA Hwf))
      as (ts & hB & old & Happ & Hold & Hnew' & HwfB & HlenB & HleB & HframeB & HarrB).
    assert (hA !! g = Some (Object (OGantt x1))) as HcellA
      by (unfold hA; by apply list_lookup_insert_eq).
    assert (hB !! g = Some (Object (OGantt x1))) as HcellB
      by (eapply append_obj; [exact (HwfA Hwf)|exact Happ|done]).
    assert (length hA = length h1) as HlA by (unfold hA; by rewrite length_insert).
    set (x2 := set_tasks ts x1).
    set (h2 := <[g := Object (OGantt x2)]> hB).
    assert (store g (Object (OGantt x2)) hB = Some h2) as HstB
      by (apply store_is_Some; lia).
    assert (deref h2 g = Some x2) as Hg2.
    { apply gantt_deref_lookup. unfold h2. apply list_lookup_insert_eq. lia. }
    assert (slice_elems h2 (tasks x2) = Some (old ++ [t])) as Hts2.
    { destruct (slice_store_obj _ _ _ _ _ ts HstB HcellB) as [E _]. simpl. by rewrite E. }
    exists h2, x2, old. split_and!; try done.
    + unfold AddTask. rewrite Hnew. simpl. rewrite Hg. simpl. fold x1.
      unfold assign. rewrite HstA. simpl. rewrite Happ. simpl. fold x2. by rewrite HstB.
    + by rewrite <- EA.
    + unfold GetTask. rewrite Hg2. simpl. by rewrite lookup_insert_eq.
    + intros id' Hne. unfold GetTask. rewrite Hg2, Hg. simpl.
      by rewrite lookup_insert_ne.
    + unfold ListLocalTasks. rewrite Hg2. cbn [mbind option_bind].
      pose proof (clone_fresh h2 (tasks x2) _ Hts2) as Hclone. simpl in Hclone.
      eexists. split; [exact Hclone|]. simpl.
      pose proof (slice_elems_length _ _ _ Hts2) as Hl. simpl in Hl.
      rewrite <- Hl. apply slice_elems_fresh.
    + intros p o Hp Hc. unfold h2. rewrite list_lookup_insert_ne by done.
      eapply append_obj; [exact (HwfA Hwf)|exact Happ|]. unfold hA.
      by rewrite list_lookup_insert_ne.
Qed.

(** AddSection hands the identifier to sectionNew and does what that
    decides: on an error it registers nothing; otherwise it stores the
    section under the identifier, appends it to the sections, and leaves
    the tasks, the title, the axis format and every other struct alone;
    GetSection then finds the section, and ListSections lists it last. *)
Theorem AddSection_registers_the_section g id (h : heap) s err h1 :
  sectionNew id g h = Some ((s, err), h1) →
  (err ≠ None → AddSection g id h = Some ((s, err), h1)) ∧
  (err = None → ∀ x, deref h1 g = Some x → wf_slice h1 (sections x) →
     ∃ h2 x2 old,
       AddSection g id h = Some ((s, None), h2) ∧ deref h2 g = Some x2 ∧
       slice_elems h1 (sections x) = Some old ∧
       slice_elems h2 (sections x2) = Some (old ++ [s]) ∧
       GetSection g id h2 = Some s ∧
       (∀ id', id' ≠ id → GetSection g id' h2 = GetSection g id' h1) ∧
       (∃ r, ListSections g h2 = Some r ∧ slice_elems r.2 r.1 = Some (old ++ [s])) ∧
       tasksMap x2 = tasksMap x ∧ tasks x2 = tasks x ∧
       Title x2 = Title x ∧ AxisFormat x2 = AxisFormat x ∧
       (∀ p o, p ≠ g → h1 !! p = Some (Object o) → h2 !! p = Some (Object o))).
Proof.
  intros Hnew. split.
  - intros Herr. unfold AddSection. rewrite Hnew. simpl. by destruct err.
  - intros -> x Hg Hwf.
    pose proof (proj1 (gantt_deref_lookup _ _ _) Hg) as Hcell.
    pose proof (lookup_lt_Some _ _ _ Hcell) as Hlt.
    set (x1 := set_sectionsMap (<[id := s]> (sectionsMap x)) x).
    set (hA := <[g := Object (OGantt x1)]> h1).
    assert (store g (Object (OGantt x1)) h1 = Some hA) as HstA by by apply store_is_Some.
    destruct (slice_store_obj _ _ _ _ _ (sections x) HstA Hcell) as [EA HwfA].
    destruct (append_ok (sections x) s hA (HwfA Hwf))
      as (ss & hB & old & Happ & Hold & Hnew' & HwfB & HlenB & HleB & HframeB & HarrB).
    assert (hA !! g = Some (Object (OGantt x1))) as HcellA
      by (unfold hA; by apply list_lookup_insert_eq).
    assert (hB !! g = Some (Object (OGantt x1))) as HcellB
      by (eapply append_obj; [exact (HwfA Hwf)|exact Happ|done]).
    assert (length hA = length h1) as HlA by (unfold hA; by rewrite length_insert).
    set (x2 := set_sections ss x1).
    set (h2 := <[g := Object (OGantt x2)]> hB).
    assert (store g (Object (OGantt x2)) hB = Some h2) as HstB
      by (apply store_is_Some; lia).
    assert (deref h2 g = Some x2) as Hg2.
    { apply gantt_deref_lookup. unfold h2. apply list_lookup_insert_eq. lia. }
    assert (slice_elems h2 (sections x2) = Some (old ++ [s])) as Hss2.
    { destruct (slice_store_obj _ _ _ _ _ ss HstB HcellB) as [E _]. simpl. by rewrite E. }
    exists h2, x2, old. split_and!; try done.
    + unfold AddSection. rewrite Hnew. simpl. rewrite Hg. simpl. fold x1.
      unfold assign. rewrite HstA. simpl. rewrite Happ. simpl. fold x2. by rewrite HstB.
    + by rewrite <- EA.
    + unfold GetSection. rewrite Hg2. simpl. by rewrite lookup_insert_eq.
    + intros id' Hne. unfold GetSection. rewrite Hg2, Hg. simpl.
      by rewrite lookup_insert_ne.
    + unfold ListSections. rewrite Hg2. cbn [mbind option_bind].
      pose proof (clone_fresh h2 (sections x2) _ Hss2) as Hclone. simpl in Hclone.
      eexists. split; [exact Hclone|]. simpl.
      pose proof (slice_elems_length _ _ _ Hss2) as Hl. simpl in Hl.
      rewrite <- Hl. apply slice_elems_fresh.
    + intros p o Hp Hc. unfold h2. rewrite list_lookup_insert_ne by done.
      eapply append_obj; [exact (HwfA Hwf)|exact Happ|]. unfold hA.
      by rewrite list_lookup_insert_ne.
Qed.

End GanttCalls.

(** *** Opening the link, and the link's text *)

Section Browser.
Import Go encoding.
Context `{Zlib}.
Context `{flowchart.Declarations} `{!flowchart.Methods}.
Context `{gantt.Declarations} `{!gantt.Methods}.

Lemma gantt_opener_spec GOOS :
  match gantt.opener GOOS with
  | Some command => GOOS ∈ platforms ∧ ∀ url, last (Args (command url)) = Some url
  | None => GOOS ∉ platforms
  end.
Proof.
  unfold gantt.opener, platforms.
  destruct (bool_decide (GOOS ∈ ["openbsd"; "linux"])) eqn:E1.
  { apply bool_decide_eq_true in E1. split; [|done].
    rewrite !elem_of_cons in E1. rewrite !elem_of_cons. tauto. }
  destruct (bool_decide (GOOS = "darwin")) eqn:E2.
  { apply bool_decide_eq_true in E2. split; [|done]. rewrite !elem_of_cons. tauto. }
  destruct (bool_decide (GOOS = "windows")) eqn:E3.
  { apply bool_decide_eq_true in E3. split; [|done]. rewrite !elem_of_cons. tauto. }
  apply bool_decide_eq_false in E1, E2, E3.
  rewrite !elem_of_cons in E1. rewrite !elem_of_cons. tauto.
Qed.

Lemma flowchart_opener_spec GOOS :
  match flowchart.opener GOOS with
  | Some command => GOOS ∈ platforms ∧ ∀ url, last (Args (command url)) = Some url
  | None => GOOS ∉ platforms
  end.
Proof.
  unfold flowchart.opener, platforms.
  destruct (bool_decide (GOOS ∈ ["openbsd"; "linux"])) eqn:E1.
  { apply bool_decide_eq_true in E1. split; [|done].
    rewrite !elem_of_cons in E1. rewrite !elem_of_cons. tauto. }
  destruct (bool_decide (GOOS = "darwin")) eqn:E2.
  { apply bool_decide_eq_true in E2. split; [|done]. rewrite !elem_of_cons. tauto. }
  destruct (bool_decide (GOOS = "windows")) eqn:E3.
  { apply bool_decide_eq_true in E3. split; [|done]. rewrite !elem_of_cons. tauto. }
  apply bool_decide_eq_false in E1, E2, E3.
  rewrite !elem_of_cons in E1. rewrite !elem_of_cons. tauto.
Qed.

(** ViewInBrowser on openbsd, linux, darwin and windows renders the
    diagram and starts one command, whose last argument is the URL LiveURL
    returns, and returns what starting it returned. On any other platform
    it starts nothing, renders nothing, and returns the error unsupported
    platform. *)
Theorem ViewInBrowser_starts_one_command_or_none (GOOS : string) (Start : Cmd → error) :
  (∀ g h,
     (GOOS ∉ platforms →
        gantt.ViewInBrowser GOOS Start g h = Some ([], Errorf "unsupported platform")) ∧
     (GOOS ∈ platforms →
        (gantt.LiveURL g h = None → gantt.ViewInBrowser GOOS Start g h = None) ∧
        ∀ url, gantt.LiveURL g h = Some url →
          ∃ c, gantt.ViewInBrowser GOOS Start g h = Some ([c], Start c) ∧
               last (Args c) = Some url)) ∧
  (∀ fc h,
     (GOOS ∉ platforms →
        ∀ r, flowchart.ViewInBrowser GOOS Start fc h r ↔
             r = Some ([], Errorf "unsupported platform")) ∧
     (GOOS ∈ platforms →
        (∀ url, flowchart.LiveURL fc h (Some url) →
           ∃ c, flowchart.ViewInBrowser GOOS Start fc h (Some ([c], Start c)) ∧
                last (Args c) = Some url) ∧
        (∀ cs err, flowchart.ViewInBrowser GOOS Start fc h (Some (cs, err)) →
           ∃ c url, flowchart.LiveURL fc h (Some url) ∧ cs = [c] ∧ err = Start c ∧
                    last (Args c) = Some url))).
Proof.
  split.
  - intros g h. pose proof (gantt_opener_spec GOOS) as Ho. unfold gantt.ViewInBrowser.
    destruct (gantt.opener GOOS) as [command|].
    + destruct Ho as [Hin Hlast]. split; [done|]. intros _. split.
      * by intros ->.
      * intros url ->. simpl. eauto.
    + split; [done|]. done.
  - intros fc h. pose proof (flowchart_opener_spec GOOS) as Ho. split.
    + intros Hnot r. split.
      * intros Hr. destruct Hr as [command r Hc Hr|Hc]; [|done].
        rewrite Hc in Ho. by destruct Ho.
      * intros ->. apply flowchart.ViewInBrowser_unsupported.
        destruct (flowchart.opener GOOS); [by destruct Ho|done].
    + intros Hin. destruct (flowchart.opener GOOS) as [command|] eqn:Hc; [|done].
      destruct Ho as [_ Hlast]. split.
      * intros url Hurl. exists (command url). split; [|done].
        exact (flowchart.ViewInBrowser_Start GOOS Start fc h command (Some url) Hc Hurl).
      * intros cs err Hr. inversion Hr as [command' r Hc' Hr' Heq|Hc']; [|congruence].
        destruct r as [url|]; [|done]. simpl in Heq. simplify_eq.
        exists (command url), url. done.
Qed.

End Browser.

Section LinkFacts.
Import Go encoding.

Lemma encode_url_safe_nat (n : nat) : n < 64 → url_safe (encode (N.of_nat n)) = true.
Proof.
  intros Hn. do 64 (destruct n as [|n]; [vm_compute; reflexivity|]). lia.
Qed.

Lemma sextet_url_safe v k : url_safe (sextet v k) = true.
Proof.
  rewrite sextet_spec. pose proof (mod64_lt (v / 2 ^ k)) as Hlt.
  rewrite <- (N2Nat.id (_ mod 64)). apply encode_url_safe_nat. lia.
Qed.

Lemma pad_url_safe : url_safe pad = true.
Proof. vm_compute. reflexivity. Qed.

(** base64: the text is made of groups of four URL-safe characters. *)
Lemma Encode_url_safe (src : bytes) :
  forallb url_safe (Encode src) = true ∧ length (Encode src) = 4 * ((length src + 2) / 3).
Proof.
  remember (length src) as n eqn:Hn. revert src Hn.
  induction n as [n IH] using lt_wf_ind. intros src Hn.
  destruct src as [|b0 [|b1 [|b2 t]]].
  - subst. done.
  - subst. cbn [Encode forallb length]. rewrite !sextet_url_safe, pad_url_safe. done.
  - subst. cbn [Encode forallb length]. rewrite !sextet_url_safe, pad_url_safe. done.
  - cbn [Encode forallb length]. rewrite !sextet_url_safe.
    destruct (IH (length t) ltac:(subst; simpl; lia) t eq_refl) as [-> ->].
    split; [done|]. subst n. cbn [length].
    replace (S (S (S (length t))) + 2) with (1 * 3 + (length t + 2)) by lia.
    rewrite Nat.div_add_l by lia. lia.
Qed.

(** Whatever the encoders do, the link LiveURL returns is the base URL
    followed by a text of URL-safe characters (letters, digits, [-], [_]
    and the padding [=]) whose length is a multiple of four. *)
Theorem LiveURL_is_url_safe (enc : Encoders) (text : string) :
  (∃ p, flowchart.LiveURL_with enc text = flowchart.liveURL +:+ p ∧
        forallb url_safe (bs p) = true ∧ length (bs p) mod 4 = 0) ∧
  (∃ p, gantt.LiveURL_with enc text = gantt.liveURL +:+ p ∧
        forallb url_safe (bs p) = true ∧ length (bs p) mod 4 = 0).
Proof.
  assert (∀ b, forallb url_safe (bs (EncodeToString b)) = true ∧
               length (bs (EncodeToString b)) mod 4 = 0) as Hsafe.
  { intros b. unfold EncodeToString, bs.
    rewrite String.list_ascii_of_string_of_list_ascii.
    destruct (Encode_url_safe b) as [-> ->]. split; [done|].
    rewrite Nat.mul_comm. by apply Nat.Div0.mod_mul. }
  split.
  - unfold flowchart.LiveURL_with.
    destruct (json_Marshal enc _) as [data e1].
    destruct (zlib_Write enc BestCompression data) as [b e2].
    exists (EncodeToString b). split; [done|]. apply Hsafe.
  - unfold gantt.LiveURL_with.
    destruct (json_Marshal enc _) as [data e1].
    destruct (zlib_Write enc BestCompression data) as [b e2].
    exists (EncodeToString b). split; [done|]. apply Hsafe.
Qed.

(** With the standard encoders, two texts of well-formed UTF-8 that get
    the same link are the same text. *)
Theorem LiveURL_tells_texts_apart `{Zlib} (t1 t2 : string) :
  ValidString t1 = true → ValidString t2 = true →
  (flowchart.LiveURL_with std t1 = flowchart.LiveURL_with std t2 → t1 = t2) ∧
  (gantt.LiveURL_with std t1 = gantt.LiveURL_with std t2 → t1 = t2).
Proof.
  intros Hv1 Hv2.
  assert (∀ prefix,
    prefix +:+ EncodeToString (deflate BestCompression (marshal (payload t1)))
    = prefix +:+ EncodeToString (deflate BestCompression (marshal (payload t2))) →
    t1 = t2) as Hinj.
  { intros prefix Heq. pose proof (read_link_std prefix t1 Hv1) as H1.
    rewrite Heq, (read_link_std prefix t2 Hv2) in H1. by injection H1. }
  split.
  - rewrite !flowchart_LiveURL_with_std. apply Hinj.
  - rewrite !gantt_LiveURL_with_std. apply Hinj.
Qed.

End LinkFacts.

(** *** Examples, counterexamples and witnesses *)

Section Examples.
Import Go encoding model examples.

Example NewGantt_bad_title :
  gantt.NewGantt [gantt.VString bad_title] [] = Some ((Some 0, None), bad_title_heap).
Proof. reflexivity. Qed.

Example NewGantt_plan :
  gantt.NewGantt [gantt.VString "Plan"] [] = Some ((Some 0, None), plan_heap).
Proof. reflexivity. Qed.

Example two_styles_calls :
  (let '(fc, h) := flowchart.NewFlowchart [] in
   '(_, h) ← flowchart.Flowchart_NodeStyle fc "a" h;
   '(_, h) ← flowchart.Flowchart_NodeStyle fc "b" h;
   Some (fc, h)) = Some (0, two_styles_heap).
Proof. vm_compute. reflexivity. Qed.

Example scenario_B_calls : scenario_B = Some (0, scenario_B_heap).
Proof. vm_compute. reflexivity. Qed.

Example two_tasks_calls : two_tasks = Some (0, two_tasks_heap).
Proof. vm_compute. reflexivity. Qed.

(** Scenario B: a node line for A and the edge line [A-->A], no linkStyle
    line. *)
Example scenario_B_renders :
  ('(fc, h) ← scenario_B; flowchart.String_in [] fc h)
  = Some ("graph TB" +:+ LF +:+ LF +:+ "A[" +:+ dquote +:+ "A" +:+ dquote +:+ "]" +:+ LF
          +:+ LF +:+ "A-->A" +:+ LF).
Proof. vm_compute. reflexivity. Qed.

End Examples.

Section Counterexamples.
Import Go encoding model examples.

(** C1, as stated, fails on the code: for the Gantt diagram whose title is
    the byte 0xFF, the decoded record's code field is not the rendered text
    (json.Marshal has replaced the byte by U+FFFD). *)
Lemma LiveURL_round_trip_counterexample :
  ¬ (∀ (g : ptr) (h : heap gantt.object) (text url : string),
       gantt.String g h = Some text → gantt.LiveURL g h = Some url →
       read_link gantt.liveURL url = Some (payload text)).
Proof.
  intros Hclaim.
  assert (∃ text url, gantt.String 0 bad_title_heap = Some text ∧
                      gantt.LiveURL 0 bad_title_heap = Some url) as (text & url & Ht & Hu).
  { eexists _, _. split; vm_compute; reflexivity. }
  specialize (Hclaim 0 bad_title_heap text url Ht Hu).
  vm_compute in Ht, Hu. injection Ht as <-. injection Hu as <-.
  vm_compute in Hclaim. discriminate Hclaim.
Qed.

(** C2, as stated, fails on the code: with the node styles a and b
    registered, the map can be visited in either order, and the two
    renderings differ. *)
Lemma rendering_counterexample :
  ¬ (∀ (fc : ptr) (h : heap flowchart.object) (r1 r2 : option string),
       flowchart.String fc h r1 → flowchart.String fc h r2 → r1 = r2).
Proof.
  intros Hclaim.
  assert (flowchart.deref two_styles_heap 0 = Some two_styles_struct) as Hfc by reflexivity.
  pose proof (flowchart.String_range 0 two_styles_heap two_styles_struct
                [("a", 1); ("b", 2)] Hfc) as H1.
  pose proof (flowchart.String_range 0 two_styles_heap two_styles_struct
                [("b", 2); ("a", 1)] Hfc) as H2.
  assert (map_to_list (flowchart.nodeStyles two_styles_struct) = [("a", 1); ("b", 2)])
    as Hm by (vm_compute; reflexivity).
  unfold range_order in H1, H2. rewrite Hm in H1, H2.
  specialize (H1 ltac:(reflexivity)). specialize (H2 (perm_swap _ _ _)).
  specialize (Hclaim _ _ _ _ H1 H2). vm_compute in Hclaim. discriminate Hclaim.
Qed.


End Counterexamples.

Section Witnesses.
Import Go encoding model examples.

Lemma LiveURL_round_trip_witness :
  (∃ text url,
     flowchart.String 0 scenario_B_heap (Some text) ∧
     flowchart.LiveURL 0 scenario_B_heap (Some url) ∧
     read_link "https://mermaid.live/view/#pako:" url
     = Some (JObject [("code", JString text);
                      ("mermaid", JObject [("theme", JString "default")])])) ∧
  (∃ text url,
     gantt.String 0 plan_heap = Some text ∧
     gantt.LiveURL 0 plan_heap = Some url ∧
     read_link "https://mermaid.live/view/#pako:" url
     = Some (JObject [("code", JString text);
                      ("mermaid", JObject [("theme", JString "default")])])) ∧
  (∃ text url code,
     gantt.String 0 bad_title_heap = Some text ∧
     gantt.LiveURL 0 bad_title_heap = Some url ∧
     read_link "https://mermaid.live/view/#pako:" url
     = Some (JObject [("code", JString code);
                      ("mermaid", JObject [("theme", JString "default")])]) ∧
     code ≠ text).
Proof.
  destruct LiveURL_round_trip as (Hflow & _ & Hgantt & _).
  split_and!.
  - assert (flowchart.String 0 scenario_B_heap (flowchart.String_in [] 0 scenario_B_heap))
      as Hs.
    { apply (flowchart.String_range 0 scenario_B_heap scenario_B_struct []); [reflexivity|].
      unfold range_order. simpl. by rewrite map_to_list_empty. }
    destruct (flowchart.String_in [] 0 scenario_B_heap) as [text|] eqn:Ht;
      [|vm_compute in Ht; discriminate].
    destruct (Hflow 0 scenario_B_heap text Hs) as (url & Hurl & _ & Hread & Hid).
    exists text, url. split; [done|]. split; [done|].
    rewrite Hread.
    assert (coerce text = text) as ->; [|done].
    apply Hid. vm_compute in Ht. injection Ht as <-. vm_compute. reflexivity.
  - destruct (gantt.String 0 plan_heap) as [text|] eqn:Ht; [|vm_compute in Ht; discriminate].
    destruct (Hgantt 0 plan_heap text Ht) as (url & Hurl & _ & Hread & Hid).
    exists text, url. split; [done|]. split; [done|].
    rewrite Hread.
    assert (coerce text = text) as ->; [|done].
    apply Hid. vm_compute in Ht. injection Ht as <-. vm_compute. reflexivity.
  - destruct (gantt.String 0 bad_title_heap) as [text|] eqn:Ht;
      [|vm_compute in Ht; discriminate].
    destruct (Hgantt 0 bad_title_heap text Ht) as (url & Hurl & _ & Hread & Hid).
    exists text, url, (coerce text). split; [done|]. split; [done|]. split; [done|].
    intros E. apply Hid in E. vm_compute in Ht. injection Ht as <-.
    vm_compute in E. discriminate E.
Defined.

Lemma rendering_witness :
  deterministic
    (gantt.String_out (λ h t, one (gantt.Task_String h t))
                      (λ h s, one (gantt.Section_String h s)) 0 two_tasks_heap) ∧
  gantt.String_out (λ h t, one (gantt.Task_String h t))
                   (λ h s, one (gantt.Section_String h s)) 0 two_tasks_heap
                   (gantt.String 0 two_tasks_heap) ∧
  flowchart.deref one_style_heap 0 = Some one_style_struct ∧
  size (flowchart.nodeStyles one_style_struct) ≤ 1 ∧
  deterministic
    (flowchart.String_out
       (λ h x, one (flowchart.Node_renderGraph h x))
       (λ h x, one (flowchart.Subgraph_renderGraph h x))
       (λ h x, one (flowchart.Edge_String h x))
       (λ h x, one (flowchart.NodeStyle_String h x))
       (λ h x, one (flowchart.EdgeStyle_String h x)) flowchart.Sprintf1 0 one_style_heap).
Proof.
  destruct rendering_is_deterministic_up_to_style_order
    as (Hgantt & Honly & Hflow & _ & _ & _).
  assert (flowchart.deref one_style_heap 0 = Some one_style_struct) as Hfc by reflexivity.
  assert (size (flowchart.nodeStyles one_style_struct) ≤ 1) as Hsize
    by (vm_compute; lia).
  split_and!; [| |done|done|].
  - apply Hgantt; intros; apply one_deterministic.
  - by apply Honly.
  - apply (λ a b c d e, Hflow _ _ _ _ _ _ a b c d e 0 one_style_heap one_style_struct Hfc Hsize);
      intros; apply one_deterministic.
Defined.

Lemma NewGantt_rejects_wrong_types_witness :
  gantt.wrong_Title [gantt.VInt 2024] || gantt.wrong_AxisFormat [gantt.VInt 2024] = true ∧
  ∃ msg h, gantt.NewGantt [gantt.VInt 2024] ([] : heap gantt.object)
           = Some ((None, Some msg), h).
Proof.
  split; [reflexivity|].
  apply (NewGantt_rejects_wrong_types [gantt.VInt 2024] []). reflexivity.
Defined.

Lemma ListTasks_sorted_by_id_witness :
  gantt.deref two_tasks_heap 0 = Some two_tasks_struct ∧
  gantt.tasks_ok two_tasks_heap two_tasks_struct ∧
  (∃ r, gantt.ListTasks 0 two_tasks_heap r) ∧
  (∀ s h', gantt.ListTasks 0 two_tasks_heap (s, h') →
     ∃ ts, slice_elems h' s = Some ts ∧ gantt.key h' <$> ts = ["a"; "b"]).
Proof.
  assert (gantt.deref two_tasks_heap 0 = Some two_tasks_struct) as Hg by reflexivity.
  assert (gantt.tasks_ok two_tasks_heap two_tasks_struct) as Hok.
  { unfold gantt.tasks_ok. apply map_Forall_to_list.
    assert (map_to_list (gantt.tasksMap two_tasks_struct) = [("a", Some 3); ("b", Some 1)])
      as -> by (vm_compute; reflexivity).
    repeat constructor; by eexists. }
  destruct (ListTasks_sorted_by_id 0 two_tasks_heap two_tasks_struct Hg)
    as (Hret & Hsorted & _ & _).
  split; [done|]. split; [done|]. split; [by apply Hret|].
  intros s h' Hr. destruct (Hsorted s h' Hr) as (ts & Hts & _ & _ & Hkeys).
  exists ts. split; [done|]. rewrite Hkeys. vm_compute. reflexivity.
Defined.

Lemma list_results_are_fresh_copies_witness :
  flowchart.deref scenario_B_heap 0 = Some scenario_B_struct ∧
  slice_elems scenario_B_heap (flowchart.edges scenario_B_struct) = Some [Some 3] ∧
  gantt.deref two_tasks_heap 0 = Some two_tasks_struct ∧
  slice_elems two_tasks_heap (gantt.tasks two_tasks_struct) = Some [Some 1; Some 3] ∧
  (∃ r, flowchart.ListEdges 0 scenario_B_heap = Some r ∧
        fresh_copy scenario_B_heap [Some 3] r) ∧
  (∃ r, gantt.ListLocalTasks 0 two_tasks_heap = Some r ∧
        fresh_copy two_tasks_heap [Some 1; Some 3] r).
Proof.
  assert (flowchart.deref scenario_B_heap 0 = Some scenario_B_struct) as Hfc by reflexivity.
  assert (slice_elems scenario_B_heap (flowchart.edges scenario_B_struct) = Some [Some 3])
    as Hes by reflexivity.
  assert (gantt.deref two_tasks_heap 0 = Some two_tasks_struct) as Hg by reflexivity.
  assert (slice_elems two_tasks_heap (gantt.sections two_tasks_struct) = Some [])
    as Hss by reflexivity.
  assert (slice_elems two_tasks_heap (gantt.tasks two_tasks_struct) = Some [Some 1; Some 3])
    as Hts by reflexivity.
  destruct (@list_results_are_fresh_copies _ _ doubling) as [Hflow Hgantt].
  destruct (Hflow 0 scenario_B_heap scenario_B_struct _ Hfc Hes) as (Hedges & _ & _).
  destruct (Hgantt 0 two_tasks_heap two_tasks_struct _ _ Hg Hss Hts) as (_ & Hlocal).
  split_and!; done.
Defined.

Lemma AddTask_registers_the_task_witness :
  gantt.taskNew "b" 0 None [] plan_heap
  = Some ((Some 1, None),
          plan_heap ++ [Object (gantt.OTask {| task_id := "b"; task_title := "b" |})]) ∧
  ∃ h2, gantt.AddTask 0 "b" [] plan_heap = Some ((Some 1, None), h2) ∧
        gantt.GetTask 0 "b" h2 = Some (Some 1) ∧
        gantt.GetTask 0 "a" h2 = Some None.
Proof.
  assert (gantt.taskNew "b" 0 None [] plan_heap
          = Some ((Some 1, None),
                  plan_heap ++ [Object (gantt.OTask {| task_id := "b"; task_title := "b" |})]))
    as Hnew by reflexivity.
  split; [done|].
  destruct (AddTask_registers_the_task (H1 := doubling) 0 "b" [] plan_heap (Some 1) None _
              Hnew) as [_ Hok].
  destruct (Hok eq_refl _ eq_refl ltac:(by split))
    as (h2 & x2 & old & Hadd & _ & _ & _ & Hget & Hother & _).
  exists h2. split; [done|]. split; [done|]. by rewrite Hother.
Defined.

Lemma AddSection_registers_the_section_witness :
  gantt.sectionNew "s" 0 plan_heap
  = Some ((Some 1, None),
          plan_heap ++ [Object (gantt.OSection {| section_id := "s" |})]) ∧
  ∃ h2, gantt.AddSection 0 "s" plan_heap = Some ((Some 1, None), h2) ∧
        gantt.GetSection 0 "s" h2 = Some (Some 1) ∧
        gantt.GetSection 0 "t" h2 = Some None.
Proof.
  assert (gantt.sectionNew "s" 0 plan_heap
          = Some ((Some 1, None),
                  plan_heap ++ [Object (gantt.OSection {| section_id := "s" |})]))
    as Hnew by reflexivity.
  split; [done|].
  destruct (AddSection_registers_the_section (H1 := doubling) 0 "s" plan_heap (Some 1) None _
              Hnew) as [_ Hok].
  destruct (Hok eq_refl _ eq_refl ltac:(by split))
    as (h2 & x2 & old & Hadd & _ & _ & _ & Hget & Hother & _).
  exists h2. split; [done|]. split; [done|]. by rewrite Hother.
Defined.

Lemma ListTasks_sorts_a_copy_witness :
  gantt.deref two_tasks_heap 0 = Some two_tasks_struct ∧
  ∃ s h' ts, gantt.ListTasks 0 two_tasks_heap (s, h') ∧
             fresh_copy two_tasks_heap ts (s, h') ∧
             slice_elems h' (gantt.tasks two_tasks_struct) = Some [Some 1; Some 3].
Proof.
  assert (gantt.deref two_tasks_heap 0 = Some two_tasks_struct) as Hg by reflexivity.
  split; [done|].
  assert (gantt.tasks_ok two_tasks_heap two_tasks_struct) as Hok.
  { unfold gantt.tasks_ok. apply map_Forall_to_list.
    assert (map_to_list (gantt.tasksMap two_tasks_struct) = [("a", Some 3); ("b", Some 1)])
      as -> by (vm_compute; reflexivity).
    repeat constructor; by eexists. }
  destruct (ListTasks_returns (H1 := doubling) 0 two_tasks_heap two_tasks_struct Hg Hok)
    as [[s h'] Hr].
  destruct (ListTasks_sorts_a_copy (H1 := doubling) 0 two_tasks_heap two_tasks_struct s h' Hg Hr)
    as (ts & Hfresh & _ & Hlocal).
  exists s, h', ts. split; [done|]. split; [done|]. by apply Hlocal.
Defined.

Lemma LiveURL_tells_texts_apart_witness :
  ValidString "graph TB" = true ∧ ValidString "gantt" = true ∧
  flowchart.LiveURL_with std "graph TB" ≠ flowchart.LiveURL_with std "gantt".
Proof.
  assert (ValidString "graph TB" = true) as Hv1 by (vm_compute; reflexivity).
  assert (ValidString "gantt" = true) as Hv2 by (vm_compute; reflexivity).
  split; [done|]. split; [done|]. intros Heq.
  apply (proj1 (LiveURL_tells_texts_apart "graph TB" "gantt" Hv1 Hv2)) in Heq.
  discriminate Heq.
Defined.

End Witnesses.
